(** * Log ingestion pipeline: a shallow embedding and its verified properties

    The development models the four stream stages of the ingestion pipeline
    (record source, metrics collector, bulk uploader, progress tracker) and
    the error logger they share, following the TypeScript sources:

    - [scripts/bulk-insert.ts]                      -> [Module BulkInsert]
    - [scripts/generate-logs.ts]                    -> [Module LogGenerator],
                                                       [Module GenerateLogs]
    - [scripts/generators/log-generator.ts]         -> [Module Generator],
                                                       [Module JSDate]
    - [scripts/transforms/log-metrics-collector.ts] -> [Module LogMetricsCollector]
    - [scripts/progress-tracker.ts]                 -> [Module ProgressTracker]
    - [scripts/utils/error-logger.ts]               -> [Module ErrorLogger]

    Conventions.  JavaScript numbers that the program only ever uses as
    counters, array lengths and indices are [nat]; millisecond clocks and
    integer metrics are [Z]; fractional metrics and averages are exact
    rationals [Q].  [Date.now()] is an input of every operation that reads
    the clock.  Console output is not part of the state, except for the
    progress tracker whose only effect it is. *)

From Stdlib Require Import ZArith QArith Qabs Qround Lia Lqa Ascii String DecimalString.
From Stdlib Require Import Sorting.Sorted Permutation.
From stdpp Require Import base option list gmap strings sorting.
From Equations Require Import Equations.

Local Open Scope string_scope.
Local Open Scope Z_scope.

(** ** JavaScript helpers *)

Module JS.

(** An [Error] object, as far as the program reads it. *)
Record Error := mkError {
  name : string;
  message : string;
  stack : option string
}.

(** Completion of an expression that may throw. *)
Inductive completion (A : Type) : Type :=
| Normal (a : A)
| Throw (e : Error).
Arguments Normal {A} a.
Arguments Throw {A} e.

(** Settlement of a promise. *)
Inductive settlement (A : Type) : Type :=
| Resolved (a : A)
| Rejected (e : Error).
Arguments Resolved {A} a.
Arguments Rejected {A} e.

(** A number inside a template literal, for the natural numbers. *)
Definition number_to_string (n : nat) : string :=
  NilEmpty.string_of_uint (Nat.to_uint n).

(** [Array.prototype.join]. *)
Fixpoint join (sep : string) (l : list string) : string :=
  match l with
  | [] => EmptyString
  | [x] => x
  | x :: rest => x ++ sep ++ join sep rest
  end.

(** [String.prototype.split] with a one-character separator. *)
Fixpoint split (sep : ascii) (s : string) : list string :=
  match s with
  | EmptyString => [EmptyString]
  | String c rest =>
      if Ascii.eqb c sep then EmptyString :: split sep rest
      else match split sep rest with
           | [] => [String c EmptyString]
           | hd :: tl => String c hd :: tl
           end
  end.

Definition newline : ascii := Ascii.ascii_of_nat 10.

Definition dquote : ascii := Ascii.ascii_of_nat 34.

Definition backslash : ascii := Ascii.ascii_of_nat 92.

Definition hex_digit (n : nat) : ascii :=
  if (n <? 10)%nat then Ascii.ascii_of_nat (48 + n)
  else Ascii.ascii_of_nat (87 + n).

(** One character of [QuoteJSONString]. *)
Definition quote_char (c : ascii) : string :=
  let n := Ascii.nat_of_ascii c in
  if (n =? 34)%nat then String backslash (String dquote EmptyString)
  else if (n =? 92)%nat then "\\"
  else if (n =? 8)%nat then "\b"
  else if (n =? 12)%nat then "\f"
  else if (n =? 10)%nat then "\n"
  else if (n =? 13)%nat then "\r"
  else if (n =? 9)%nat then "\t"
  else if (n <? 32)%nat then
    "\u00" ++
    String (hex_digit (n / 16)) (String (hex_digit (n mod 16)) EmptyString)
  else String c EmptyString.

Fixpoint quote_chars (s : string) : string :=
  match s with
  | EmptyString => EmptyString
  | String c rest => quote_char c ++ quote_chars rest
  end.

(** [JSON.stringify] of a string value. *)
Definition JSON_stringify_string (s : string) : string :=
  String dquote (quote_chars s ++ String dquote EmptyString).

(** Extended numbers: the finite values of a carrier together with the
    two infinities used as the initial values of running minima and
    maxima. *)
Inductive ext (A : Type) : Type :=
| NegInf
| Fin (a : A)
| PosInf.
Arguments NegInf {A}.
Arguments Fin {A} a.
Arguments PosInf {A}.

(** [Math.min] and [Math.max] of an extended number and a finite one. *)
Definition ext_min {A} (leb : A -> A -> bool) (m : ext A) (x : A) : ext A :=
  match m with
  | NegInf => NegInf
  | Fin a => if leb a x then Fin a else Fin x
  | PosInf => Fin x
  end.

Definition ext_max {A} (leb : A -> A -> bool) (m : ext A) (x : A) : ext A :=
  match m with
  | NegInf => Fin x
  | Fin a => if leb a x then Fin x else Fin a
  | PosInf => PosInf
  end.

(** [parseFloat(x.toFixed(2))] on an exact rational: the nearest multiple
    of 1/100, ties going away from zero, as a reduced fraction. *)
Definition toFixed2 (q : Q) : Q :=
  let scaled := (Qabs q * 100)%Q in
  let n := Qfloor (scaled + (1 # 2))%Q in
  let r := Qred (n # 100) in
  if Qle_bool 0 q then r else Qred (- r)%Q.

Definition ext_toFixed2 (m : ext Q) : ext Q :=
  match m with
  | Fin q => Fin (toFixed2 q)
  | other => other
  end.

End JS.

(** ** The record type ([types/log.types.ts])

    [response_time_ms], [memory_mb], [db_query_time_ms] and [duration_ms]
    are integer metrics (the index template maps them to [integer] and the
    generator draws them with [faker.number.int]); [cpu_usage], the amount
    and the coordinates are fractional. *)

Module Service.
Inductive Environment := production | staging | development.
Record t := mk {
  name : string;
  version : string;
  environment : Environment;
  instance_id : string;
  host : string;
  region : string
}.
End Service.

Module ErrorInfo.
Record t := mk {
  type : string;
  message : string;
  stack_trace : string;
  code : string
}.
End ErrorInfo.

Module Request.
Record t := mk {
  id : string;
  method : string;
  path : string;
  user_id : string;
  ip : string;
  user_agent : string;
  duration_ms : Z
}.
End Request.

Module Business.
Record t := mk {
  transaction_id : string;
  amount : Q;
  currency : string;
  payment_method : string
}.
End Business.

Module EntryMetrics.
Record t := mk {
  cpu_usage : Q;
  memory_mb : Z;
  response_time_ms : Z;
  db_query_time_ms : Z
}.
End EntryMetrics.

Module Geo.
Record Location := mkLocation { lat : Q; lon : Q }.
Record t := mk {
  country : string;
  city : string;
  location : Location
}.
End Geo.

Module Level.
Inductive t := trace | debug | info | warn | error | fatal.
End Level.

Module Category.
Inductive t := application | security | performance | audit | system.
End Category.

Module LogEntry.
Record t := mk {
  id : string;
  timestamp : string;
  service : Service.t;
  level : Level.t;
  category : Category.t;
  message : string;
  error : option ErrorInfo.t;
  request : option Request.t;
  business : option Business.t;
  metrics : EntryMetrics.t;
  tags : list string;
  geo : Geo.t
}.
End LogEntry.

(** ** The error logger ([scripts/utils/error-logger.ts])

    The logger buffers entries in [errors] and appends them to the log file
    on [flush].  The file is modelled by the list of entries it holds;
    [fsWritable] tells whether reading and rewriting it succeeds (when it
    does not, [flush] catches the exception and keeps the buffer).  The
    [timestamp] of an entry is the clock reading whose ISO rendering the
    source stores. *)

Module ErrorLogger.

Inductive ErrorType := insertion | stream | connection | serialization | unknown.

Record OpensearchError := mkOpensearchError {
  type : string;
  reason : string
}.

Record Details := mkDetails {
  documentId : option string;
  document : option LogEntry.t;
  batchIndex : option nat;
  errorCode : option string;
  stackTrace : option string;
  opensearchError : option OpensearchError
}.

Record ErrorLogEntry := mkEntry {
  timestamp : Z;
  errorType : ErrorType;
  source : string;
  message : string;
  details : Details
}.

Record t := mk {
  errors : list ErrorLogEntry;
  logFile : list ErrorLogEntry;
  fsWritable : bool
}.

Definition maxErrorsInMemory : nat := 1000.

Definition flush (lg : t) : t :=
  match errors lg with
  | [] => lg
  | _ :: _ =>
      if fsWritable lg
      then {| errors := []; logFile := logFile lg ++ errors lg;
              fsWritable := fsWritable lg |}
      else lg
  end.

Definition log (entry : ErrorLogEntry) (lg : t) : t :=
  let lg1 := {| errors := errors lg ++ [entry]; logFile := logFile lg;
                fsWritable := fsWritable lg |} in
  if (maxErrorsInMemory <=? length (errors lg1))%nat then flush lg1 else lg1.

Definition insertionEntry (now : Z) (source message : string)
    (documentId : option string) (document : option LogEntry.t)
    (batchIndex : option nat) (opensearchError : option OpensearchError)
    : ErrorLogEntry :=
  {| timestamp := now; errorType := insertion; source := source;
     message := message;
     details := {| documentId := documentId; document := document;
                   batchIndex := batchIndex; errorCode := None;
                   stackTrace := None;
                   opensearchError := opensearchError |} |}.

Definition errorEntry (kind : ErrorType) (now : Z) (source message : string)
    (error : JS.Error) (document : option LogEntry.t) : ErrorLogEntry :=
  {| timestamp := now; errorType := kind; source := source;
     message := message;
     details := {| documentId := None; document := document;
                   batchIndex := None;
                   errorCode := Some (JS.name error);
                   stackTrace := JS.stack error;
                   opensearchError := None |} |}.

Definition logInsertionError (now : Z) (source message : string)
    (documentId : option string) (document : option LogEntry.t)
    (batchIndex : option nat) (opensearchError : option OpensearchError)
    (lg : t) : t :=
  log (insertionEntry now source message documentId document batchIndex
         opensearchError) lg.

Definition logStreamError (now : Z) (source message : string)
    (error : JS.Error) (document : option LogEntry.t) (lg : t) : t :=
  log (errorEntry stream now source message error document) lg.

Definition logConnectionError (now : Z) (source message : string)
    (error : JS.Error) (lg : t) : t :=
  log (errorEntry connection now source message error None) lg.

Definition logSerializationError (now : Z) (source message : string)
    (error : JS.Error) (document : option LogEntry.t) (lg : t) : t :=
  log (errorEntry serialization now source message error document) lg.

Definition getErrorCount (lg : t) : nat := length (errors lg).

(** Everything the logger has accepted so far, oldest first: what is
    already in the file followed by what is still buffered. *)
Definition allEntries (lg : t) : list ErrorLogEntry :=
  logFile lg ++ errors lg.


(** The string an error type is written as. *)
Definition errorType_name (kind : ErrorType) : string :=
  match kind with
  | insertion => "insertion"
  | stream => "stream"
  | connection => "connection"
  | serialization => "serialization"
  | unknown => "unknown"
  end.

(** [getErrorsByType]: one counter per error type among the entries still
    in memory, [counts[type] = (counts[type] || 0) + 1] for each. *)
Definition getErrorsByType (lg : t) : gmap string nat :=
  foldl
    (λ counts error,
       <[ errorType_name (errorType error) :=
            (default 0 (counts !! errorType_name (errorType error)) + 1)%nat ]>
         counts)
    ∅ (errors lg).

End ErrorLogger.

(** ** The bulk uploader ([scripts/bulk-insert.ts])

    The uploader is asynchronous: [sendBatch] runs up to the call of
    [opensearchClient.bulk] and is resumed when the store answers.  The
    model is an event machine.  Each event is one run-to-completion turn of
    the JavaScript scheduler:

    - [Write chunk now]: the stream machinery calls [_transform];
    - [End_ now]: the stream machinery calls [_flush];
    - [Settle k outcome now]: the store settles the bulk request of batch
      [k], which resumes [sendBatch], runs the [catch] and [finally]
      handlers installed by [scheduleFlush], and wakes up a [_transform]
      suspended in [Promise.race] or a [_flush] suspended in [Promise.all].

    The store is the environment: it answers the requests listed in
    [inflight] in any order, with any response or failure.  A promise is
    named by the index of its batch.  The stream machinery calls
    [_transform] and [_flush] only between two records, never while a
    callback is outstanding and never after the stream has ended.  What the
    platform does with a rejected promise that nobody waits for is outside
    the model. *)

Module BulkInsert.

Record BulkInsertOptions := mkOptions {
  indexName : string;
  batchSize : nat;
  concurrency : option nat
}.

(** The private [metrics] object. *)
Module Counters.
Record t := mk {
  batches : nat;
  totalInserted : Z;
  failedDocuments : nat;
  totalDurationMs : Z;
  averageBatchDurationMs : Z;
  maxBatchDurationMs : Z
}.
End Counters.

(** The result of [getMetrics]. *)
Module BulkInsertMetrics.
Record t := mk {
  batches : nat;
  totalInserted : Z;
  failedDocuments : nat;
  averageBatchSize : Q;
  totalDurationMs : Z;
  averageBatchDurationMs : Q;
  maxBatchDurationMs : Z
}.
End BulkInsertMetrics.

(** The body of a bulk response: [item.index?.error] is [item_error]. *)
Record ErrorCause := mkCause { type : string; reason : string }.
Record IndexResult := mkIndexResult { error : option ErrorCause }.
Record Item := mkItem { index : option IndexResult }.
Record BulkResponse := mkResponse { errors : bool; items : list Item }.

Definition item_error (item : Item) : option ErrorCause :=
  match index item with
  | Some r => error r
  | None => None
  end.

(** The progress event handed to [this.push]. *)
Record ProgressData := mkProgress { inserted : Z; total : Z }.

(** A bulk request waiting for the store's answer, with what the
    suspended [sendBatch] still holds. *)
Record Task := mkTask {
  task_index : nat;
  task_batch : list LogEntry.t;
  task_body : string;
  task_start : Z
}.

(** Where the stream stands: ready for the next [_transform] or [_flush];
    inside a [_transform] suspended in [Promise.race]; inside a [_flush]
    suspended in [Promise.all]; or ended, with the argument of the last
    callback. *)
Inductive Phase :=
| Accepting
| AwaitingSlot
| Draining
| Ended (result : option JS.Error).

(** The fields of the class, followed by what surrounds it: the requests
    the store has not answered yet ([inflight]), the progress events handed
    to [this.push] ([pushed]), and where the stream machinery stands
    ([phase]). *)
Record State := mkState {
  buffer : list LogEntry.t;
  totalInserted : Z;
  errorLogger : option ErrorLogger.t;
  pendingFlushes : gset nat;
  flushError : option JS.Error;
  batchIndex : nat;
  metrics : Counters.t;
  inflight : list Task;
  pushed : list ProgressData;
  phase : Phase
}.

Definition set_buffer (b : list LogEntry.t) (s : State) : State :=
  mkState b (totalInserted s) (errorLogger s) (pendingFlushes s)
    (flushError s) (batchIndex s) (metrics s) (inflight s) (pushed s)
    (phase s).

Definition set_errorLogger (lg : option ErrorLogger.t) (s : State) : State :=
  mkState (buffer s) (totalInserted s) lg (pendingFlushes s)
    (flushError s) (batchIndex s) (metrics s) (inflight s) (pushed s)
    (phase s).

Definition set_pendingFlushes (p : gset nat) (s : State) : State :=
  mkState (buffer s) (totalInserted s) (errorLogger s) p
    (flushError s) (batchIndex s) (metrics s) (inflight s) (pushed s)
    (phase s).

Definition set_flushError (e : option JS.Error) (s : State) : State :=
  mkState (buffer s) (totalInserted s) (errorLogger s) (pendingFlushes s)
    e (batchIndex s) (metrics s) (inflight s) (pushed s) (phase s).

Definition set_batchIndex (n : nat) (s : State) : State :=
  mkState (buffer s) (totalInserted s) (errorLogger s) (pendingFlushes s)
    (flushError s) n (metrics s) (inflight s) (pushed s) (phase s).

Definition set_inflight (l : list Task) (s : State) : State :=
  mkState (buffer s) (totalInserted s) (errorLogger s) (pendingFlushes s)
    (flushError s) (batchIndex s) (metrics s) l (pushed s) (phase s).

Definition set_phase (p : Phase) (s : State) : State :=
  mkState (buffer s) (totalInserted s) (errorLogger s) (pendingFlushes s)
    (flushError s) (batchIndex s) (metrics s) (inflight s) (pushed s) p.

(** [this.errorLogger?.f(...)]. *)
Definition with_logger (f : ErrorLogger.t -> ErrorLogger.t) (s : State)
    : State :=
  set_errorLogger (f <$> errorLogger s) s.

Definition source_name : string := "BulkInsertTransform".

Definition nl : string := String JS.newline EmptyString.

(** [Array.prototype.findIndex]: the first position whose element
    satisfies the predicate, [-1] when there is none. *)
Fixpoint findIndex {A} (p : A -> bool) (l : list A) : Z :=
  match l with
  | [] => -1
  | x :: rest =>
      if p x then 0
      else let r := findIndex p rest in
           if r <? 0 then -1 else r + 1
  end.

Section Uploader.

(** [JSON.stringify] on a record is a built-in of the platform. *)
Variable JSON_stringify : LogEntry.t -> JS.completion string.

Variable options : BulkInsertOptions.

(** [Math.max(1, options.concurrency ?? 1)]. *)
Definition concurrency_limit : nat :=
  Nat.max 1 (default 1%nat (concurrency options)).

(** [new BulkInsertTransform(options)]. *)
Definition init (logger : option ErrorLogger.t) : State :=
  {| buffer := []; totalInserted := 0; errorLogger := logger;
     pendingFlushes := ∅; flushError := None; batchIndex := 0;
     metrics := Counters.mk 0 0 0 0 0 0;
     inflight := []; pushed := []; phase := Accepting |}.

(** [JSON.stringify({ index: { _index: indexName } })]. *)
Definition action_line : string :=
  "{" ++ JS.JSON_stringify_string "index" ++ ":{" ++
  JS.JSON_stringify_string "_index" ++ ":" ++
  JS.JSON_stringify_string (indexName options) ++ "}}".

(** The loop of [serializeNdjsonBatch]: two lines per record; the first
    record that cannot be encoded throws. *)
Fixpoint serialize_lines (batch : list LogEntry.t)
    : JS.completion (list string) :=
  match batch with
  | [] => JS.Normal []
  | doc :: rest =>
      match JSON_stringify doc with
      | JS.Throw e => JS.Throw e
      | JS.Normal encoded =>
          match serialize_lines rest with
          | JS.Throw e => JS.Throw e
          | JS.Normal lines => JS.Normal (action_line :: encoded :: lines)
          end
      end
  end.

Definition serializeNdjsonBatch (batch : list LogEntry.t)
    : JS.completion string :=
  match serialize_lines batch with
  | JS.Throw e => JS.Throw e
  | JS.Normal lines => JS.Normal (JS.join nl lines ++ nl)
  end.

(** *** [sendBatch] *)

(** The part of [sendBatch] before its [await]: the batch takes the
    next index and is serialized.  A serialization failure is logged and
    returned; otherwise the request joins [inflight]. *)
Definition sendBatch_start (batch : list LogEntry.t) (now : Z) (s : State)
    : State * option JS.Error :=
  let currentBatchIndex := batchIndex s in
  let s1 := set_batchIndex (S currentBatchIndex) s in
  match serializeNdjsonBatch batch with
  | JS.Throw err =>
      (with_logger
         (ErrorLogger.logSerializationError now source_name
            ("Failed to serialize batch " ++
             JS.number_to_string currentBatchIndex ++ ": " ++
             JS.message err)
            err (head batch)) s1,
       Some err)
  | JS.Normal body =>
      (set_inflight
         (inflight s1 ++ [mkTask currentBatchIndex batch body now]) s1,
       None)
  end.

(** The items of the response that carry an error, each with its error
    payload: [response.body.errors ? items.filter(...) : []]. *)
Definition failed_items (response : BulkResponse) : list ErrorCause :=
  if errors response then omap item_error (items response) else [].

Definition same_error_type (errorItem : ErrorCause) (item : Item) : bool :=
  match item_error item with
  | Some cause => String.eqb (type cause) (type errorItem)
  | None => false
  end.

(** The record blamed for the [idx]-th failure. *)
Definition failedDoc (batch : list LogEntry.t) (response : BulkResponse)
    (idx : nat) (errorItem : ErrorCause) : option LogEntry.t :=
  let itemIndex := findIndex (same_error_type errorItem) (items response) in
  let docIndex := if 0 <=? itemIndex then itemIndex else Z.of_nat idx in
  if docIndex <? Z.of_nat (length batch)
  then batch !! Z.to_nat docIndex
  else None.

Definition insertion_message (errorItem : ErrorCause) : string :=
  "Document insertion failed: " ++ type errorItem ++ " - " ++
  reason errorItem.

(** [errors.forEach((errorItem, idx) => ...)], as far as the error
    logger sees it. *)
Fixpoint log_failures (now : Z) (currentBatchIndex : nat)
    (batch : list LogEntry.t) (response : BulkResponse) (idx : nat)
    (errs : list ErrorCause) (lg : ErrorLogger.t) : ErrorLogger.t :=
  match errs with
  | [] => lg
  | errorItem :: rest =>
      let doc := failedDoc batch response idx errorItem in
      log_failures now currentBatchIndex batch response (S idx) rest
        (ErrorLogger.logInsertionError now source_name
           (insertion_message errorItem)
           (LogEntry.id <$> doc) doc (Some currentBatchIndex)
           (Some (ErrorLogger.mkOpensearchError (type errorItem)
                    (reason errorItem)))
           lg)
  end.

(** [sendBatch] resumed with the store's response. *)
Definition sendBatch_resolved (t : Task) (response : BulkResponse)
    (now : Z) (s : State) : State :=
  let batch := task_batch t in
  let batchDuration := now - task_start t in
  let errs := failed_items response in
  let successfulDocuments :=
    Z.of_nat (length batch) - Z.of_nat (length errs) in
  let m := metrics s in
  let failing := (0 <? length errs)%nat in
  let m' :=
    {| Counters.batches := S (Counters.batches m);
       Counters.totalInserted :=
         Counters.totalInserted m + successfulDocuments;
       Counters.failedDocuments :=
         if failing
         then (Counters.failedDocuments m + length errs)%nat
         else Counters.failedDocuments m;
       Counters.totalDurationMs :=
         Counters.totalDurationMs m + batchDuration;
       Counters.averageBatchDurationMs :=
         Counters.averageBatchDurationMs m;
       Counters.maxBatchDurationMs :=
         Z.max (Counters.maxBatchDurationMs m) batchDuration |} in
  let logger' :=
    if failing
    then log_failures now (task_index t) batch response 0 errs
           <$> errorLogger s
    else errorLogger s in
  let total' := totalInserted s + successfulDocuments in
  {| buffer := buffer s; totalInserted := total';
     errorLogger := logger'; pendingFlushes := pendingFlushes s;
     flushError := flushError s; batchIndex := batchIndex s;
     metrics := m'; inflight := inflight s;
     pushed := pushed s ++ [mkProgress successfulDocuments total'];
     phase := phase s |}.

(** [sendBatch] resumed with a failed request: the [catch] block around
    the [await]. *)
Definition sendBatch_rejected (t : Task) (err : JS.Error) (now : Z)
    (s : State) : State :=
  with_logger
    (ErrorLogger.logConnectionError now source_name
       ("Bulk insert request failed for batch " ++
        JS.number_to_string (task_index t) ++ ": " ++ JS.message err)
       err) s.

(** *** Stream plumbing *)

Definition _destroy (error : option JS.Error) (s : State) : State :=
  set_flushError
    (match error with Some e => Some e | None => flushError s end)
    (set_buffer [] (set_pendingFlushes ∅ s)).

(** The ['error'] listener installed by the constructor. *)
Definition on_error (now : Z) (error : JS.Error) (s : State) : State :=
  with_logger
    (ErrorLogger.logStreamError now source_name
       ("Stream error in bulk insert: " ++ JS.message error) error None)
    s.

(** What the stream machinery does with the argument of the callback of
    [_transform]: nothing when it is empty; otherwise the stream is
    destroyed with the error and emits it. *)
Definition transform_callback (result : option JS.Error) (now : Z)
    (s : State) : State :=
  match result with
  | None => set_phase Accepting s
  | Some err =>
      set_phase (Ended (Some err)) (on_error now err (_destroy (Some err) s))
  end.

(** The same for the callback of [_flush]; without an error the stream
    ends and is destroyed. *)
Definition flush_callback (result : option JS.Error) (now : Z)
    (s : State) : State :=
  match result with
  | None => set_phase (Ended None) (_destroy None s)
  | Some err =>
      set_phase (Ended (Some err)) (on_error now err (_destroy (Some err) s))
  end.

(** [scheduleFlush].  When serialization fails, the promise of
    [sendBatch] is born rejected: its [catch] handler latches
    [flushError] and its [finally] handler removes it from
    [pendingFlushes] before the caller's [await] resumes, so the set is
    left as it was and the error is returned for the caller's
    [Promise.race] or [Promise.all] to reject with. *)
Definition scheduleFlush (batch : list LogEntry.t) (now : Z) (s : State)
    : State * option JS.Error :=
  if (length batch =? 0)%nat then (s, None)
  else
    match sendBatch_start batch now s with
    | (s1, Some err) => (set_flushError (Some err) s1, Some err)
    | (s1, None) =>
        (set_pendingFlushes ({[ batchIndex s ]} ∪ pendingFlushes s1) s1,
         None)
    end.

(** [_transform] up to its [await]. *)
Definition _transform (chunk : LogEntry.t) (now : Z) (s : State) : State :=
  let s1 := set_buffer (buffer s ++ [chunk]) s in
  if (batchSize options <=? length (buffer s1))%nat then
    let batch := buffer s1 in
    let s2 := set_buffer [] s1 in
    match scheduleFlush batch now s2 with
    | (s3, Some err) => transform_callback (Some err) now s3
    | (s3, None) =>
        if (size (pendingFlushes s3) <? concurrency_limit)%nat
        then transform_callback (flushError s3) now s3
        else set_phase AwaitingSlot s3
    end
  else transform_callback None now s1.

(** [_transform] resumed by the first promise of the race to settle. *)
Definition _transform_resume {A} (outcome : JS.settlement A) (now : Z)
    (s : State) : State :=
  match outcome with
  | JS.Resolved _ => transform_callback (flushError s) now s
  | JS.Rejected err => transform_callback (Some err) now s
  end.

(** [_flush] up to its [await]. *)
Definition _flush (now : Z) (s : State) : State :=
  let '(s1, failed) :=
    if (0 <? length (buffer s))%nat
    then scheduleFlush (buffer s) now (set_buffer [] s)
    else (s, None) in
  match failed with
  | Some err => flush_callback (Some err) now s1
  | None =>
      if decide (pendingFlushes s1 = ∅)
      then flush_callback (flushError s1) now s1
      else set_phase Draining s1
  end.

(** [_flush] resumed by a promise of [Promise.all]: the first rejection
    rejects the whole; the last resolution resolves it. *)
Definition _flush_resume {A} (outcome : JS.settlement A) (now : Z)
    (s : State) : State :=
  match outcome with
  | JS.Rejected err => flush_callback (Some err) now s
  | JS.Resolved _ =>
      if decide (pendingFlushes s = ∅)
      then flush_callback (flushError s) now s
      else s
  end.

(** *** The event machine *)

Inductive Event :=
| Write (chunk : LogEntry.t) (now : Z)
| Settle (k : nat) (outcome : JS.settlement BulkResponse) (now : Z)
| End_ (now : Z).

Fixpoint take_task (k : nat) (l : list Task) : option (Task * list Task) :=
  match l with
  | [] => None
  | t :: rest =>
      if (task_index t =? k)%nat then Some (t, rest)
      else match take_task k rest with
           | Some (t', rest') => Some (t', t :: rest')
           | None => None
           end
  end.

(** The store settles the request of task [t]. *)
Definition settle (t : Task) (rest : list Task)
    (outcome : JS.settlement BulkResponse) (now : Z) (s : State) : State :=
  let k := task_index t in
  let awaited := bool_decide (k ∈ pendingFlushes s) in
  let s1 := set_inflight rest s in
  let s2 :=
    match outcome with
    | JS.Resolved response => sendBatch_resolved t response now s1
    | JS.Rejected err =>
        set_flushError (Some err) (sendBatch_rejected t err now s1)
    end in
  let s3 := set_pendingFlushes (pendingFlushes s2 ∖ {[ k ]}) s2 in
  match phase s3 with
  | AwaitingSlot => if awaited then _transform_resume outcome now s3 else s3
  | Draining => if awaited then _flush_resume outcome now s3 else s3
  | Accepting | Ended _ => s3
  end.

Definition step (s : State) (ev : Event) : option State :=
  match ev with
  | Write chunk now =>
      match phase s with
      | Accepting => Some (_transform chunk now s)
      | _ => None
      end
  | End_ now =>
      match phase s with
      | Accepting => Some (_flush now s)
      | _ => None
      end
  | Settle k outcome now =>
      match take_task k (inflight s) with
      | Some (t, rest) => Some (settle t rest outcome now s)
      | None => None
      end
  end.

Fixpoint run (s : State) (evs : list Event) : option State :=
  match evs with
  | [] => Some s
  | ev :: rest =>
      match step s ev with
      | Some s' => run s' rest
      | None => None
      end
  end.

Definition reachable (logger : option ErrorLogger.t) (s : State) : Prop :=
  ∃ evs, run (init logger) evs = Some s.

(** *** Public accessors *)

Definition getTotalInserted (s : State) : Z := totalInserted s.

Definition getMetrics (s : State) : BulkInsertMetrics.t :=
  let m := metrics s in
  let averageBatchSize :=
    if (Counters.batches m =? 0)%nat then 0%Q
    else (inject_Z (Counters.totalInserted m) /
          inject_Z (Z.of_nat (Counters.batches m)))%Q in
  let averageBatchDurationMs :=
    if (Counters.batches m =? 0)%nat then 0%Q
    else (inject_Z (Counters.totalDurationMs m) /
          inject_Z (Z.of_nat (Counters.batches m)))%Q in
  {| BulkInsertMetrics.batches := Counters.batches m;
     BulkInsertMetrics.totalInserted := Counters.totalInserted m;
     BulkInsertMetrics.failedDocuments := Counters.failedDocuments m;
     BulkInsertMetrics.averageBatchSize := averageBatchSize;
     BulkInsertMetrics.totalDurationMs := Counters.totalDurationMs m;
     BulkInsertMetrics.averageBatchDurationMs := averageBatchDurationMs;
     BulkInsertMetrics.maxBatchDurationMs := Counters.maxBatchDurationMs m |}.

End Uploader.

End BulkInsert.

(** ** The record source ([LogGeneratorStream] in [scripts/generate-logs.ts])

    [_read] either ends the stream or schedules, with [setImmediate], one
    tick that generates a chunk.  The stream machinery calls [_read] again
    once the tick has pushed its records, so a run of the source is the
    sequence of its ticks up to [push(null)].  The generation function may
    keep a state of its own (the default one draws random values): it is
    threaded through the calls. *)

Module LogGenerator.

Definition DEFAULT_CHUNK_SIZE : nat := 100.

(** The argument of the generation function. *)
Record Context := mkContext { index : nat; baseDate : Z }.

Section Source.

Variable G : Type.
Variable generatorFn : Context -> G -> LogEntry.t * G.

Record State := mkState {
  generated : nat;
  total : nat;
  base : Z;
  generator_state : G
}.

(** [new LogGeneratorStream(total, baseDate, generatorFn)]. *)
Definition init (total : nat) (baseDate : Z) (g : G) : State :=
  mkState 0 total baseDate g.

Inductive ReadResult :=
| PushNull
| SetImmediate (chunkSize : nat).

Definition _read (s : State) : ReadResult :=
  if (total s <=? generated s)%nat then PushNull
  else SetImmediate (Nat.min DEFAULT_CHUNK_SIZE (total s - generated s)).

(** The scheduled callback: [chunkSize] iterations, each calling the
    generation function at the current index and pushing its result.
    The result lists the calls with the records they pushed. *)
Fixpoint tick (chunkSize : nat) (s : State)
    : list (Context * LogEntry.t) * State :=
  match chunkSize with
  | O => ([], s)
  | S n =>
      let ctx := mkContext (generated s) (base s) in
      let '(log, g') := generatorFn ctx (generator_state s) in
      let s1 := mkState (S (generated s)) (total s) (base s) g' in
      let '(rest, s2) := tick n s1 in
      ((ctx, log) :: rest, s2)
  end.

(** What the consumer of the stream receives, tick by tick. *)
Inductive Output :=
| Chunk (records : list (Context * LogEntry.t))
| EndOfSequence.

Equations? produce (s : State) : list Output
    by wf (total s - generated s)%nat lt :=
  produce s with Equations.Prop.Logic.inspect (_read s) => {
    | exist _ PushNull _ => [EndOfSequence]
    | exist _ (SetImmediate chunkSize) Hread =>
        Chunk (fst (tick chunkSize s)) :: produce (snd (tick chunkSize s))
  }.
Proof.
  assert (∀ n s0,
            generated (tick n s0).2 = (generated s0 + n)%nat ∧
            total (tick n s0).2 = total s0) as Hticked.
  { induction n as [|n IH]; intros s0; simpl; [split; [lia | done]|].
    destruct (generatorFn _ _) as [log g'].
    specialize (IH (mkState (S (generated s0)) (total s0) (base s0) g')).
    destruct (tick n _) as [rest s2]. simpl in *.
    destruct IH as [-> ->]. split; [lia | done]. }
  destruct (Hticked chunkSize s) as [-> ->].
  unfold _read in Hread.
  destruct (total s <=? generated s)%nat eqn:Hle; [discriminate|].
  apply Nat.leb_gt in Hle.
  assert (chunkSize = Nat.min DEFAULT_CHUNK_SIZE (total s - generated s))
    as -> by congruence.
  assert (1 ≤ DEFAULT_CHUNK_SIZE)%nat by (unfold DEFAULT_CHUNK_SIZE; lia).
  lia.
Qed.

End Source.

End LogGenerator.

(** ** The metrics collector ([scripts/transforms/log-metrics-collector.ts]) *)

#[global] Instance Level_eq_dec : EqDecision Level.t.
Proof. solve_decision. Defined.

#[global] Instance Environment_eq_dec : EqDecision Service.Environment.
Proof. solve_decision. Defined.

#[global] Instance Category_eq_dec : EqDecision Category.t.
Proof. solve_decision. Defined.

Module LogMetricsCollector.

Record ResponseTimeTracker := mkResponseTimeTracker {
  values : list Z;
  rt_min : JS.ext Z;
  rt_max : JS.ext Z;
  rt_total : Z
}.

Record NumericTracker (A : Type) := mkNumericTracker {
  min : JS.ext A;
  max : JS.ext A;
  total : A
}.
Arguments mkNumericTracker {A}.
Arguments min {A}.
Arguments max {A}.
Arguments total {A}.

Record State := mkState {
  count : nat;
  levelCounts : Level.t -> nat;
  serviceCounts : gmap string nat;
  environmentCounts : Service.Environment -> nat;
  categoryCounts : Category.t -> nat;
  errorCount : nat;
  responseTime : ResponseTimeTracker;
  cpuUsage : NumericTracker Q;
  memoryMb : NumericTracker Z;
  geoCounts : gmap string nat;
  tagCounts : gmap string nat
}.

(** [new LogMetricsCollector()]: all counters zero, the running minima at
    [+Infinity] and the running maxima at [-Infinity]. *)
Definition init : State :=
  {| count := 0;
     levelCounts := fun _ => 0%nat;
     serviceCounts := ∅;
     environmentCounts := fun _ => 0%nat;
     categoryCounts := fun _ => 0%nat;
     errorCount := 0;
     responseTime := mkResponseTimeTracker [] JS.PosInf JS.NegInf 0;
     cpuUsage := mkNumericTracker JS.PosInf JS.NegInf 0%Q;
     memoryMb := mkNumericTracker JS.PosInf JS.NegInf 0;
     geoCounts := ∅;
     tagCounts := ∅ |}.

(** [counts[key]++] on an object holding one counter per enumerated key. *)
Definition increment {K} `{EqDecision K} (key : K) (counts : K -> nat)
    : K -> nat :=
  fun k => if decide (k = key) then S (counts k) else counts k.

(** [counts[key] = (counts[key] || 0) + 1]. *)
Definition bump (key : string) (counts : gmap string nat) : gmap string nat :=
  <[ key := S (default 0%nat (counts !! key)) ]> counts.

Definition geoKey (g : Geo.t) : string :=
  Geo.country g ++ "|" ++ Geo.city g.

(** [_transform]: the new state and the record pushed downstream. *)
Definition _transform (chunk : LogEntry.t) (s : State)
    : State * LogEntry.t :=
  let responseTime_ms := EntryMetrics.response_time_ms (LogEntry.metrics chunk) in
  let cpu := EntryMetrics.cpu_usage (LogEntry.metrics chunk) in
  let memory := EntryMetrics.memory_mb (LogEntry.metrics chunk) in
  let rt := responseTime s in
  ({| count := S (count s);
      levelCounts := increment (LogEntry.level chunk) (levelCounts s);
      serviceCounts :=
        bump (Service.name (LogEntry.service chunk)) (serviceCounts s);
      environmentCounts :=
        increment (Service.environment (LogEntry.service chunk))
          (environmentCounts s);
      categoryCounts :=
        increment (LogEntry.category chunk) (categoryCounts s);
      errorCount :=
        match LogEntry.error chunk with
        | Some _ => S (errorCount s)
        | None => errorCount s
        end;
      responseTime :=
        {| values := values rt ++ [responseTime_ms];
           rt_total := rt_total rt + responseTime_ms;
           rt_min := JS.ext_min Z.leb (rt_min rt) responseTime_ms;
           rt_max := JS.ext_max Z.leb (rt_max rt) responseTime_ms |};
      cpuUsage :=
        {| total := (total (cpuUsage s) + cpu)%Q;
           min := JS.ext_min Qle_bool (min (cpuUsage s)) cpu;
           max := JS.ext_max Qle_bool (max (cpuUsage s)) cpu |};
      memoryMb :=
        {| total := total (memoryMb s) + memory;
           min := JS.ext_min Z.leb (min (memoryMb s)) memory;
           max := JS.ext_max Z.leb (max (memoryMb s)) memory |};
      geoCounts := bump (geoKey (LogEntry.geo chunk)) (geoCounts s);
      tagCounts := foldl (fun counts tag => bump tag counts) (tagCounts s)
                     (LogEntry.tags chunk) |},
   chunk).

(** The collector after a sequence of records. *)
Definition observe (logs : list LogEntry.t) : State :=
  foldl (fun s chunk => fst (_transform chunk s)) init logs.

Module Snapshot.
Record ResponseTime := mkResponseTime {
  min : JS.ext Z;
  max : JS.ext Z;
  avg : Q;
  p95 : Z
}.
Record Numeric (A : Type) := mkNumeric {
  n_min : JS.ext A;
  n_max : JS.ext A;
  n_avg : Q
}.
Arguments mkNumeric {A}.
Arguments n_min {A}.
Arguments n_max {A}.
Arguments n_avg {A}.
Record t := mk {
  totalGenerated : nat;
  levelCounts : Level.t -> nat;
  serviceCounts : gmap string nat;
  environmentCounts : Service.Environment -> nat;
  categoryCounts : Category.t -> nat;
  errorCount : nat;
  responseTime : ResponseTime;
  cpuUsage : Numeric Q;
  memoryMb : Numeric Z;
  geoCounts : gmap string nat;
  tagCounts : gmap string nat
}.
End Snapshot.

(** [x === Number.POSITIVE_INFINITY ? 0 : x] and its mirror image. *)
Definition report_min {A} (zero : A) (m : JS.ext A) : JS.ext A :=
  match m with
  | JS.PosInf => JS.Fin zero
  | other => other
  end.

Definition report_max {A} (zero : A) (m : JS.ext A) : JS.ext A :=
  match m with
  | JS.NegInf => JS.Fin zero
  | other => other
  end.

(** [this.total > 0 ? sum / this.total : 0]. *)
Definition average (sum : Q) (n : nat) : Q :=
  if (0 <? n)%nat then (sum / inject_Z (Z.of_nat n))%Q else 0%Q.

(** [[...values].sort((a, b) => a - b)]: on integers the comparator is a
    total order, so the result is the ascending arrangement of the
    values. *)
Definition sort_ascending (l : list Z) : list Z := merge_sort Z.le l.

(** [Math.floor(n * 0.95)], in exact arithmetic: the rounding of the
    double-precision product never crosses an integer for the length of an
    array, so both give the same index. *)
Definition p95Index (n : nat) : nat :=
  if (n =? 0)%nat then 0%nat else (n * 95 / 100)%nat.

Definition percentile95 (observed : list Z) : Z :=
  let sortedResponseTimes := sort_ascending observed in
  let n := length sortedResponseTimes in
  if (n =? 0)%nat then 0
  else nth (Nat.min (p95Index n) (n - 1)) sortedResponseTimes 0.

Definition getSnapshot (s : State) : Snapshot.t :=
  let avgResponseTime := average (inject_Z (rt_total (responseTime s))) (count s) in
  let avgCpu := average (total (cpuUsage s)) (count s) in
  let avgMemory := average (inject_Z (total (memoryMb s))) (count s) in
  {| Snapshot.totalGenerated := count s;
     Snapshot.levelCounts := levelCounts s;
     Snapshot.serviceCounts := serviceCounts s;
     Snapshot.environmentCounts := environmentCounts s;
     Snapshot.categoryCounts := categoryCounts s;
     Snapshot.errorCount := errorCount s;
     Snapshot.responseTime :=
       {| Snapshot.min := report_min 0 (rt_min (responseTime s));
          Snapshot.max := report_max 0 (rt_max (responseTime s));
          Snapshot.avg := JS.toFixed2 avgResponseTime;
          Snapshot.p95 := percentile95 (values (responseTime s)) |};
     Snapshot.cpuUsage :=
       {| Snapshot.n_min :=
            match min (cpuUsage s) with
            | JS.PosInf => JS.Fin 0%Q
            | other => JS.ext_toFixed2 other
            end;
          Snapshot.n_max :=
            match max (cpuUsage s) with
            | JS.NegInf => JS.Fin 0%Q
            | other => JS.ext_toFixed2 other
            end;
          Snapshot.n_avg := JS.toFixed2 avgCpu |};
     Snapshot.memoryMb :=
       {| Snapshot.n_min := report_min 0 (min (memoryMb s));
          Snapshot.n_max := report_max 0 (max (memoryMb s));
          Snapshot.n_avg := JS.toFixed2 avgMemory |};
     Snapshot.geoCounts := geoCounts s;
     Snapshot.tagCounts := tagCounts s |}.

End LogMetricsCollector.

(** ** The progress tracker ([scripts/progress-tracker.ts])

    The only effect of [_transform] is the console line.  The line is
    represented by the three numbers it is formatted from. *)

Module ProgressTracker.

Record State := mkState {
  startTime : Z;
  lastUpdate : Z;
  expectedTotal : Z
}.

(** The constructor reads the clock twice. *)
Definition init (now0 now1 : Z) (expectedTotal : Z) : State :=
  mkState now0 now1 expectedTotal.

Record StatusLine := mkLine {
  elapsedMs : Z;
  shownTotal : Z;
  shownExpected : Z
}.

Definition _transform (chunk : BulkInsert.ProgressData) (now : Z) (s : State)
    : State * option StatusLine :=
  if 2000 <? now - lastUpdate s then
    (mkState (startTime s) now (expectedTotal s),
     Some (mkLine (now - startTime s) (BulkInsert.total chunk)
             (expectedTotal s)))
  else (s, None).

(** The tracker fed with progress events and the clock readings at their
    arrival: the times at which a line is printed, and the final state. *)
Fixpoint run (s : State) (events : list (BulkInsert.ProgressData * Z))
    : list Z * State :=
  match events with
  | [] => ([], s)
  | (chunk, now) :: rest =>
      let '(s1, line) := _transform chunk now s in
      let '(times, s2) := run s1 rest in
      (match line with Some _ => now :: times | None => times end, s2)
  end.

End ProgressTracker.

(** ** Test fixtures ([tests/helpers/log-fixtures.ts] and the test suites) *)

Module Fixtures.

(** [createLogEntry]'s base record, with the overrides the tests use. *)
Definition createLogEntry (id : string) (level : Level.t)
    (environment : Service.Environment) (metrics : EntryMetrics.t)
    (tags : list string) (error : option ErrorInfo.t) : LogEntry.t :=
  {| LogEntry.id := id;
     LogEntry.timestamp := "2024-01-01T00:00:00.000Z";
     LogEntry.service :=
       Service.mk "api-gateway" "1.0.0" environment "i-1234567890"
         "ip-127-0-0-1.ec2.internal" "us-east-1";
     LogEntry.level := level;
     LogEntry.category := Category.application;
     LogEntry.message := "Request processed successfully";
     LogEntry.error := error;
     LogEntry.request := None;
     LogEntry.business := None;
     LogEntry.metrics := metrics;
     LogEntry.tags := tags;
     LogEntry.geo :=
       Geo.mk "US" "Seattle"
         (Geo.mkLocation (476062 # 10000) (-1223321 # 10000)) |}.

Definition baseMetrics : EntryMetrics.t := EntryMetrics.mk (25 # 2) 512 150 20.

Definition entry (id : string) : LogEntry.t :=
  createLogEntry id Level.info Service.production baseMetrics
    ["api-gateway"] None.

(** The three records of the metrics collector's test. *)
Definition collectorLogs : list LogEntry.t :=
  [ createLogEntry "log-1" Level.info Service.production
      (EntryMetrics.mk 10 512 200 20) ["api"; "search-demo"] None;
    createLogEntry "log-1" Level.error Service.production
      (EntryMetrics.mk 70 1024 600 80) ["api-gateway"]
      (Some (ErrorInfo.mk "TimeoutException" "Connection timeout" "stack"
               "TO_1001"));
    createLogEntry "log-1" Level.warn Service.staging
      (EntryMetrics.mk 40 768 400 50) ["api-gateway"] None ].

(** A stand-in for [JSON.stringify] that encodes the [id] field only. *)
Definition stringify_id (doc : LogEntry.t) : JS.completion string :=
  JS.Normal ("{" ++ JS.JSON_stringify_string "id" ++ ":" ++
             JS.JSON_stringify_string (LogEntry.id doc) ++ "}").

Definition options (batchSize : nat) (concurrency : option nat)
    : BulkInsert.BulkInsertOptions :=
  BulkInsert.mkOptions "logs-test" batchSize concurrency.

Definition logger : ErrorLogger.t := ErrorLogger.mk [] [] true.

Definition acknowledged : BulkInsert.Item :=
  BulkInsert.mkItem (Some (BulkInsert.mkIndexResult None)).

Definition rejected (type reason : string) : BulkInsert.Item :=
  BulkInsert.mkItem
    (Some (BulkInsert.mkIndexResult (Some (BulkInsert.mkCause type reason)))).

Definition networkError : JS.Error :=
  JS.mkError "ConnectionError" "connect ECONNREFUSED" None.

End Fixtures.

(** Runs of the uploader used as examples. *)

Module Samples.

Import BulkInsert.

Definition two_acknowledged : BulkResponse :=
  mkResponse false [Fixtures.acknowledged; Fixtures.acknowledged].

Definition one_acknowledged : BulkResponse :=
  mkResponse false [Fixtures.acknowledged].

(** Five records in batches of two, one request at a time: each full batch
    is awaited; the drain sends the fifth record alone. *)
Definition five_records : list Event :=
  [ Write (Fixtures.entry "log-1") 0; Write (Fixtures.entry "log-2") 1;
    Settle 0 (JS.Resolved two_acknowledged) 5;
    Write (Fixtures.entry "log-3") 6; Write (Fixtures.entry "log-4") 7;
    Settle 1 (JS.Resolved two_acknowledged) 9;
    Write (Fixtures.entry "log-5") 10;
    End_ 11;
    Settle 2 (JS.Resolved one_acknowledged) 15 ].

(** Two batches of two with two requests allowed in flight: the second
    write of the second batch waits for a slot, which the first request
    frees by succeeding. *)
Definition two_batches : list Event :=
  [ Write (Fixtures.entry "log-1") 0; Write (Fixtures.entry "log-2") 1;
    Write (Fixtures.entry "log-3") 2; Write (Fixtures.entry "log-4") 3;
    Settle 0 (JS.Resolved two_acknowledged) 10 ].

Definition before_failure : State :=
  default (init None)
    (run Fixtures.stringify_id (Fixtures.options 2 (Some 2%nat))
       (init (Some Fixtures.logger)) two_batches).

(** The second request then fails while the stream accepts records. *)
Definition after_failure : State :=
  default before_failure
    (step Fixtures.stringify_id (Fixtures.options 2 (Some 2%nat))
       before_failure (Settle 1 (JS.Rejected Fixtures.networkError) 11)).


Definition second_rejected : BulkResponse :=
  mkResponse true
    [Fixtures.acknowledged;
     Fixtures.rejected "mapper_parsing_exception" "failed to parse"].



(** Two batches of one record in flight at the drain, without an error
    logger; the store then fails both requests, with different errors. *)
Definition timeoutError : JS.Error :=
  JS.mkError "TimeoutError" "Request timed out" None.

Definition both_sent : State :=
  default (init None)
    (run Fixtures.stringify_id (Fixtures.options 1 (Some 3%nat)) (init None)
       [ Write (Fixtures.entry "log-1") 0; Write (Fixtures.entry "log-2") 1;
         End_ 2;
         Settle 0 (JS.Rejected Fixtures.networkError) 3 ]).

Definition both_failed : State :=
  default both_sent
    (step Fixtures.stringify_id (Fixtures.options 1 (Some 3%nat)) both_sent
       (Settle 1 (JS.Rejected timeoutError) 4)).

End Samples.

(** * Vocabulary of the properties

    The notions in which the properties below are stated: what a run of a
    stage has done, and the invariants the proofs carry along a run. *)

(** ** Progress tracker *)

(** Two printing times between which more than two seconds pass. *)
Definition spaced (earlier later : Z) : Prop := 2000 < later - earlier.

(** ** Metrics collector *)

(** The response time carried by a record. *)
Definition response_time_of (log : LogEntry.t) : Z :=
  EntryMetrics.response_time_ms (LogEntry.metrics log).

(** ** Record source *)

Section SourceVocabulary.

Import LogGenerator.

Variable G : Type.
Variable generatorFn : Context → G → LogEntry.t * G.

(** The calls of the generation function at the indices [i], [i + 1], ...,
    [i + n - 1], in this order, each with the record it returns; the state
    of the generation function passes from each call to the next. *)
Fixpoint calls_in_order (baseDate : Z) (g : G) (i n : nat)
    : list (Context * LogEntry.t) :=
  match n with
  | O => []
  | S n' =>
      let ctx := mkContext i baseDate in
      let '(log, g') := generatorFn ctx g in
      (ctx, log) :: calls_in_order baseDate g' (S i) n'
  end.

(** A chunk holds between one and [DEFAULT_CHUNK_SIZE] records. *)
Definition bounded_chunk (records : list (Context * LogEntry.t)) : Prop :=
  (1 ≤ length records ≤ DEFAULT_CHUNK_SIZE)%nat.

End SourceVocabulary.

(** ** Bulk wire format *)

(** Whether a character occurs in a string. *)
Fixpoint contains (c : ascii) (s : string) : bool :=
  match s with
  | EmptyString => false
  | String c' rest => Ascii.eqb c' c || contains c rest
  end.

(** Every line followed by a newline. *)
Fixpoint unlines (lines : list string) : string :=
  match lines with
  | [] => EmptyString
  | line :: rest => line ++ BulkInsert.nl ++ unlines rest
  end.

(** ** Bulk uploader *)

Section UploaderVocabulary.

Import BulkInsert.

Variable stringify : LogEntry.t → JS.completion string.
Variable options : BulkInsertOptions.

(** The record ids named by the insertion entries of a logger. *)
Definition blamed_ids (lg : ErrorLogger.t) : list (option string) :=
  map (λ entry, ErrorLogger.documentId (ErrorLogger.details entry))
    (List.filter
       (λ entry,
          match ErrorLogger.errorType entry with
          | ErrorLogger.insertion => true
          | _ => false
          end)
       (ErrorLogger.allEntries lg)).



(** The kinds of events of a run. *)
Definition is_write (ev : Event) : bool :=
  match ev with
  | Write _ _ => true
  | _ => false
  end.

Definition is_end (ev : Event) : bool :=
  match ev with
  | End_ _ => true
  | _ => false
  end.

Definition is_settle (ev : Event) : bool :=
  match ev with
  | Settle _ _ _ => true
  | _ => false
  end.

(** The records accepted in a run, and whether the run was drained. *)
Definition writes (evs : list Event) : nat := length (List.filter is_write evs).

Definition drained (evs : list Event) : bool := existsb is_end evs.

(** The requests the store has answered in a run. *)
Definition settled (evs : list Event) : nat :=
  length (List.filter is_settle evs).

(** Division rounded up. *)
Definition ceil_div (n b : nat) : nat := ((n + b - 1) / b)%nat.

(** The batching invariant: before the drain, every batch cut so far was
    full and the buffer holds the remainder; after it, the batches are as
    many as the records divided by the batch size, rounded up. *)
Definition batching (n : nat) (ended : bool) (s : State) : Prop :=
  if ended then
    batchIndex s = ceil_div n (batchSize options) ∧
    phase s ≠ Accepting ∧ phase s ≠ AwaitingSlot
  else
    match phase s with
    | Accepting | AwaitingSlot =>
        (batchIndex s * batchSize options + length (buffer s) = n)%nat ∧
        (length (buffer s) < batchSize options)%nat
    | Draining => False
    | Ended _ => True
    end.

(** The entry written when the request of a batch fails. *)
Definition connection_entry (now : Z) (batch : nat) (err : JS.Error)
    : ErrorLogger.ErrorLogEntry :=
  ErrorLogger.errorEntry ErrorLogger.connection now "BulkInsertTransform"
    ("Bulk insert request failed for batch " ++ JS.number_to_string batch ++
     ": " ++ JS.message err)
    err None.

(** The failure, if any, that an event latches: a rejected request, or a
    batch that cannot be serialized when it is cut. *)
Definition failure_of (s : State) (ev : Event) (err : JS.Error) : Prop :=
  match ev with
  | Settle _ (JS.Rejected e) _ => e = err
  | Settle _ (JS.Resolved _) _ => False
  | Write chunk _ =>
      serializeNdjsonBatch stringify options (buffer s ++ [chunk])
        = JS.Throw err
  | End_ _ => serializeNdjsonBatch stringify options (buffer s) = JS.Throw err
  end.

(** Every request in flight has its own index, below the next one.  While
    the stream lives, the promises in [pendingFlushes] are those of the
    requests in flight, and a suspended [_transform] or [_flush] waits for
    at least one of them.  A stream that ended without error has no request
    left. *)
Definition tracked (s : State) : Prop :=
  NoDup (task_index <$> inflight s) ∧
  (∀ t, t ∈ inflight s → (task_index t < batchIndex s)%nat) ∧
  match phase s with
  | Ended None => inflight s = []
  | Ended (Some _) => True
  | _ =>
      (∀ k, k ∈ pendingFlushes s ↔ k ∈ task_index <$> inflight s) ∧
      (phase s ≠ Accepting → pendingFlushes s ≠ ∅)
  end.

(** A failure has been latched, and a stream that has ended has ended
    with an error. *)
Definition failed (s : State) : Prop :=
  is_Some (flushError s) ∧ ∀ result, phase s = Ended result → is_Some result.

(** An event that is not the failure of a request. *)
Definition resolves (ev : Event) : Prop :=
  match ev with
  | Settle _ (JS.Rejected _) _ => False
  | _ => True
  end.

(** The latch holds [err], and a stream that has ended has ended with it. *)
Definition failed_with (err : JS.Error) (s : State) : Prop :=
  flushError s = Some err ∧ ∀ result, phase s = Ended result → result = Some err.

(** Once the drain has started, the stream is draining or has ended. *)
Definition closing (s : State) : Prop :=
  phase s ≠ Accepting ∧ phase s ≠ AwaitingSlot.

(** The answer of a store that acknowledges every record of a request. *)
Definition acknowledge_all (t : Task) : BulkResponse :=
  mkResponse false
    (map (λ _, mkItem (Some (mkIndexResult None))) (task_batch t)).

(** A run in which the store keeps up: the records are written one after
    the other, and whenever a write waits for a slot the store acknowledges
    the oldest request.  The result is the run and the state it leads to. *)
Fixpoint accept_all (logs : list LogEntry.t) (s : State)
    : list Event * State :=
  match logs with
  | [] => ([], s)
  | log :: rest =>
      let s1 := _transform stringify options log 0 s in
      match phase s1, inflight s1 with
      | AwaitingSlot, t :: others =>
          let answer := JS.Resolved (acknowledge_all t) in
          let '(evs, s2) := accept_all rest (settle t others answer 0 s1) in
          (Write log 0 :: Settle (task_index t) answer 0 :: evs, s2)
      | _, _ =>
          let '(evs, s2) := accept_all rest s1 in
          (Write log 0 :: evs, s2)
      end
  end.

(** The stream is ready for the next record and no failure is latched. *)
Definition ready (s : State) : Prop :=
  phase s = Accepting ∧ flushError s = None ∧ tracked s.

End UploaderVocabulary.

(** ** The log generator ([scripts/generators/log-generator.ts])

    The generator draws from [Math.random] and from the faker library.
    Each draw is an argument of the model: the functions below say what
    the code builds from the values drawn.  A comparison of a draw with a
    threshold ([Math.random() < 0.6]) is represented by its outcome, and
    [Math.floor(Math.random() * n)] and [faker.number.int] by the integer
    they return. *)

(** The time values of [Date] objects and the operations on them used by
    the generator, after the definitions of the language specification;
    [None] is the time value [NaN] of an invalid date. *)
Module JSDate.

Definition msPerDay : Z := 86400000.
Definition msPerHour : Z := 3600000.
Definition msPerMinute : Z := 60000.
Definition msPerSecond : Z := 1000.

Definition Day (t : Z) : Z := t / msPerDay.
Definition HourFromTime (t : Z) : Z := (t / msPerHour) mod 24.
Definition MinFromTime (t : Z) : Z := (t / msPerMinute) mod 60.
Definition SecFromTime (t : Z) : Z := (t / msPerSecond) mod 60.
Definition msFromTime (t : Z) : Z := t mod msPerSecond.

Definition MakeTime (hour min sec ms : Z) : Z :=
  hour * msPerHour + min * msPerMinute + sec * msPerSecond + ms.

Definition MakeDate (day time : Z) : Z := day * msPerDay + time.

Definition TimeClip (time : Z) : option Z :=
  if Z.abs time <=? 8640000000000000 then Some time else None.

Definition setUTCHours (hour : Z) (date : option Z) : option Z :=
  match date with
  | None => None
  | Some t =>
      TimeClip
        (MakeDate (Day t)
           (MakeTime hour (MinFromTime t) (SecFromTime t) (msFromTime t)))
  end.

Definition setUTCMinutes (min : Z) (date : option Z) : option Z :=
  match date with
  | None => None
  | Some t =>
      TimeClip
        (MakeDate (Day t)
           (MakeTime (HourFromTime t) min (SecFromTime t) (msFromTime t)))
  end.

Definition setUTCSeconds (sec : Z) (date : option Z) : option Z :=
  match date with
  | None => None
  | Some t =>
      TimeClip
        (MakeDate (Day t)
           (MakeTime (HourFromTime t) (MinFromTime t) sec (msFromTime t)))
  end.

Definition setUTCMilliseconds (ms : Z) (date : option Z) : option Z :=
  match date with
  | None => None
  | Some t =>
      TimeClip
        (MakeDate (Day t)
           (MakeTime (HourFromTime t) (MinFromTime t) (SecFromTime t) ms))
  end.

(** The error [toISOString] throws on an invalid date. *)
Definition invalidTime : JS.Error :=
  JS.mkError "RangeError" "Invalid time value" None.

End JSDate.

Module Generator.

Record Weighted (T : Type) := mkWeighted { item : T; weight : Z }.
Arguments mkWeighted {T}.
Arguments item {T}.
Arguments weight {T}.

Definition SERVICES : list (Weighted string) :=
  [ mkWeighted "api-gateway" 25; mkWeighted "auth-service" 15;
    mkWeighted "payment-service" 10; mkWeighted "user-service" 12;
    mkWeighted "notification-service" 8; mkWeighted "order-service" 10;
    mkWeighted "inventory-service" 8; mkWeighted "analytics-service" 7;
    mkWeighted "search-service" 5 ].

Definition LOG_LEVELS : list (Weighted Level.t) :=
  [ mkWeighted Level.trace 5; mkWeighted Level.debug 15;
    mkWeighted Level.info 60; mkWeighted Level.warn 15;
    mkWeighted Level.error 4; mkWeighted Level.fatal 1 ].

Definition ENVIRONMENTS : list (Weighted Service.Environment) :=
  [ mkWeighted Service.production 70; mkWeighted Service.staging 20;
    mkWeighted Service.development 10 ].

Definition CATEGORIES : list Category.t :=
  [ Category.application; Category.security; Category.performance;
    Category.audit; Category.system ].

Definition REGIONS : list string :=
  [ "us-east-1"; "us-west-2"; "eu-west-1"; "ap-south-1" ].

Definition ERROR_TYPES : list string :=
  [ "TimeoutException"; "DatabaseException"; "ValidationException";
    "AuthenticationException"; "PaymentGatewayException";
    "NetworkException"; "ServiceUnavailableException" ].

Definition HTTP_METHODS : list string :=
  [ "GET"; "POST"; "PUT"; "DELETE"; "PATCH" ].

Definition PAYMENT_METHODS : list string :=
  [ "credit_card"; "debit_card"; "paypal"; "bank_transfer" ].

Definition CURRENCIES : list string := [ "USD"; "EUR"; "GBP"; "BRL"; "INR" ].

(** [items.reduce((sum, item) => sum + item.weight, 0)]. *)
Definition totalWeight {T} (items : list (Weighted T)) : Z :=
  foldl (λ sum it, sum + weight it) 0 items.

(** The loop of [weightedRandom]: [random -= item.weight] and the first
    item at which [random <= 0].  The weights are integers, so the
    differences are exact in double precision as long as they are
    positive. *)
Fixpoint pick {T} (items : list (Weighted T)) (random : Q) : option T :=
  match items with
  | [] => None
  | it :: rest =>
      let random' := (random - inject_Z (weight it))%Q in
      if Qle_bool random' 0 then Some (item it) else pick rest random'
  end.

(** [weightedRandom(items)], where [random] is the value of
    [Math.random() * totalWeight].  After the loop the function returns
    [items[0]], which is [undefined] for an empty array. *)
Definition weightedRandom {T} (undefined : T) (items : list (Weighted T))
    (random : Q) : T :=
  match pick items random with
  | Some chosen => chosen
  | None =>
      match items with
      | first :: _ => item first
      | [] => undefined
      end
  end.

(** The draws of [generateTimestamp]. *)
Record TimestampDraws := mkTimestampDraws {
  hour : Z;
  peak : bool;
  peakHour : Z;
  minute : Z;
  second : Z;
  millisecond : Z
}.

(** The [Date] that [generateTimestamp] builds. *)
Definition timestampDate (baseDate : option Z) (d : TimestampDraws)
    : option Z :=
  let hourToUse := if peak d then 10 + peakHour d else hour d in
  let date := baseDate in
  let date := JSDate.setUTCHours hourToUse date in
  let date := JSDate.setUTCMinutes (minute d) date in
  let date := JSDate.setUTCSeconds (second d) date in
  JSDate.setUTCMilliseconds (millisecond d) date.

(** [faker.helpers.arrayElement] returning the element at the index it
    drew; the index lies within the array. *)
Definition arrayElement {A} (undefined : A) (array : list A) (index : nat)
    : A :=
  nth index array undefined.

(** [String.prototype.substring(0, n)] and [toUpperCase] on strings of
    unaccented letters. *)
Fixpoint prefix (n : nat) (s : string) : string :=
  match n, s with
  | S n', String c rest => String c (prefix n' rest)
  | _, _ => EmptyString
  end.

Definition upper (c : ascii) : ascii :=
  let n := Ascii.nat_of_ascii c in
  if ((97 <=? n) && (n <=? 122))%nat then Ascii.ascii_of_nat (n - 32) else c.

Fixpoint toUpperCase (s : string) : string :=
  match s with
  | EmptyString => EmptyString
  | String c rest => String (upper c) (toUpperCase rest)
  end.

Definition generateMessage (serviceName : string) (level : Level.t)
    (index : nat) : string :=
  let messages :=
    match level with
    | Level.trace =>
        [ "Entering method processRequest in " ++ serviceName;
          "Executing query on database"; "Cache lookup for key" ]
    | Level.debug =>
        [ "Processing request with parameters";
          "Database query executed successfully"; "Cache hit for key" ]
    | Level.info =>
        [ "Request processed successfully";
          "User authenticated successfully";
          "Data synchronized with external service";
          "Batch job completed" ]
    | Level.warn =>
        [ "High memory usage detected"; "Slow query detected";
          "Deprecated API endpoint used";
          "Rate limit approaching threshold" ]
    | Level.error =>
        [ "Failed to process payment"; "Database connection timeout";
          "External service unavailable";
          "Validation failed for user input" ]
    | Level.fatal =>
        [ "Critical system failure"; "Database corruption detected";
          "Out of memory error"; "Unrecoverable error in core service" ]
    end in
  arrayElement EmptyString messages index.

Definition generateErrorMessage (errorType : string) (index : nat)
    : string :=
  let messages :=
    if String.eqb errorType "TimeoutException"
    then [ "Connection timeout"; "Request timeout after 30s" ]
    else if String.eqb errorType "DatabaseException"
    then [ "Query execution failed"; "Connection pool exhausted" ]
    else if String.eqb errorType "ValidationException"
    then [ "Invalid input data"; "Missing required field" ]
    else if String.eqb errorType "AuthenticationException"
    then [ "Invalid credentials"; "Token expired" ]
    else if String.eqb errorType "PaymentGatewayException"
    then [ "Payment provider timeout"; "Insufficient funds" ]
    else if String.eqb errorType "NetworkException"
    then [ "Network unreachable"; "Connection refused" ]
    else if String.eqb errorType "ServiceUnavailableException"
    then [ "Service temporarily unavailable"; "Circuit breaker open" ]
    else [ "Unknown error" ] in
  arrayElement EmptyString messages index.

Definition generateStackTrace (serviceName errorType : string)
    (line1 line2 line3 : nat) : string :=
  errorType ++ ": Error in " ++ serviceName ++ BulkInsert.nl ++
  "    at com.example." ++ serviceName ++
  ".Controller.handleRequest(Controller.java:" ++
  JS.number_to_string line1 ++ ")" ++ BulkInsert.nl ++
  "    at com.example." ++ serviceName ++
  ".Service.process(Service.java:" ++ JS.number_to_string line2 ++ ")" ++
  BulkInsert.nl ++
  "    at com.example.common.Handler.execute(Handler.java:" ++
  JS.number_to_string line3 ++ ")".

Definition generateApiPath (serviceName : string) (index : nat) : string :=
  let servicePaths :=
    if String.eqb serviceName "api-gateway"
    then [ "/api/v1/health"; "/api/v1/users"; "/api/v1/orders" ]
    else if String.eqb serviceName "auth-service"
    then [ "/auth/login"; "/auth/logout"; "/auth/refresh" ]
    else if String.eqb serviceName "payment-service"
    then [ "/payments/process"; "/payments/refund"; "/payments/status" ]
    else if String.eqb serviceName "user-service"
    then [ "/users/profile"; "/users/settings"; "/users/delete" ]
    else if String.eqb serviceName "order-service"
    then [ "/orders/create"; "/orders/update"; "/orders/cancel" ]
    else [ "/api/v1/generic" ] in
  arrayElement EmptyString servicePaths index.

(** [generateTags]: [extra] tells whether [Math.random() < 0.3]. *)
Definition generateTags (serviceName : string) (level : Level.t)
    (extra : bool) (index : nat) : list string :=
  let baseTags := [serviceName] in
  let baseTags :=
    match level with
    | Level.error | Level.fatal => (baseTags ++ ["critical"])%list
    | _ => baseTags
    end in
  if extra
  then (baseTags ++
        [arrayElement EmptyString ["monitoring"; "alert"; "performance"]
           index])%list
  else baseTags.

(** The draws of one call of [generateLog].  [serviceRandom],
    [levelRandom] and [environmentRandom] are the values of
    [Math.random() * totalWeight] in the three calls of [weightedRandom];
    [cpuScaled] and [amountScaled] are the values of [Math.random() * 100]
    and [Math.random() * 1000]; [extraTag], [withRequest] and
    [withBusiness] are the outcomes of the comparisons of a draw with 0.3,
    0.8 and 0.7; the indices are those at which [arrayElement] picks. *)
Record Draws := mkDraws {
  serviceRandom : Q;
  levelRandom : Q;
  environmentRandom : Q;
  uuid : string;
  timestamp : TimestampDraws;
  versionMajor : nat;
  versionMinor : nat;
  versionPatch : nat;
  instanceSuffix : string;
  hostA : nat;
  hostB : nat;
  hostC : nat;
  hostD : nat;
  regionIndex : nat;
  categoryIndex : nat;
  messageIndex : nat;
  cpuScaled : Q;
  memory : nat;
  responseTime : nat;
  dbQueryTime : nat;
  extraTag : bool;
  extraTagIndex : nat;
  countryCode : string;
  city : string;
  latitude : Q;
  longitude : Q;
  errorTypeIndex : nat;
  errorMessageIndex : nat;
  stackLine1 : nat;
  stackLine2 : nat;
  stackLine3 : nat;
  errorCodeNumber : nat;
  withRequest : bool;
  requestSuffix : string;
  methodIndex : nat;
  pathIndex : nat;
  userSuffix : string;
  ipv4 : string;
  userAgent : string;
  duration : nat;
  withBusiness : bool;
  transactionSuffix : string;
  amountScaled : Q;
  currencyIndex : nat;
  paymentMethodIndex : nat
}.

Section GenerateLog.

(** [Date.prototype.toISOString] on a valid time value. *)
Variable toISOString : Z -> string.

(** [generateTimestamp]: the string of the date built, or the error
    [toISOString] throws when the base date is invalid. *)
Definition generateTimestamp (baseDate : option Z) (d : TimestampDraws)
    : JS.completion string :=
  match timestampDate baseDate d with
  | Some t => JS.Normal (toISOString t)
  | None => JS.Throw JSDate.invalidTime
  end.

Definition generateLog (baseDate : option Z) (d : Draws)
    : JS.completion LogEntry.t :=
  let service := weightedRandom EmptyString SERVICES (serviceRandom d) in
  let level := weightedRandom Level.trace LOG_LEVELS (levelRandom d) in
  let environment :=
    weightedRandom Service.production ENVIRONMENTS (environmentRandom d) in
  let hasError :=
    match level with
    | Level.error | Level.fatal => true
    | _ => false
    end in
  let isPaymentService := String.eqb service "payment-service" in
  match generateTimestamp baseDate (timestamp d) with
  | JS.Throw e => JS.Throw e
  | JS.Normal stamp =>
      let errorType :=
        arrayElement EmptyString ERROR_TYPES (errorTypeIndex d) in
      JS.Normal
        {| LogEntry.id := uuid d;
           LogEntry.timestamp := stamp;
           LogEntry.service :=
             {| Service.name := service;
                Service.version :=
                  JS.number_to_string (versionMajor d) ++ "." ++
                  JS.number_to_string (versionMinor d) ++ "." ++
                  JS.number_to_string (versionPatch d);
                Service.environment := environment;
                Service.instance_id := "i-" ++ instanceSuffix d;
                Service.host :=
                  "ip-" ++ JS.number_to_string (hostA d) ++ "-" ++
                  JS.number_to_string (hostB d) ++ "-" ++
                  JS.number_to_string (hostC d) ++ "-" ++
                  JS.number_to_string (hostD d) ++ ".ec2.internal";
                Service.region :=
                  arrayElement EmptyString REGIONS (regionIndex d) |};
           LogEntry.level := level;
           LogEntry.category :=
             arrayElement Category.application CATEGORIES (categoryIndex d);
           LogEntry.message := generateMessage service level (messageIndex d);
           LogEntry.error :=
             if hasError
             then Some
                    {| ErrorInfo.type := errorType;
                       ErrorInfo.message :=
                         generateErrorMessage errorType (errorMessageIndex d);
                       ErrorInfo.stack_trace :=
                         generateStackTrace service errorType (stackLine1 d)
                           (stackLine2 d) (stackLine3 d);
                       ErrorInfo.code :=
                         toUpperCase (prefix 2 errorType) ++ "_" ++
                         JS.number_to_string (errorCodeNumber d) |}
             else None;
           LogEntry.request :=
             if withRequest d
             then Some
                    {| Request.id := "req-" ++ requestSuffix d;
                       Request.method :=
                         arrayElement EmptyString HTTP_METHODS (methodIndex d);
                       Request.path := generateApiPath service (pathIndex d);
                       Request.user_id := "user-" ++ userSuffix d;
                       Request.ip := ipv4 d;
                       Request.user_agent := userAgent d;
                       Request.duration_ms := Z.of_nat (duration d) |}
             else None;
           LogEntry.business :=
             if isPaymentService && withBusiness d
             then Some
                    {| Business.transaction_id := "txn-" ++ transactionSuffix d;
                       Business.amount := JS.toFixed2 (amountScaled d);
                       Business.currency :=
                         arrayElement EmptyString CURRENCIES (currencyIndex d);
                       Business.payment_method :=
                         arrayElement EmptyString PAYMENT_METHODS
                           (paymentMethodIndex d) |}
             else None;
           LogEntry.metrics :=
             {| EntryMetrics.cpu_usage := JS.toFixed2 (cpuScaled d);
                EntryMetrics.memory_mb := Z.of_nat (memory d);
                EntryMetrics.response_time_ms := Z.of_nat (responseTime d);
                EntryMetrics.db_query_time_ms := Z.of_nat (dbQueryTime d) |};
           LogEntry.tags :=
             generateTags service level (extraTag d) (extraTagIndex d);
           LogEntry.geo :=
             {| Geo.country := countryCode d;
                Geo.city := city d;
                Geo.location :=
                  {| Geo.lat := latitude d; Geo.lon := longitude d |} |} |}
  end.

End GenerateLog.

End Generator.

(** ** The pipeline ([scripts/generate-logs.ts], [generateLogs])

    [generateLogs] builds the four stages, awaits their pipeline, and
    reports.  The stages are the ones modelled above; what follows is what
    [generateLogs] itself adds: the defaults of its options, the stages as
    it builds them, and the two continuations of the [await]. *)

Module GenerateLogs.

Record GenerateLogsOptions := mkOptions {
  totalLogs : nat;
  indexName : string;
  batchSize : option nat;
  concurrency : option nat;
  baseDate : option Z;
  errorLogger : option ErrorLogger.t
}.

(** The value of [totalLogs / totalTime]: a division by zero gives
    [Infinity], or [NaN] when the dividend is zero as well. *)
Inductive Rate :=
| Finite (q : Q)
| Infinite
| NotANumber.

Definition divide (n : nat) (seconds : Q) : Rate :=
  if Qeq_bool seconds 0 then
    if (n =? 0)%nat then NotANumber else Infinite
  else Finite (inject_Z (Z.of_nat n) / seconds)%Q.

Record GenerateLogsResult := mkResult {
  totalInserted : Z;
  totalTimeSeconds : Q;
  averageRatePerSecond : Rate;
  bulkMetrics : BulkInsert.BulkInsertMetrics.t;
  logMetrics : LogMetricsCollector.Snapshot.t
}.




(** [new ProgressTracker(totalLogs)]. *)
Definition progressTracker (o : GenerateLogsOptions) (now0 now1 : Z)
    : ProgressTracker.State :=
  ProgressTracker.init now0 now1 (Z.of_nat (totalLogs o)).

(** After the pipeline has resolved: the result, and the caller's logger
    after [options.errorLogger?.flush()]. *)
Definition completed (o : GenerateLogsOptions) (startTime endTime : Z)
    (metricsCollector : LogMetricsCollector.State)
    (uploader : BulkInsert.State)
    : GenerateLogsResult * option ErrorLogger.t :=
  let totalTime := (inject_Z (endTime - startTime) / 1000)%Q in
  let avgRate := divide (totalLogs o) totalTime in
  ({| totalInserted := BulkInsert.getTotalInserted uploader;
      totalTimeSeconds := totalTime;
      averageRatePerSecond := avgRate;
      bulkMetrics := BulkInsert.getMetrics uploader;
      logMetrics := LogMetricsCollector.getSnapshot metricsCollector |},
   ErrorLogger.flush <$> BulkInsert.errorLogger uploader).

(** After the pipeline has rejected with [err]: the [catch] block logs,
    flushes and throws the error again.  [logger] is the caller's logger
    as the pipeline left it. *)
Definition failed (now : Z) (err : JS.Error) (logger : option ErrorLogger.t)
    : JS.Error * option ErrorLogger.t :=
  (err,
   ErrorLogger.flush <$>
     (ErrorLogger.logStreamError now "generateLogs"
        ("Fatal error in log generation pipeline: " ++ JS.message err)
        err None <$> logger)).

End GenerateLogs.

(** ** Error logger: sequences of calls *)

Module ErrorLoggerCalls.

Import ErrorLogger.

(** What happens to a logger: one of the [log...] methods appends an
    entry, [flush] is called, or the log file becomes writable or not. *)
Inductive Call :=
| Log (entry : ErrorLogEntry)
| Flush
| Disk (writable : bool).

Definition call (lg : t) (c : Call) : t :=
  match c with
  | Log entry => log entry lg
  | Flush => flush lg
  | Disk writable => mk (errors lg) (logFile lg) writable
  end.

Definition calls (lg : t) (cs : list Call) : t := foldl call lg cs.

(** The entries logged by a sequence of calls, in order. *)
Definition logged (cs : list Call) : list ErrorLogEntry :=
  omap (λ c, match c with Log entry => Some entry | _ => None end) cs.


(** The entries of a type in a list. *)
Definition of_type (kind : ErrorType) (entries : list ErrorLogEntry)
    : nat :=
  length
    (List.filter
       (λ entry, String.eqb (errorType_name (errorType entry))
                   (errorType_name kind))
       entries).

(** A counter read as [counts[key] || 0]. *)
Definition reading (counts : gmap string nat) (key : string) : nat :=
  default 0%nat (counts !! key).

End ErrorLoggerCalls.

(** ** Bulk uploader: the history of a run *)

Section UploaderHistory.

Import BulkInsert.

Variable stringify : LogEntry.t → JS.completion string.
Variable options : BulkInsertOptions.

(** The records written in a run, in the order of the writes. *)
Definition written (evs : list Event) : list LogEntry.t :=
  omap (λ ev, match ev with Write chunk _ => Some chunk | _ => None end) evs.

(** The [k]-th stretch of [batchSize] consecutive records. *)
Definition slice (k : nat) (records : list LogEntry.t) : list LogEntry.t :=
  take (batchSize options) (drop (k * batchSize options) records).

(** The records credited by a list of progress events. *)
Definition credited (events : list ProgressData) : Z :=
  foldr (λ p acc, inserted p + acc) 0 events.

(** The records carried by the requests in flight. *)
Definition dispatched (tasks : list Task) : nat :=
  foldr (λ t acc, (length (task_batch t) + acc)%nat) 0%nat tasks.

(** The entries that the loop over the failed items of a response hands
    to the error logger, one per failed item. *)
Fixpoint insertion_entries (now : Z) (currentBatchIndex : nat)
    (batch : list LogEntry.t) (response : BulkResponse) (idx : nat)
    (errs : list ErrorCause) : list ErrorLogger.ErrorLogEntry :=
  match errs with
  | [] => []
  | errorItem :: rest =>
      let doc := failedDoc batch response idx errorItem in
      ErrorLogger.insertionEntry now source_name
        (insertion_message errorItem) (LogEntry.id <$> doc) doc
        (Some currentBatchIndex)
        (Some (ErrorLogger.mkOpensearchError (type errorItem)
                 (reason errorItem)))
      :: insertion_entries now currentBatchIndex batch response (S idx) rest
  end.

(** What an insertion entry says about the failure, apart from the
    record it blames. *)
Definition failure_report (entry : ErrorLogger.ErrorLogEntry)
    : ErrorLogger.ErrorType * string * option nat *
      option ErrorLogger.OpensearchError :=
  (ErrorLogger.errorType entry, ErrorLogger.message entry,
   ErrorLogger.batchIndex (ErrorLogger.details entry),
   ErrorLogger.opensearchError (ErrorLogger.details entry)).

(** No other item of the response failed with the error type of the item
    at position [i]. *)
Definition only_of_its_type (response : BulkResponse) (i : nat)
    (cause : ErrorCause) : Prop :=
  ∀ j item' cause',
    items response !! j = Some item' → item_error item' = Some cause' →
    type cause' = type cause → j = i.

(** The requests the store has answered with a response. *)
Definition is_resolved (ev : Event) : bool :=
  match ev with
  | Settle _ (JS.Resolved _) _ => true
  | _ => false
  end.

Definition responses (evs : list Event) : nat :=
  length (List.filter is_resolved evs).

(** The counters of the stream, its metrics and its progress events tell
    the same story: one event per response, each with the running total. *)
Definition counted (n : nat) (s : State) : Prop :=
  totalInserted s = Counters.totalInserted (metrics s) ∧
  totalInserted s = credited (pushed s) ∧
  Counters.batches (metrics s) = length (pushed s) ∧
  Counters.batches (metrics s) = n ∧
  ∀ i p, pushed s !! i = Some p → total p = credited (take (S i) (pushed s)).

(** No response took longer than the recorded maximum. *)
Definition timed (s : State) : Prop :=
  0 ≤ Counters.maxBatchDurationMs (metrics s) ∧
  Counters.totalDurationMs (metrics s)
    ≤ Z.of_nat (Counters.batches (metrics s)) *
      Counters.maxBatchDurationMs (metrics s).

(** No response credited more records than a batch holds. *)
Definition sized (s : State) : Prop :=
  Counters.totalInserted (metrics s)
    ≤ Z.of_nat (Counters.batches (metrics s)) *
      Z.of_nat (batchSize options).

(** A stream that is not ready for a record has an empty buffer. *)
Definition idle_buffer (s : State) : Prop :=
  phase s ≠ Accepting → buffer s = [].

(** While no failure is latched, every request sent is counted or in
    flight, and every record written is credited, failed, in flight or
    buffered. *)
Definition accounted (n : nat) (s : State) : Prop :=
  flushError s = None →
  (Counters.batches (metrics s) + length (inflight s) = batchIndex s)%nat ∧
  Counters.totalInserted (metrics s) +
    Z.of_nat (Counters.failedDocuments (metrics s)) +
    Z.of_nat (dispatched (inflight s)) + Z.of_nat (length (buffer s))
    = Z.of_nat n.

(** Before the drain the stream neither drains nor ends without error; a
    stream that ended without error has no failure latched. *)
Definition open_until_drained (ended : bool) (s : State) : Prop :=
  (ended = false → phase s ≠ Draining ∧ phase s ≠ Ended None) ∧
  (phase s = Ended None → flushError s = None).

(** The requests in flight stay within the limit, and a stream that is
    ready for the next record has a free slot. *)
Definition within_limit (s : State) : Prop :=
  (length (inflight s) ≤ concurrency_limit options)%nat ∧
  (phase s = Accepting →
   (length (inflight s) < concurrency_limit options)%nat).

(** Every request in flight carries the stretch of the written records
    that its index names, in the encoding of [serializeNdjsonBatch]; until
    the drain these stretches are full and the buffer holds the records
    after them. *)
Definition sliced (records : list LogEntry.t) (ended : bool) (s : State)
    : Prop :=
  (∀ t, t ∈ inflight s →
     task_batch t = slice (task_index t) records ∧
     task_batch t ≠ [] ∧
     serializeNdjsonBatch stringify options (task_batch t)
       = JS.Normal (task_body t) ∧
     (ended = false →
      (S (task_index t) * batchSize options ≤ length records)%nat)) ∧
  (if ended then phase s ≠ Accepting ∧ phase s ≠ AwaitingSlot
   else
     phase s = Accepting ∨ phase s = AwaitingSlot →
     buffer s = drop (batchIndex s * batchSize options) records ∧
     (batchIndex s * batchSize options ≤ length records)%nat ∧
     (length (buffer s) < batchSize options)%nat).

End UploaderHistory.

(** ** The pipeline: what flows from stage to stage *)

Section PipelineVocabulary.

Import BulkInsert.

Variable G : Type.
Variable generatorFn : LogGenerator.Context → G → LogEntry.t * G.
Variable stringify : LogEntry.t → JS.completion string.




End PipelineVocabulary.

(** ** Log generator: what the draws are assumed to satisfy *)

Module Contract.

Import Generator.

(** The sum of the weights of the first [k] items. *)
Definition prefixWeight {T} (k : nat) (items : list (Weighted T)) : Z :=
  totalWeight (take k items).

(** The draws of [generateTimestamp] lie where [Math.floor] of a draw
    scaled by 24, 8, 60, 60 and 1000 lies. *)
Definition timestamp_draws (d : TimestampDraws) : Prop :=
  0 ≤ hour d < 24 ∧ 0 ≤ peakHour d < 8 ∧ 0 ≤ minute d < 60 ∧
  0 ≤ second d < 60 ∧ 0 ≤ millisecond d < 1000.

(** A time value at which every time of the same day is a valid date. *)
Definition whole_day (t : Z) : Prop :=
  - 8640000000000000 ≤ t < 8640000000000000.

(** The draws of [generateLog] lie where the random sources put them: a
    product of [Math.random()], which is below one, by a weight total or a
    scale lies between zero and that number; [faker.number.int] stays
    within its bounds; [arrayElement] picks within the array. *)
Definition draws (d : Draws) : Prop :=
  (0 <= serviceRandom d)%Q ∧
  (serviceRandom d <= inject_Z (totalWeight SERVICES))%Q ∧
  (0 <= levelRandom d)%Q ∧
  (levelRandom d <= inject_Z (totalWeight LOG_LEVELS))%Q ∧
  (0 <= environmentRandom d)%Q ∧
  (environmentRandom d <= inject_Z (totalWeight ENVIRONMENTS))%Q ∧
  (0 <= cpuScaled d)%Q ∧ (cpuScaled d <= 100)%Q ∧
  (128 ≤ memory d ≤ 2048)%nat ∧
  (10 ≤ responseTime d ≤ 5000)%nat ∧
  (5 ≤ dbQueryTime d ≤ 500)%nat ∧
  (extraTagIndex d < 3)%nat ∧
  (errorTypeIndex d < length ERROR_TYPES)%nat ∧
  (categoryIndex d < length CATEGORIES)%nat ∧
  (regionIndex d < length REGIONS)%nat.

(** The levels at which [generateLog] attaches an error. *)
Definition hasError (level : Level.t) : bool :=
  match level with
  | Level.error | Level.fatal => true
  | _ => false
  end.

Definition failing (level : Level.t) : Prop := hasError level = true.

(** A record that some call of [generateLog] returns. *)
Definition generated (toISOString : Z → string) (log : LogEntry.t) : Prop :=
  ∃ baseDate d,
    draws d ∧ generateLog toISOString baseDate d = JS.Normal log.

End Contract.

(** ** Further sample runs *)

Module Examples.

Import BulkInsert.

(** The run of five records in batches of two, to its end. *)
Definition completed : State :=
  default (init None)
    (run Fixtures.stringify_id (Fixtures.options 2 None) (init None)
       Samples.five_records).

(** An encoder that fails on one record, as [JSON.stringify] does on a
    cyclic value. *)
Definition circular : JS.Error :=
  JS.mkError "TypeError" "Converting circular structure to JSON" None.

Definition stringify_acyclic (doc : LogEntry.t) : JS.completion string :=
  if String.eqb (LogEntry.id doc) "log-2" then JS.Throw circular
  else Fixtures.stringify_id doc.

(** One record buffered, batches of two, with an error logger. *)
Definition one_buffered : State :=
  default (init None)
    (run stringify_acyclic (Fixtures.options 2 None)
       (init (Some Fixtures.logger)) [Write (Fixtures.entry "log-1") 0]).




(** A stand-in for [toISOString] that prints the time value. *)
Definition iso (t : Z) : string := NilZero.string_of_int (Z.to_int t).

(** Draws that make a failed payment at 14:30:15.250. *)
Definition sample_draws : Generator.Draws :=
  {| Generator.serviceRandom := 45; Generator.levelRandom := 97;
     Generator.environmentRandom := 10;
     Generator.uuid := "6f2c1d1e-0b7a-4c55-9a3e-2f1c7d9b8a10";
     Generator.timestamp := Generator.mkTimestampDraws 3 true 4 30 15 250;
     Generator.versionMajor := 2; Generator.versionMinor := 7;
     Generator.versionPatch := 13;
     Generator.instanceSuffix := "a1b2c3d4e5";
     Generator.hostA := 10; Generator.hostB := 0; Generator.hostC := 12;
     Generator.hostD := 255;
     Generator.regionIndex := 2; Generator.categoryIndex := 1;
     Generator.messageIndex := 0;
     Generator.cpuScaled := 12345 # 1000;
     Generator.memory := 512; Generator.responseTime := 150;
     Generator.dbQueryTime := 20;
     Generator.extraTag := true; Generator.extraTagIndex := 1;
     Generator.countryCode := "BR"; Generator.city := "Recife";
     Generator.latitude := -80539 # 10000;
     Generator.longitude := -349811 # 10000;
     Generator.errorTypeIndex := 4; Generator.errorMessageIndex := 1;
     Generator.stackLine1 := 42; Generator.stackLine2 := 108;
     Generator.stackLine3 := 17; Generator.errorCodeNumber := 4021;
     Generator.withRequest := true;
     Generator.requestSuffix := "q1w2e3r4t5"; Generator.methodIndex := 1;
     Generator.pathIndex := 0; Generator.userSuffix := "u1v2w3x4";
     Generator.ipv4 := "10.0.12.255"; Generator.userAgent := "curl/8.4.0";
     Generator.duration := 320;
     Generator.withBusiness := true;
     Generator.transactionSuffix := "t1t2t3t4t5t6";
     Generator.amountScaled := 99995 # 100;
     Generator.currencyIndex := 3; Generator.paymentMethodIndex := 0 |}.

Definition sample_log : LogEntry.t :=
  match Generator.generateLog iso (Some 1704067200000) sample_draws with
  | JS.Normal log => log
  | JS.Throw _ => Fixtures.entry "none"
  end.

End Examples.

(** ** Metrics collector: what a snapshot is compared with *)

Module Tally.

(** The records of a level, an environment or a category, and those that
    carry an error ([if (chunk.error)]). *)
Definition with_level (l : Level.t) (logs : list LogEntry.t) : nat :=
  length (List.filter (λ log, bool_decide (LogEntry.level log = l)) logs).

Definition with_environment (e : Service.Environment)
    (logs : list LogEntry.t) : nat :=
  length
    (List.filter
       (λ log, bool_decide (Service.environment (LogEntry.service log) = e))
       logs).

Definition with_category (c : Category.t) (logs : list LogEntry.t) : nat :=
  length (List.filter (λ log, bool_decide (LogEntry.category log = c)) logs).

Definition with_error (logs : list LogEntry.t) : nat :=
  length
    (List.filter
       (λ log, match LogEntry.error log with Some _ => true | None => false end)
       logs).

(** How often a key occurs in a list of keys, and the counter an object
    filled by [counts[key] = (counts[key] || 0) + 1] holds for it: none
    for a key that never occurred. *)
Definition occurrences (key : string) (keys : list string) : nat :=
  length (List.filter (String.eqb key) keys).

Definition tally (key : string) (keys : list string) : option nat :=
  if (occurrences key keys =? 0)%nat then None
  else Some (occurrences key keys).

(** The property names every object inherits from [Object.prototype]: on
    these, reading a counter from an object literal does not give
    [undefined]. *)
Definition inherited : list string :=
  [ "constructor"; "hasOwnProperty"; "isPrototypeOf";
    "propertyIsEnumerable"; "toLocaleString"; "toString"; "valueOf";
    "__proto__"; "__defineGetter__"; "__defineSetter__";
    "__lookupGetter__"; "__lookupSetter__" ].

Definition ordinary (key : string) : Prop := key ∉ inherited.

(** The keys under which a list of records is counted. *)
Definition service_names (logs : list LogEntry.t) : list string :=
  map (λ log, Service.name (LogEntry.service log)) logs.

Definition geo_keys (logs : list LogEntry.t) : list string :=
  map (λ log, LogMetricsCollector.geoKey (LogEntry.geo log)) logs.

Definition all_tags (logs : list LogEntry.t) : list string :=
  concat (map LogEntry.tags logs).


(** The values of a list that are at most, or at least, a bound. *)
Definition at_most (bound : Z) (values : list Z) : nat :=
  length (List.filter (λ v, v <=? bound) values).

Definition at_least (bound : Z) (values : list Z) : nat :=
  length (List.filter (λ v, bound <=? v) values).

Definition sum (values : list Z) : Z := foldr Z.add 0 values.

End Tally.

(** ** Record source: the sizes of the chunks *)

(** [n] records cut into chunks of [DEFAULT_CHUNK_SIZE]: full chunks,
    then the rest if there is one. *)
Definition chunk_sizes (n : nat) : list nat :=
  (replicate (n / LogGenerator.DEFAULT_CHUNK_SIZE)%nat
     LogGenerator.DEFAULT_CHUNK_SIZE ++
   if (n mod LogGenerator.DEFAULT_CHUNK_SIZE =? 0)%nat then []
   else [(n mod LogGenerator.DEFAULT_CHUNK_SIZE)%nat])%list.

(** * Verified properties *)

(** ** Metrics collector and uploader defaults *)

Section Defaults.

Import LogMetricsCollector.

(** C10. With no record observed, the snapshot reports zero for every
    minimum, maximum and average, for the 95th percentile and for the
    count, instead of the infinite initial values of the trackers; and an
    uploader that has counted no batch reports zero for both of its
    averages. *)
Theorem C10_zero_defaults :
  (let snapshot := getSnapshot (observe []) in
   Snapshot.totalGenerated snapshot = 0%nat ∧
   Snapshot.responseTime snapshot =
     Snapshot.mkResponseTime (JS.Fin 0) (JS.Fin 0) 0%Q 0 ∧
   Snapshot.cpuUsage snapshot =
     Snapshot.mkNumeric (JS.Fin 0%Q) (JS.Fin 0%Q) 0%Q ∧
   Snapshot.memoryMb snapshot =
     Snapshot.mkNumeric (JS.Fin 0) (JS.Fin 0) 0%Q) ∧
  (∀ s : BulkInsert.State,
     BulkInsert.Counters.batches (BulkInsert.metrics s) = 0%nat →
     BulkInsert.BulkInsertMetrics.averageBatchSize (BulkInsert.getMetrics s)
       = 0%Q ∧
     BulkInsert.BulkInsertMetrics.averageBatchDurationMs
       (BulkInsert.getMetrics s) = 0%Q).
Proof.
  split.
  - repeat split; reflexivity.
  - intros s Hzero. unfold BulkInsert.getMetrics. simpl.
    rewrite Hzero. split; reflexivity.
Qed.

Lemma C10_zero_defaults_witness :
  BulkInsert.Counters.batches (BulkInsert.metrics (BulkInsert.init None))
    = 0%nat ∧
  BulkInsert.BulkInsertMetrics.averageBatchSize
    (BulkInsert.getMetrics (BulkInsert.init None)) = 0%Q.
Proof.
  split; [reflexivity|].
  apply (proj2 C10_zero_defaults (BulkInsert.init None)). reflexivity.
Defined.

End Defaults.


(** ** Progress tracker *)

Section Throttle.

Import ProgressTracker.

Lemma _transform_prints (chunk : BulkInsert.ProgressData) (now : Z) (s : State) :
  (2000 < now - lastUpdate s ∧
   _transform chunk now s =
     (mkState (startTime s) now (expectedTotal s),
      Some (mkLine (now - startTime s) (BulkInsert.total chunk)
              (expectedTotal s)))) ∨
  (now - lastUpdate s ≤ 2000 ∧ _transform chunk now s = (s, None)).
Proof.
  unfold _transform. destruct (2000 <? now - lastUpdate s) eqn:Hlt.
  - left. apply Z.ltb_lt in Hlt. done.
  - right. apply Z.ltb_ge in Hlt. done.
Qed.

Lemma run_spaced (events : list (BulkInsert.ProgressData * Z)) :
  ∀ s, StronglySorted spaced (lastUpdate s :: (run s events).1).
Proof.
  induction events as [|[chunk now] rest IH]; intros s; simpl.
  - repeat constructor.
  - destruct (_transform_prints chunk now s) as [[Hgap ->] | [_ ->]].
    + specialize (IH (mkState (startTime s) now (expectedTotal s))).
      destruct (run _ rest) as [times s2]. simpl in *.
      constructor; [done|].
      apply StronglySorted_inv in IH as [_ Hall].
      constructor; [done|].
      eapply Forall_impl; [exact Hall|].
      unfold spaced. intros t Ht. lia.
    + specialize (IH s). destruct (run s rest) as [times s2]. done.
Qed.

(** C9 (as amended). An event prints a status line exactly when strictly
    more than 2000 ms have passed since the previous line (or since the
    tracker was built, for the first line), and printing records the time.
    Consequently, in every run any two printed lines, and the construction
    and any printed line, are more than two seconds apart. *)
Theorem C9_throttle_strict :
  (∀ chunk now s,
     (_transform chunk now s).2 ≠ None ↔ 2000 < now - lastUpdate s) ∧
  (∀ chunk now s,
     lastUpdate (_transform chunk now s).1 =
       if 2000 <? now - lastUpdate s then now else lastUpdate s) ∧
  (∀ now0 now1 expected events,
     StronglySorted spaced
       (now1 :: (run (init now0 now1 expected) events).1)).
Proof.
  split; [|split].
  - intros chunk now s.
    destruct (_transform_prints chunk now s) as [[Hgap ->] | [Hgap ->]];
      simpl; split; intros; try done; lia.
  - intros chunk now s. unfold _transform.
    destruct (2000 <? now - lastUpdate s); reflexivity.
  - intros now0 now1 expected events.
    apply (run_spaced events (init now0 now1 expected)).
Qed.

(** C9 (as stated) fails at the boundary: an event arriving exactly two
    seconds after the tracker was built prints nothing. *)
Lemma C9_boundary_counterexample :
  let s := init 0 0 10 in
  let chunk := BulkInsert.mkProgress 2 2 in
  2000 ≤ 2000 - lastUpdate s ∧ (_transform chunk 2000 s).2 = None.
Proof. split; [simpl; lia | reflexivity]. Qed.

End Throttle.

(** ** Metrics collector: percentile and aggregates *)

Section Percentile.

Import LogMetricsCollector.

Lemma observe_snoc (logs : list LogEntry.t) (chunk : LogEntry.t) :
  observe (logs ++ [chunk]) = (_transform chunk (observe logs)).1.
Proof. unfold observe. rewrite foldl_app. reflexivity. Qed.

Lemma observe_values (logs : list LogEntry.t) :
  values (responseTime (observe logs)) = map response_time_of logs ∧
  count (observe logs) = length logs.
Proof.
  induction logs as [|chunk logs [IHv IHc]] using rev_ind.
  - done.
  - rewrite observe_snoc. simpl. rewrite IHv, IHc, map_app, length_app.
    simpl. split; [done | lia].
Qed.

Lemma sort_ascending_unique (observed sorted : list Z) :
  Sorted Z.le sorted → sorted ≡ₚ observed → sort_ascending observed = sorted.
Proof.
  intros Hsorted Hperm. unfold sort_ascending.
  apply (Sorted_unique Z.le).
  - apply Sorted_merge_sort. apply _.
  - done.
  - rewrite merge_sort_Permutation. done.
Qed.

(** C8. The reported 95th percentile is the element at index
    [min (floor (0.95 n)) (n - 1)] of the ascending arrangement of the [n]
    response times observed so far, and 0 when none was observed; for the
    response times 200, 600, 400 the snapshot reports average 400, maximum
    600 and minimum 200. *)
Theorem C8_percentile (logs : list LogEntry.t) (sorted : list Z) :
  Sorted Z.le sorted →
  sorted ≡ₚ map response_time_of logs →
  let n := length logs in
  Snapshot.p95 (Snapshot.responseTime (getSnapshot (observe logs))) =
    (if (n =? 0)%nat then 0
     else nth (Nat.min (n * 95 / 100) (n - 1)) sorted 0) ∧
  (let snapshot := getSnapshot (observe Fixtures.collectorLogs) in
   map response_time_of Fixtures.collectorLogs = [200; 600; 400] ∧
   Snapshot.avg (Snapshot.responseTime snapshot) = 400%Q ∧
   Snapshot.max (Snapshot.responseTime snapshot) = JS.Fin 600 ∧
   Snapshot.min (Snapshot.responseTime snapshot) = JS.Fin 200).
Proof.
  intros Hsorted Hperm n. split.
  - destruct (observe_values logs) as [Hvalues _].
    simpl. rewrite Hvalues. unfold percentile95.
    rewrite (sort_ascending_unique _ sorted Hsorted Hperm).
    assert (length sorted = n) as ->.
    { rewrite Hperm. apply length_map. }
    unfold p95Index. destruct (n =? 0)%nat; reflexivity.
  - repeat split; reflexivity.
Qed.

Lemma C8_percentile_witness :
  Snapshot.p95
    (Snapshot.responseTime (getSnapshot (observe Fixtures.collectorLogs)))
  = 600.
Proof.
  assert (Sorted Z.le [200; 400; 600]) as Hsorted.
  { repeat constructor; lia. }
  assert ([200; 400; 600] ≡ₚ map response_time_of Fixtures.collectorLogs)
    as Hperm.
  { simpl. apply perm_skip, perm_swap. }
  exact (proj1 (C8_percentile Fixtures.collectorLogs [200; 400; 600]
                  Hsorted Hperm)).
Defined.

End Percentile.


(** ** Record source *)

Section SourceOrder.

Import LogGenerator.

Variable G : Type.
Variable generatorFn : Context → G → LogEntry.t * G.

Lemma tick_generated (n : nat) (s : State G) :
  generated G (tick G generatorFn n s).2 = (generated G s + n)%nat ∧
  total G (tick G generatorFn n s).2 = total G s ∧
  base G (tick G generatorFn n s).2 = base G s.
Proof.
  revert s. induction n as [|n IH]; intros s; simpl.
  - repeat split; lia.
  - destruct (generatorFn _ _) as [log g'].
    specialize (IH (mkState G (S (generated G s)) (total G s) (base G s) g')).
    destruct (tick G generatorFn n _) as [rest s2]. simpl in *.
    destruct IH as (Hg & Ht & Hb). repeat split; [lia | done | done].
Qed.

Lemma _read_chunk (s : State G) (n : nat) :
  _read G s = SetImmediate n →
  (1 ≤ n ∧ n ≤ DEFAULT_CHUNK_SIZE ∧ n ≤ total G s - generated G s)%nat.
Proof.
  unfold _read. destruct (total G s <=? generated G s)%nat eqn:Hle;
    [discriminate|].
  apply Nat.leb_gt in Hle. intros Heq.
  assert (n = Nat.min DEFAULT_CHUNK_SIZE (total G s - generated G s))
    as -> by congruence.
  assert (1 ≤ DEFAULT_CHUNK_SIZE)%nat by (unfold DEFAULT_CHUNK_SIZE; lia).
  lia.
Qed.

Lemma calls_in_order_contexts (baseDate : Z) (n : nat) :
  ∀ g i, map fst (calls_in_order G generatorFn baseDate g i n) =
         map (λ k, mkContext k baseDate) (seq i n).
Proof.
  induction n as [|n IH]; intros g i; simpl; [done|].
  destruct (generatorFn _ g) as [log g']. simpl. by rewrite IH.
Qed.

Lemma tick_calls (n : nat) :
  ∀ s, (tick G generatorFn n s).1 =
       calls_in_order G generatorFn (base G s) (generator_state G s) (generated G s) n.
Proof.
  induction n as [|n IH]; intros s; simpl; [done|].
  destruct (generatorFn _ _) as [log g'].
  specialize (IH (mkState G (S (generated G s)) (total G s) (base G s) g')).
  destruct (tick G generatorFn n _) as [rest s2]. simpl in *. by rewrite IH.
Qed.

Lemma tick_length (n : nat) :
  ∀ s, length (tick G generatorFn n s).1 = n.
Proof.
  induction n as [|n IH]; intros s; simpl; [done|].
  destruct (generatorFn _ _) as [log g'].
  specialize (IH (mkState G (S (generated G s)) (total G s) (base G s) g')).
  destruct (tick G generatorFn n _) as [rest s2]. simpl in *. by rewrite IH.
Qed.

Lemma tick_add (n m : nat) :
  ∀ s, (tick G generatorFn (n + m) s).1 =
       ((tick G generatorFn n s).1 ++
        (tick G generatorFn m (tick G generatorFn n s).2).1)%list.
Proof.
  induction n as [|n IH]; intros s; simpl; [done|].
  destruct (generatorFn _ _) as [log g'].
  specialize (IH (mkState G (S (generated G s)) (total G s) (base G s) g')).
  destruct (tick G generatorFn (n + m) _) as [rest s2].
  destruct (tick G generatorFn n _) as [rest1 s1]. simpl in *.
  by rewrite IH.
Qed.

Lemma produce_chunks (s : State G) :
  ∃ chunks,
    produce G generatorFn s = (map Chunk chunks ++ [EndOfSequence])%list ∧
    concat chunks =
      (tick G generatorFn (total G s - generated G s) s).1 ∧
    Forall bounded_chunk chunks.
Proof.
  apply (produce_elim G generatorFn
           (λ s out, ∃ chunks,
              out = (map Chunk chunks ++ [EndOfSequence])%list ∧
              concat chunks =
                (tick G generatorFn (total G s - generated G s) s).1 ∧
              Forall bounded_chunk chunks)); clear s.
  - intros s Hread _. exists []. unfold _read in Hread.
    destruct (total G s <=? generated G s)%nat eqn:Hle; [|discriminate].
    apply Nat.leb_le in Hle.
    replace (total G s - generated G s)%nat with 0%nat by lia.
    repeat split; constructor.
  - intros s chunkSize Hread (chunks & Hout & Hconcat & Hbounded) _.
    destruct (_read_chunk s chunkSize Hread) as (Hpos & Hmax & Hleft).
    destruct (tick_generated chunkSize s) as (Hg & Ht & _).
    exists ((tick G generatorFn chunkSize s).1 :: chunks).
    split; [|split].
    + simpl. by rewrite Hout.
    + simpl. rewrite Hconcat, Hg, Ht.
      assert (total G s - generated G s =
              chunkSize + (total G s - (generated G s + chunkSize)))%nat
        as Hsplit by lia.
      rewrite Hsplit, tick_add. reflexivity.
    + constructor; [|done]. unfold bounded_chunk.
      rewrite tick_length. lia.
Qed.

(** C7. For every target count [N], the source delivers chunks of between
    1 and 100 records and then the end of the sequence; taken together the
    chunks are the calls of the generation function at the indices 0, 1,
    ..., N-1, in ascending order, each with the record it returned: exactly
    [N] records, in index order. *)
Theorem C7_source_order (N : nat) (baseDate : Z) (g : G) :
  ∃ chunks : list (list (Context * LogEntry.t)),
    produce G generatorFn (init G N baseDate g) =
      (map Chunk chunks ++ [EndOfSequence])%list ∧
    concat chunks = calls_in_order G generatorFn baseDate g 0 N ∧
    map fst (concat chunks) = map (λ k, mkContext k baseDate) (seq 0 N) ∧
    length (concat chunks) = N ∧
    Forall (λ records, (1 ≤ length records ≤ 100)%nat) chunks.
Proof.
  destruct (produce_chunks (init G N baseDate g))
    as (chunks & Hout & Hconcat & Hbounded).
  exists chunks. simpl in Hconcat. rewrite Nat.sub_0_r, tick_calls in Hconcat.
  simpl in Hconcat.
  split; [done|]. split; [done|]. split; [|split].
  - rewrite Hconcat. apply calls_in_order_contexts.
  - rewrite <- (length_map fst), Hconcat, calls_in_order_contexts,
      length_map. apply length_seq.
  - exact Hbounded.
Qed.

End SourceOrder.


(** ** Bulk wire format *)

Section WireFormat.

Import BulkInsert.

Lemma append_cons (x : ascii) (a b : string) :
  String x a ++ b = String x (a ++ b).
Proof. reflexivity. Qed.

Lemma append_nil (b : string) : EmptyString ++ b = b.
Proof. reflexivity. Qed.

Lemma append_assoc (a b c : string) : (a ++ b) ++ c = a ++ (b ++ c).
Proof.
  induction a as [|x a IH]; [done|].
  by rewrite !append_cons, IH.
Qed.

Lemma contains_append (c : ascii) (a b : string) :
  contains c (a ++ b) = contains c a || contains c b.
Proof.
  induction a as [|x a IH]; [done|].
  rewrite append_cons. simpl. rewrite IH. by rewrite orb_assoc.
Qed.

Lemma join_unlines (lines : list string) :
  lines ≠ [] → JS.join nl lines ++ nl = unlines lines.
Proof.
  induction lines as [|line rest IH]; [done|]. intros _.
  destruct rest as [|line' rest'].
  - reflexivity.
  - change (JS.join nl (line :: line' :: rest'))
      with (line ++ nl ++ JS.join nl (line' :: rest')).
    rewrite !append_assoc, IH by done. reflexivity.
Qed.

Lemma split_line (line rest : string) :
  contains JS.newline line = false →
  JS.split JS.newline (line ++ nl ++ rest) = line :: JS.split JS.newline rest.
Proof.
  induction line as [|c line IH]; intros Hfree.
  - rewrite append_nil. unfold nl. rewrite append_cons, append_nil.
    simpl. reflexivity.
  - simpl in Hfree. apply orb_false_elim in Hfree as [Hc Hline].
    rewrite append_cons. simpl. rewrite Hc, (IH Hline). reflexivity.
Qed.

Lemma split_unlines (lines : list string) :
  Forall (λ line, contains JS.newline line = false) lines →
  JS.split JS.newline (unlines lines) = (lines ++ [EmptyString])%list.
Proof.
  induction 1 as [|line rest Hline _ IH]; simpl; [done|].
  by rewrite split_line, IH.
Qed.

Lemma quote_char_one_line (c : ascii) :
  contains JS.newline (JS.quote_char c) = false.
Proof. destruct c as [[] [] [] [] [] [] [] []]; reflexivity. Qed.

Lemma JSON_stringify_string_one_line (s : string) :
  contains JS.newline (JS.JSON_stringify_string s) = false.
Proof.
  unfold JS.JSON_stringify_string. simpl. rewrite contains_append. simpl.
  rewrite orb_false_r.
  induction s as [|c s IH]; simpl; [done|].
  by rewrite contains_append, quote_char_one_line, IH.
Qed.

Lemma action_line_one_line (options : BulkInsertOptions) :
  contains JS.newline (action_line options) = false.
Proof.
  unfold action_line.
  rewrite !contains_append, !JSON_stringify_string_one_line. reflexivity.
Qed.

Lemma serialize_lines_encoded (stringify : LogEntry.t → JS.completion string)
    (options : BulkInsertOptions) (encode : LogEntry.t → string)
    (batch : list LogEntry.t) :
  Forall (λ doc, stringify doc = JS.Normal (encode doc)) batch →
  serialize_lines stringify options batch =
    JS.Normal (flat_map (λ doc, [action_line options; encode doc]) batch).
Proof.
  induction 1 as [|doc rest Hdoc _ IH]; simpl; [done|].
  by rewrite Hdoc, IH.
Qed.

(** C5. A non-empty batch of [n] records whose encodings succeed (and, as
    every JSON text, hold no raw newline) is serialized into the [2 n] lines
    made, for each record in batch order, of the action line naming the
    configured index and of the record's encoding; each line is followed by
    a newline, so that splitting the body at newlines gives these lines and
    the empty remainder after the last newline. *)
Theorem C5_ndjson_lines (stringify : LogEntry.t → JS.completion string)
    (options : BulkInsertOptions) (encode : LogEntry.t → string)
    (batch : list LogEntry.t) :
  batch ≠ [] →
  Forall (λ doc, stringify doc = JS.Normal (encode doc) ∧
                 contains JS.newline (encode doc) = false) batch →
  let action :=
    "{" ++ JS.JSON_stringify_string "index" ++ ":{" ++
    JS.JSON_stringify_string "_index" ++ ":" ++
    JS.JSON_stringify_string (indexName options) ++ "}}" in
  let lines := flat_map (λ doc, [action; encode doc]) batch in
  length lines = (2 * length batch)%nat ∧
  serializeNdjsonBatch stringify options batch = JS.Normal (unlines lines) ∧
  JS.split JS.newline (unlines lines) = (lines ++ [EmptyString])%list.
Proof.
  intros Hnonempty Hdocs action lines.
  assert (length lines = (2 * length batch)%nat) as Hlength.
  { subst lines. clear. induction batch as [|doc rest IH]; simpl; lia. }
  split; [done|]. split.
  - unfold serializeNdjsonBatch.
    rewrite (serialize_lines_encoded stringify options encode).
    + fold action. fold lines. f_equal. apply join_unlines.
      intros Hnil. rewrite Hnil in Hlength. simpl in Hlength.
      destruct batch; [done | simpl in Hlength; lia].
    + eapply Forall_impl; [exact Hdocs|]. by intros doc [? _].
  - apply split_unlines. subst lines.
    clear Hlength Hnonempty.
    induction Hdocs as [|doc rest [_ Hdoc] _ IH]; simpl; [constructor|].
    constructor; [apply (action_line_one_line options)|].
    constructor; [done | exact IH].
Qed.

(** The batch of the NDJSON test: two records, four lines. *)
Lemma C5_ndjson_lines_witness :
  let batch := [Fixtures.entry "log-1"; Fixtures.entry "log-2"] in
  let encode doc :=
    "{" ++ JS.JSON_stringify_string "id" ++ ":" ++
    JS.JSON_stringify_string (LogEntry.id doc) ++ "}" in
  let action :=
    "{" ++ JS.JSON_stringify_string "index" ++ ":{" ++
    JS.JSON_stringify_string "_index" ++ ":" ++
    JS.JSON_stringify_string "logs-test" ++ "}}" in
  let lines := [action; encode (Fixtures.entry "log-1");
                action; encode (Fixtures.entry "log-2")] in
  length lines = 4%nat ∧
  serializeNdjsonBatch Fixtures.stringify_id (Fixtures.options 2 None) batch
    = JS.Normal (unlines lines) ∧
  JS.split JS.newline (unlines lines) = (lines ++ [EmptyString])%list.
Proof.
  intros batch encode action lines.
  apply (C5_ndjson_lines Fixtures.stringify_id (Fixtures.options 2 None)
           encode batch).
  - discriminate.
  - repeat constructor.
Defined.

End WireFormat.


(** ** Accounting and attribution of a settled batch *)

Section Settlement.

Import BulkInsert.

(** C6. Attribution by error type is only approximate: there are a batch
    of three records and a response, with one item per record, whose first
    and third items fail with the same error type, for which the uploader
    blames the first record for both failures; the record that caused the
    second failure, the third one, is never named. *)
Theorem C6_attribution_approximate :
  ∃ (batch : list LogEntry.t) (response : BulkResponse)
    (cause1 cause3 : ErrorCause) (culprit blamed : LogEntry.t),
    length (items response) = length batch ∧
    item_error <$> items response !! 0%nat = Some (Some cause1) ∧
    item_error <$> items response !! 2%nat = Some (Some cause3) ∧
    type cause1 = type cause3 ∧
    failed_items response = [cause1; cause3] ∧
    batch !! 2%nat = Some culprit ∧
    failedDoc batch response 1 cause3 = Some blamed ∧
    LogEntry.id blamed ≠ LogEntry.id culprit ∧
    ∀ (body : string) (start now : Z),
      blamed_ids <$>
        errorLogger
          (sendBatch_resolved (mkTask 0 batch body start) response now
             (init (Some Fixtures.logger)))
      = Some [Some (LogEntry.id blamed); Some (LogEntry.id blamed)].
Proof.
  exists [Fixtures.entry "log-1"; Fixtures.entry "log-2"; Fixtures.entry "log-3"].
  exists (mkResponse true
            [Fixtures.rejected "mapper_parsing_exception" "failed to parse";
             Fixtures.acknowledged;
             Fixtures.rejected "mapper_parsing_exception" "field too long"]).
  exists (mkCause "mapper_parsing_exception" "failed to parse").
  exists (mkCause "mapper_parsing_exception" "field too long").
  exists (Fixtures.entry "log-3"), (Fixtures.entry "log-1").
  repeat split; try reflexivity.
  simpl. discriminate.
Qed.

(** The callbacks delivered to the stream machinery leave the counters and
    the progress events alone. *)
Lemma transform_callback_counters result now s :
  totalInserted (transform_callback result now s) = totalInserted s ∧
  metrics (transform_callback result now s) = metrics s ∧
  pushed (transform_callback result now s) = pushed s ∧
  batchIndex (transform_callback result now s) = batchIndex s ∧
  inflight (transform_callback result now s) = inflight s.
Proof. destruct result; done. Qed.

Lemma flush_callback_counters result now s :
  totalInserted (flush_callback result now s) = totalInserted s ∧
  metrics (flush_callback result now s) = metrics s ∧
  pushed (flush_callback result now s) = pushed s ∧
  batchIndex (flush_callback result now s) = batchIndex s ∧
  inflight (flush_callback result now s) = inflight s.
Proof. destruct result; done. Qed.

(** Settling a request changes the counters as the resumed [sendBatch]
    does, whoever was waiting for it. *)
Lemma settle_counters t rest outcome now s :
  let resumed :=
    match outcome with
    | JS.Resolved response => sendBatch_resolved t response now s
    | JS.Rejected err => sendBatch_rejected t err now s
    end in
  totalInserted (settle t rest outcome now s) = totalInserted resumed ∧
  metrics (settle t rest outcome now s) = metrics resumed ∧
  pushed (settle t rest outcome now s) = pushed resumed ∧
  batchIndex (settle t rest outcome now s) = batchIndex s ∧
  inflight (settle t rest outcome now s) = rest.
Proof.
  unfold settle.
  set (s3 := set_pendingFlushes _ _).
  assert (totalInserted s3 =
            totalInserted
              match outcome with
              | JS.Resolved response => sendBatch_resolved t response now s
              | JS.Rejected err => sendBatch_rejected t err now s
              end ∧
          metrics s3 =
            metrics
              match outcome with
              | JS.Resolved response => sendBatch_resolved t response now s
              | JS.Rejected err => sendBatch_rejected t err now s
              end ∧
          pushed s3 =
            pushed
              match outcome with
              | JS.Resolved response => sendBatch_resolved t response now s
              | JS.Rejected err => sendBatch_rejected t err now s
              end ∧
          batchIndex s3 = batchIndex s ∧ inflight s3 = rest)
    as (Ht & Hm & Hp & Hb & Hi).
  { subst s3. destruct outcome; done. }
  assert (phase s3 = phase s) as Hphase.
  { subst s3. destruct outcome; done. }
  cbv zeta. rewrite Hphase.
  destruct (phase s); [done| | |done];
    (destruct (bool_decide (task_index t ∈ pendingFlushes s)); [|done]).
  - unfold _transform_resume.
    destruct outcome;
      destruct (transform_callback_counters (flushError s3) now s3)
        as (-> & -> & -> & -> & ->) ||
      destruct (transform_callback_counters (Some e) now s3)
        as (-> & -> & -> & -> & ->); done.
  - unfold _flush_resume. destruct outcome.
    + case_decide; [|done].
      by destruct (flush_callback_counters (flushError s3) now s3)
        as (-> & -> & -> & -> & ->).
    + by destruct (flush_callback_counters (Some e) now s3)
        as (-> & -> & -> & -> & ->).
Qed.





End Settlement.


(** ** Batch formation *)

Section Batching.

Import BulkInsert.

Variable stringify : LogEntry.t → JS.completion string.
Variable options : BulkInsertOptions.

Lemma ceil_div_exact (q b : nat) : (1 ≤ b)%nat → ceil_div (q * b) b = q.
Proof.
  intros Hb. unfold ceil_div. symmetry.
  apply (Nat.div_unique _ _ _ (b - 1)); lia.
Qed.

Lemma ceil_div_partial (q b r : nat) :
  (0 < r < b)%nat → ceil_div (q * b + r) b = S q.
Proof.
  intros Hr. unfold ceil_div. symmetry.
  apply (Nat.div_unique _ _ _ (r - 1)); lia.
Qed.

Lemma scheduleFlush_fields (batch : list LogEntry.t) (now : Z) (s : State) :
  batch ≠ [] →
  batchIndex (scheduleFlush stringify options batch now s).1
    = S (batchIndex s) ∧
  buffer (scheduleFlush stringify options batch now s).1 = buffer s ∧
  phase (scheduleFlush stringify options batch now s).1 = phase s.
Proof.
  intros Hne. unfold scheduleFlush, sendBatch_start.
  destruct batch as [|doc batch]; [done|]. simpl.
  destruct (serializeNdjsonBatch stringify options (doc :: batch)); done.
Qed.

(** What a settlement does to the phase, the buffer and the batch index. *)
Lemma settle_phase t rest outcome now s :
  batchIndex (settle t rest outcome now s) = batchIndex s ∧
  match phase s with
  | Accepting =>
      phase (settle t rest outcome now s) = Accepting ∧
      buffer (settle t rest outcome now s) = buffer s
  | AwaitingSlot =>
      ((phase (settle t rest outcome now s) = AwaitingSlot ∨
        phase (settle t rest outcome now s) = Accepting) ∧
       buffer (settle t rest outcome now s) = buffer s) ∨
      ∃ err, phase (settle t rest outcome now s) = Ended (Some err)
  | Draining =>
      phase (settle t rest outcome now s) = Draining ∨
      ∃ result, phase (settle t rest outcome now s) = Ended result
  | Ended result => phase (settle t rest outcome now s) = Ended result
  end.
Proof.
  split; [apply settle_counters|].
  unfold settle.
  set (s3 := set_pendingFlushes _ _).
  assert (phase s3 = phase s ∧ buffer s3 = buffer s) as [Hphase Hbuffer].
  { subst s3. destruct outcome; done. }
  rewrite Hphase.
  destruct (phase s) eqn:Hs; [by rewrite Hphase| | |by rewrite Hphase];
    (destruct (bool_decide (task_index t ∈ pendingFlushes s));
     [|rewrite Hphase; eauto]).
  - unfold _transform_resume, transform_callback.
    destruct outcome; [destruct (flushError s3)|]; simpl; eauto.
  - unfold _flush_resume, flush_callback.
    destruct outcome; [case_decide; [destruct (flushError s3)|]|];
      simpl; eauto.
Qed.

Lemma batching_step (n : nat) (ended : bool) (s s' : State) (ev : Event) :
  (1 ≤ batchSize options)%nat →
  batching options n ended s →
  step stringify options s ev = Some s' →
  batching options (if is_write ev then S n else n) (ended || is_end ev) s'.
Proof.
  intros Hsize Hinv Hstep. destruct ev as [chunk now|k outcome now|now].
  - (* Write *)
    simpl in Hstep. destruct (phase s) eqn:Hphase; try discriminate.
    injection Hstep as <-.
    destruct ended; [by destruct Hinv as (_ & ? & _)|].
    unfold batching in Hinv. rewrite Hphase in Hinv. destruct Hinv as [Hn Hlt].
    simpl. unfold _transform. simpl. rewrite length_app. simpl.
    destruct (batchSize options <=? length (buffer s) + 1)%nat eqn:Hfull.
    + apply Nat.leb_le in Hfull.
      destruct (scheduleFlush_fields (buffer s ++ [chunk]) now
                  (set_buffer [] (set_buffer (buffer s ++ [chunk]) s)))
        as (Hindex & Hbuffer & _); [by destruct (buffer s)|].
      destruct (scheduleFlush _ _ _ _ _) as [s3 [err|]]; simpl in *.
      * done.
      * destruct (size (pendingFlushes s3) <? concurrency_limit options)%nat.
        -- unfold transform_callback. destruct (flushError s3); simpl; [done|].
           rewrite Hindex, Hbuffer. simpl. lia.
        -- simpl. rewrite Hindex, Hbuffer. simpl. lia.
    + apply Nat.leb_gt in Hfull. simpl. rewrite length_app. simpl. lia.
  - (* Settle *)
    simpl in Hstep.
    destruct (take_task k (inflight s)) as [[t rest]|]; [|discriminate].
    injection Hstep as <-. simpl. rewrite orb_false_r.
    destruct (settle_phase t rest outcome now s) as [Hindex Hphase].
    unfold batching in *. destruct ended.
    + destruct Hinv as (Hn & Hacc & Hwait). rewrite Hindex.
      split; [done|].
      destruct (phase s); try done.
      * destruct Hphase as [-> | [result ->]]; done.
      * rewrite Hphase. done.
    + destruct (phase s); try done.
      * destruct Hphase as [-> ->]. rewrite Hindex. done.
      * destruct Hphase as [[[-> | ->] ->] | [err ->]]; rewrite ?Hindex; done.
      * by rewrite Hphase.
  - (* End_ *)
    simpl in Hstep. destruct (phase s) eqn:Hphase; try discriminate.
    injection Hstep as <-. simpl. rewrite orb_true_r.
    destruct ended; [by destruct Hinv as (_ & ? & _)|].
    unfold batching in Hinv. rewrite Hphase in Hinv. destruct Hinv as [Hn Hlt].
    unfold batching, _flush.
    destruct (0 <? length (buffer s))%nat eqn:Hrest.
    + apply Nat.ltb_lt in Hrest.
      destruct (scheduleFlush_fields (buffer s) now (set_buffer [] s))
        as (Hindex & _ & Hph).
      { intros Hnil. rewrite Hnil in Hrest. simpl in Hrest. lia. }
      simpl in Hindex, Hph.
      assert (S (batchIndex s) = ceil_div n (batchSize options)) as Hceil.
      { rewrite <- Hn. symmetry. apply ceil_div_partial. lia. }
      destruct (scheduleFlush _ _ _ _ _) as [s1 [err|]]; simpl in *.
      * rewrite Hindex. done.
      * case_decide.
        -- unfold flush_callback. destruct (flushError s1); simpl;
             rewrite Hindex; done.
        -- simpl. rewrite Hindex. done.
    + apply Nat.ltb_ge in Hrest.
      assert (batchIndex s = ceil_div n (batchSize options)) as Hceil.
      { rewrite <- Hn.
        replace (length (buffer s)) with 0%nat by lia.
        rewrite Nat.add_0_r. symmetry. by apply ceil_div_exact. }
      case_decide.
      * unfold flush_callback. destruct (flushError s); simpl; done.
      * simpl. done.
Qed.

Lemma batching_run (evs : list Event) :
  (1 ≤ batchSize options)%nat →
  ∀ n ended s s',
    batching options n ended s →
    run stringify options s evs = Some s' →
    batching options (n + writes evs) (ended || drained evs) s'.
Proof.
  intros Hsize. induction evs as [|ev evs IH]; intros n ended s s' Hinv Hrun.
  - injection Hrun as <-. unfold writes. simpl.
    by rewrite Nat.add_0_r, orb_false_r.
  - simpl in Hrun.
    destruct (step stringify options s ev) as [s1|] eqn:Hstep; [|discriminate].
    pose proof (batching_step n ended s s1 ev Hsize Hinv Hstep) as Hinv1.
    specialize (IH _ _ _ _ Hinv1 Hrun).
    unfold writes, drained in *. simpl.
    destruct (is_write ev); simpl in *;
      rewrite ?orb_assoc; rewrite ?Nat.add_succ_r in *; exact IH.
Qed.

End Batching.


(** ** Terminal failures *)

Section Failures.

Import BulkInsert.

Variable stringify : LogEntry.t → JS.completion string.
Variable options : BulkInsertOptions.

Lemma allEntries_flush (lg : ErrorLogger.t) :
  ErrorLogger.allEntries (ErrorLogger.flush lg) = ErrorLogger.allEntries lg.
Proof.
  unfold ErrorLogger.flush, ErrorLogger.allEntries.
  destruct (ErrorLogger.errors lg) as [|entry entries] eqn:Herrors;
    [by rewrite Herrors|].
  destruct (ErrorLogger.fsWritable lg); simpl; [|by rewrite Herrors].
  by rewrite app_nil_r.
Qed.

Lemma allEntries_log (entry : ErrorLogger.ErrorLogEntry) (lg : ErrorLogger.t) :
  ErrorLogger.allEntries (ErrorLogger.log entry lg) =
  (ErrorLogger.allEntries lg ++ [entry])%list.
Proof.
  unfold ErrorLogger.log.
  set (lg1 := ErrorLogger.mk _ _ _).
  assert (ErrorLogger.allEntries lg1 =
          (ErrorLogger.allEntries lg ++ [entry])%list) as Hlg1.
  { unfold ErrorLogger.allEntries. simpl. by rewrite app_assoc. }
  destruct (ErrorLogger.maxErrorsInMemory <=? _)%nat; [|done].
  by rewrite allEntries_flush.
Qed.

Lemma callback_flushError result now s :
  flushError (transform_callback result now s) =
    match result with Some err => Some err | None => flushError s end ∧
  flushError (flush_callback result now s) =
    match result with Some err => Some err | None => flushError s end.
Proof. destruct result; done. Qed.

Lemma callback_phase result now s :
  phase (transform_callback result now s) =
    match result with Some err => Ended (Some err) | None => Accepting end ∧
  phase (flush_callback result now s) = Ended result.
Proof. destruct result; done. Qed.

Lemma callback_logger result now s :
  (∀ lg, errorLogger s = Some lg →
     ∃ lg' extra,
       errorLogger (transform_callback result now s) = Some lg' ∧
       ErrorLogger.allEntries lg' = (ErrorLogger.allEntries lg ++ extra)%list) ∧
  (∀ lg, errorLogger s = Some lg →
     ∃ lg' extra,
       errorLogger (flush_callback result now s) = Some lg' ∧
       ErrorLogger.allEntries lg' = (ErrorLogger.allEntries lg ++ extra)%list).
Proof.
  split; intros lg Hlg; destruct result as [err|]; simpl; rewrite Hlg; simpl.
  all: try (eexists _, []; split; [reflexivity | by rewrite app_nil_r]).
  all: eexists _, [_]; split; [reflexivity|];
    unfold ErrorLogger.logStreamError; apply allEntries_log.
Qed.

(** The latch only changes when a failure happens, and then holds it. *)
Lemma flushError_step (s s' : State) (ev : Event) :
  step stringify options s ev = Some s' →
  flushError s' = flushError s ∨
  ∃ err, failure_of stringify options s ev err ∧ flushError s' = Some err.
Proof.
  intros Hstep. destruct ev as [chunk now|k outcome now|now]; simpl in Hstep.
  - destruct (phase s); try discriminate. injection Hstep as <-.
    unfold _transform, scheduleFlush, sendBatch_start. simpl.
    destruct (batchSize options <=? _)%nat; [|by left].
    destruct (length (buffer s ++ [chunk]) =? 0)%nat; simpl.
    { destruct (size _ <? _)%nat; [|by left].
      destruct (callback_flushError (flushError s) now
                  (set_buffer [] (set_buffer (buffer s ++ [chunk]) s)))
        as [-> _].
      simpl. destruct (flushError s); by left. }
    destruct (serializeNdjsonBatch stringify options (buffer s ++ [chunk]))
      as [body|err] eqn:Hser; simpl.
    + destruct (size _ <? _)%nat; [|by left].
      match goal with
      | |- context [transform_callback ?r now ?st] =>
          destruct (callback_flushError r now st) as [-> _]
      end.
      simpl. destruct (flushError s); by left.
    + right. exists err. done.
  - destruct (take_task k (inflight s)) as [[t rest]|]; [|discriminate].
    injection Hstep as <-. unfold settle.
    set (s3 := set_pendingFlushes _ _).
    assert (flushError s3 =
              match outcome with
              | JS.Resolved _ => flushError s
              | JS.Rejected err => Some err
              end ∧ phase s3 = phase s) as [Hlatch Hphase].
    { subst s3. destruct outcome; done. }
    assert (flushError s3 = flushError s ∨
            ∃ err, failure_of stringify options s (Settle k outcome now) err ∧
                   flushError s3 = Some err) as Hs3.
    { rewrite Hlatch. destruct outcome as [response|err]; [by left|].
      right. by exists err. }
    rewrite Hphase.
    destruct (phase s); [done| | |done];
      (destruct (bool_decide (task_index t ∈ pendingFlushes s)); [|done]).
    + unfold _transform_resume. destruct outcome as [response|err].
      * destruct (callback_flushError (flushError s3) now s3) as [-> _].
        destruct (flushError s3); done.
      * destruct (callback_flushError (Some err) now s3) as [-> _].
        right. by exists err.
    + unfold _flush_resume. destruct outcome as [response|err].
      * case_decide; [|done].
        destruct (callback_flushError (flushError s3) now s3) as [_ ->].
        destruct (flushError s3); done.
      * destruct (callback_flushError (Some err) now s3) as [_ ->].
        right. by exists err.
  - destruct (phase s); try discriminate. injection Hstep as <-.
    unfold _flush, scheduleFlush, sendBatch_start.
    destruct (0 <? length (buffer s))%nat; simpl.
    + destruct (length (buffer s) =? 0)%nat; simpl.
      { case_decide; [|by left].
        destruct (callback_flushError (flushError s) now (set_buffer [] s))
          as [_ ->]. simpl. destruct (flushError s); by left. }
      destruct (serializeNdjsonBatch stringify options (buffer s))
        as [body|err] eqn:Hser; simpl.
      * case_decide; [|by left].
        match goal with
        | |- context [flush_callback ?r now ?st] =>
            destruct (callback_flushError r now st) as [_ ->]
        end.
        simpl. destruct (flushError s); by left.
      * right. exists err. done.
    + case_decide; [|by left].
      destruct (callback_flushError (flushError s) now s) as [_ ->].
      simpl. destruct (flushError s); by left.
Qed.

(** When the stream ends, the result it ends with is the latch. *)
Lemma ended_result (s s' : State) (ev : Event) (result : option JS.Error) :
  step stringify options s ev = Some s' →
  phase s' = Ended result →
  phase s = Ended result ∨ result = flushError s'.
Proof.
  intros Hstep. destruct ev as [chunk now|k outcome now|now]; simpl in Hstep.
  - destruct (phase s); try discriminate. injection Hstep as <-.
    unfold _transform, scheduleFlush, sendBatch_start. simpl.
    destruct (batchSize options <=? _)%nat; [|done].
    destruct (length (buffer s ++ [chunk]) =? 0)%nat; simpl.
    { destruct (size _ <? _)%nat; [|done].
      destruct (flushError s) eqn:Hlatch; simpl; [|done].
      rewrite ?Hlatch. intros [= <-]. by right. }
    destruct (serializeNdjsonBatch stringify options (buffer s ++ [chunk]))
      as [body|err]; simpl.
    + destruct (size _ <? _)%nat; [|done].
      destruct (flushError s) eqn:Hlatch; simpl; [|done].
      intros [= <-]. by right.
    + intros [= <-]. by right.
  - destruct (take_task k (inflight s)) as [[t rest]|]; [|discriminate].
    injection Hstep as <-. unfold settle.
    set (s3 := set_pendingFlushes _ _).
    assert (phase s3 = phase s) as Hphase.
    { subst s3. destruct outcome; done. }
    rewrite Hphase.
    destruct (phase s) eqn:Hs; [by rewrite Hphase| | |rewrite Hphase; by left];
      (destruct (bool_decide (task_index t ∈ pendingFlushes s));
       [|by rewrite Hphase]).
    + unfold _transform_resume. destruct outcome as [response|err].
      * destruct (callback_phase (flushError s3) now s3) as [-> _].
        destruct (callback_flushError (flushError s3) now s3) as [-> _].
        destruct (flushError s3); [|done]. intros [= <-]. by right.
      * destruct (callback_phase (Some err) now s3) as [-> _].
        destruct (callback_flushError (Some err) now s3) as [-> _].
        intros [= <-]. by right.
    + unfold _flush_resume. destruct outcome as [response|err].
      * case_decide; [|by rewrite Hphase].
        destruct (callback_phase (flushError s3) now s3) as [_ ->].
        destruct (callback_flushError (flushError s3) now s3) as [_ ->].
        intros [= <-]. right. subst s3. simpl. by destruct (flushError s).
      * destruct (callback_phase (Some err) now s3) as [_ ->].
        destruct (callback_flushError (Some err) now s3) as [_ ->].
        intros [= <-]. by right.
  - destruct (phase s); try discriminate. injection Hstep as <-.
    unfold _flush, scheduleFlush, sendBatch_start.
    destruct (0 <? length (buffer s))%nat; simpl.
    + destruct (length (buffer s) =? 0)%nat; simpl.
      { case_decide; [|done].
        destruct (flushError s) eqn:Hlatch; simpl; rewrite ?Hlatch;
          intros [= <-]; by right. }
      destruct (serializeNdjsonBatch stringify options (buffer s))
        as [body|err]; simpl.
      * case_decide; [|done].
        destruct (flushError s) eqn:Hlatch; simpl; rewrite ?Hlatch;
          intros [= <-]; by right.
      * intros [= <-]. by right.
    + case_decide; [|done].
      destruct (flushError s) eqn:Hlatch; simpl; rewrite ?Hlatch;
        intros [= <-]; by right.
Qed.


(** *** Requests in flight *)

Lemma take_task_spec (k : nat) (l : list Task) (t : Task) (rest : list Task) :
  take_task k l = Some (t, rest) →
  task_index t = k ∧ l ≡ₚ t :: rest.
Proof.
  revert t rest. induction l as [|x l IH]; intros t rest; simpl; [done|].
  destruct (task_index x =? k)%nat eqn:Hx.
  - intros [= <- <-]. apply Nat.eqb_eq in Hx. done.
  - destruct (take_task k l) as [[t' rest']|]; [|done].
    intros [= <- <-]. destruct (IH t' rest' eq_refl) as [Hk Hperm].
    split; [done|]. rewrite Hperm. apply perm_swap.
Qed.

Lemma scheduleFlush_cases (batch : list LogEntry.t) (now : Z) (s : State) :
  batch ≠ [] →
  (∃ err,
     serializeNdjsonBatch stringify options batch = JS.Throw err ∧
     (scheduleFlush stringify options batch now s).2 = Some err ∧
     inflight (scheduleFlush stringify options batch now s).1 = inflight s ∧
     pendingFlushes (scheduleFlush stringify options batch now s).1
       = pendingFlushes s ∧
     flushError (scheduleFlush stringify options batch now s).1 = Some err) ∨
  (∃ body,
     serializeNdjsonBatch stringify options batch = JS.Normal body ∧
     (scheduleFlush stringify options batch now s).2 = None ∧
     inflight (scheduleFlush stringify options batch now s).1
       = (inflight s ++ [mkTask (batchIndex s) batch body now])%list ∧
     pendingFlushes (scheduleFlush stringify options batch now s).1
       = {[ batchIndex s ]} ∪ pendingFlushes s ∧
     flushError (scheduleFlush stringify options batch now s).1
       = flushError s).
Proof.
  intros Hne. unfold scheduleFlush, sendBatch_start.
  destruct batch as [|doc batch]; [done|]. simpl length. simpl Nat.eqb.
  cbv iota.
  destruct (serializeNdjsonBatch stringify options (doc :: batch))
    as [body|err]; simpl.
  - right. by exists body.
  - left. by exists err.
Qed.

Lemma tracked_scheduled (batch : list LogEntry.t) (now : Z) (s : State) :
  batch ≠ [] →
  NoDup (task_index <$> inflight s) →
  (∀ t, t ∈ inflight s → (task_index t < batchIndex s)%nat) →
  (∀ k, k ∈ pendingFlushes s ↔ k ∈ task_index <$> inflight s) →
  let s1 := (scheduleFlush stringify options batch now s).1 in
  NoDup (task_index <$> inflight s1) ∧
  (∀ t, t ∈ inflight s1 → (task_index t < batchIndex s1)%nat) ∧
  (∀ k, k ∈ pendingFlushes s1 ↔ k ∈ task_index <$> inflight s1).
Proof.
  intros Hne Hnodup Hbound Hpending s1.
  destruct (scheduleFlush_fields stringify options batch now s Hne)
    as (Hindex & _ & _).
  fold s1 in Hindex.
  destruct (scheduleFlush_cases batch now s Hne)
    as [(err & _ & _ & Hfl & Hpe & _) | (body & _ & _ & Hfl & Hpe & _)];
    fold s1 in Hfl, Hpe; rewrite Hfl, Hpe, Hindex.
  - split; [done|]. split; [|done].
    intros t Ht. specialize (Hbound t Ht). lia.
  - split; [|split].
    + rewrite fmap_app. simpl. apply NoDup_app. split; [done|]. split.
      * intros k Hk ->%list_elem_of_singleton.
        apply list_elem_of_fmap in Hk as (t & Hidx & Ht).
        specialize (Hbound t Ht). lia.
      * apply NoDup_singleton.
    + intros t [Ht | ->%list_elem_of_singleton]%elem_of_app.
      * specialize (Hbound t Ht). lia.
      * simpl. lia.
    + intros k. rewrite fmap_app, elem_of_app, elem_of_union, Hpending.
      simpl. rewrite elem_of_singleton, list_elem_of_singleton. tauto.
Qed.

Lemma tracked_live (s : State) :
  NoDup (task_index <$> inflight s) →
  (∀ t, t ∈ inflight s → (task_index t < batchIndex s)%nat) →
  (∀ k, k ∈ pendingFlushes s ↔ k ∈ task_index <$> inflight s) →
  (∀ result, phase s ≠ Ended result) →
  (phase s ≠ Accepting → pendingFlushes s ≠ ∅) →
  tracked s.
Proof.
  intros Hnodup Hbound Hpending Hlive Hwaits. unfold tracked.
  split; [done|]. split; [done|].
  destruct (phase s) as [| | |result]; try done. by destruct (Hlive result).
Qed.

Lemma tracked_transform_callback result now (s : State) :
  NoDup (task_index <$> inflight s) →
  (∀ t, t ∈ inflight s → (task_index t < batchIndex s)%nat) →
  (∀ k, k ∈ pendingFlushes s ↔ k ∈ task_index <$> inflight s) →
  tracked (transform_callback result now s).
Proof.
  intros Hnodup Hbound Hpending. destruct result as [err|].
  - unfold tracked. simpl. done.
  - by apply tracked_live.
Qed.

Lemma tracked_flush_callback result now (s : State) :
  NoDup (task_index <$> inflight s) →
  (∀ t, t ∈ inflight s → (task_index t < batchIndex s)%nat) →
  (∀ k, k ∈ pendingFlushes s ↔ k ∈ task_index <$> inflight s) →
  (result = None → pendingFlushes s = ∅) →
  tracked (flush_callback result now s).
Proof.
  intros Hnodup Hbound Hpending Hempty. destruct result as [err|].
  - unfold tracked. simpl. done.
  - unfold tracked. simpl. split; [done|]. split; [done|].
    apply elem_of_nil_inv. intros t Ht.
    assert (task_index t ∈ pendingFlushes s) as Hin.
    { apply Hpending. by apply list_elem_of_fmap_2. }
    rewrite Hempty in Hin by done. by apply elem_of_empty in Hin.
Qed.

Lemma tracked_step (s s' : State) (ev : Event) :
  tracked s → step stringify options s ev = Some s' → tracked s'.
Proof.
  intros Htracked Hstep.
  destruct ev as [chunk now|k outcome now|now]; simpl in Hstep.
  - destruct (phase s) eqn:Hphase; try discriminate. injection Hstep as <-.
    pose proof Htracked as (Hnodup & Hbound & Hpending).
    rewrite Hphase in Hpending. destruct Hpending as [Hpending _].
    unfold _transform. cbv zeta.
    destruct (batchSize options <=? _)%nat.
    + destruct (tracked_scheduled (buffer s ++ [chunk]) now
                  (set_buffer [] (set_buffer (buffer s ++ [chunk]) s)))
        as (Hn & Hb & Hp); try done.
      { by destruct (buffer s). }
      simpl buffer in *.
      destruct (scheduleFlush _ _ _ _ _) as [s3 [err|]];
        cbn [fst snd] in *.
      * by apply tracked_transform_callback.
      * destruct (size _ <? _)%nat eqn:Hslot.
        -- by apply tracked_transform_callback.
        -- apply tracked_live; try done. intros _ Hempty. simpl in Hempty.
           rewrite Hempty, size_empty in Hslot.
           apply Nat.ltb_ge in Hslot. unfold concurrency_limit in Hslot. lia.
    + by apply tracked_transform_callback.
  - destruct (take_task k (inflight s)) as [[t rest]|] eqn:Htask;
      [|discriminate].
    injection Hstep as <-.
    apply take_task_spec in Htask as [Hk Hperm].
    destruct Htracked as (Hnodup & Hbound & Hpending).
    rewrite Hperm in Hnodup. rewrite fmap_cons in Hnodup.
    apply NoDup_cons in Hnodup as [Hfresh Hnodup]. rewrite Hk in Hfresh.
    unfold settle.
    set (s3 := set_pendingFlushes _ _).
    assert (inflight s3 = rest ∧ batchIndex s3 = batchIndex s ∧
            phase s3 = phase s ∧
            pendingFlushes s3 = pendingFlushes s ∖ {[ k ]})
      as (Hfl & Hbi & Hph & Hpe).
    { subst s3. rewrite <- Hk. destruct outcome; done. }
    assert (∀ t', t' ∈ inflight s3 → (task_index t' < batchIndex s3)%nat)
      as Hb3.
    { rewrite Hfl. intros t' Ht'. rewrite Hbi. apply Hbound. rewrite Hperm.
      by apply elem_of_cons; right. }
    assert (NoDup (task_index <$> inflight s3)) as Hn3 by (by rewrite Hfl).
    assert ((∀ k', k' ∈ pendingFlushes s ↔ k' ∈ task_index <$> inflight s) →
            (∀ k', k' ∈ pendingFlushes s3 ↔ k' ∈ task_index <$> inflight s3) ∧
            k ∈ pendingFlushes s) as Hp3.
    { intros Hiff. split.
      - intros k'. rewrite Hfl, Hpe, elem_of_difference, Hiff, Hperm.
        rewrite fmap_cons, elem_of_cons, Hk, elem_of_singleton.
        split; [tauto|]. intros Hin. split; [by right|].
        intros ->. done.
      - apply Hiff. rewrite Hperm, fmap_cons, Hk.
        by apply elem_of_cons; left. }
    rewrite Hph.
    destruct (phase s) as [| | |[err0|]] eqn:Hs.
    + destruct Hpending as [Hiff _]. destruct (Hp3 Hiff) as [Hiff3 _].
      apply tracked_live; try done; by rewrite Hph.
    + destruct Hpending as [Hiff _]. destruct (Hp3 Hiff) as [Hiff3 Hin].
      rewrite bool_decide_eq_true_2 by (by rewrite Hk).
      unfold _transform_resume.
      destruct outcome; by apply tracked_transform_callback.
    + destruct Hpending as [Hiff _]. destruct (Hp3 Hiff) as [Hiff3 Hin].
      rewrite bool_decide_eq_true_2 by (by rewrite Hk).
      unfold _flush_resume. destruct outcome.
      * case_decide.
        -- by apply tracked_flush_callback.
        -- apply tracked_live; try done; by rewrite Hph.
      * by apply tracked_flush_callback.
    + unfold tracked. rewrite Hph. done.
    + rewrite Hpending in Hperm. by apply Permutation_nil_cons in Hperm.
  - destruct (phase s) eqn:Hphase; try discriminate. injection Hstep as <-.
    pose proof Htracked as (Hnodup & Hbound & Hpending).
    rewrite Hphase in Hpending. destruct Hpending as [Hpending _].
    unfold _flush.
    destruct (0 <? length (buffer s))%nat eqn:Hrest.
    + destruct (tracked_scheduled (buffer s) now (set_buffer [] s))
        as (Hn & Hb & Hp); try done.
      { intros Hnil. by rewrite Hnil in Hrest. }
      destruct (scheduleFlush _ _ _ _ _) as [s1 [err|]];
        cbn [fst snd] in *.
      * by apply tracked_flush_callback.
      * case_decide.
        -- by apply tracked_flush_callback.
        -- by apply tracked_live.
    + case_decide.
      * by apply tracked_flush_callback.
      * by apply tracked_live.
Qed.

Lemma tracked_run (evs : list Event) :
  ∀ s s', tracked s → run stringify options s evs = Some s' → tracked s'.
Proof.
  induction evs as [|ev evs IH]; intros s s' Htracked Hrun; simpl in Hrun.
  - by injection Hrun as <-.
  - destruct (step stringify options s ev) as [s1|] eqn:Hstep;
      [|discriminate].
    eapply IH; [|exact Hrun]. by eapply tracked_step.
Qed.

Lemma tracked_init (logger : option ErrorLogger.t) : tracked (init logger).
Proof.
  unfold tracked. simpl. split; [constructor|].
  split; [intros t Ht; by apply elem_of_nil in Ht|].
  split; [|done]. intros k. rewrite elem_of_empty, elem_of_nil. tauto.
Qed.

Lemma tracked_reachable (logger : option ErrorLogger.t) (s : State) :
  reachable stringify options logger s → tracked s.
Proof.
  intros [evs Hrun]. eapply tracked_run; [apply tracked_init | exact Hrun].
Qed.

(** *** Requests sent to the store *)

Lemma serializable (batch : list LogEntry.t) :
  (∀ doc, ∃ encoded, stringify doc = JS.Normal encoded) →
  ∃ body, serializeNdjsonBatch stringify options batch = JS.Normal body.
Proof.
  intros Hdocs. unfold serializeNdjsonBatch.
  assert (∃ lines, serialize_lines stringify options batch = JS.Normal lines)
    as [lines ->]; [|eauto].
  induction batch as [|doc batch [lines IH]]; simpl; [eauto|].
  destruct (Hdocs doc) as [encoded ->]. rewrite IH. eauto.
Qed.

Lemma scheduleFlush_request (batch : list LogEntry.t) (now : Z) (s : State) :
  (∀ doc, ∃ encoded, stringify doc = JS.Normal encoded) →
  batch ≠ [] →
  length (inflight (scheduleFlush stringify options batch now s).1)
    = S (length (inflight s)) ∧
  batchIndex (scheduleFlush stringify options batch now s).1
    = S (batchIndex s).
Proof.
  intros Hdocs Hne.
  destruct (scheduleFlush_fields stringify options batch now s Hne)
    as (Hindex & _ & _).
  split; [|done].
  destruct (serializable batch Hdocs) as [body Hbody].
  destruct (scheduleFlush_cases batch now s Hne)
    as [(err & Hser & _) | (body' & _ & _ & -> & _)]; [congruence|].
  rewrite length_app. simpl. lia.
Qed.

(** When every record can be encoded, each batch cut is a request sent:
    the requests answered and those still in flight are as many as the
    batches. *)
Lemma requests_step (n : nat) (s s' : State) (ev : Event) :
  (∀ doc, ∃ encoded, stringify doc = JS.Normal encoded) →
  (length (inflight s) + n = batchIndex s)%nat →
  step stringify options s ev = Some s' →
  (length (inflight s') + (if is_settle ev then S n else n)
   = batchIndex s')%nat.
Proof.
  intros Hdocs Hinv Hstep.
  destruct ev as [chunk now|k outcome now|now]; simpl in Hstep.
  - destruct (phase s); try discriminate. injection Hstep as <-.
    unfold _transform. cbv zeta. simpl is_settle. cbv iota.
    destruct (batchSize options <=? _)%nat.
    + destruct (scheduleFlush_request (buffer s ++ [chunk]) now
                  (set_buffer [] (set_buffer (buffer s ++ [chunk]) s)) Hdocs)
        as [Hfl Hbi]; [by destruct (buffer s)|].
      simpl buffer in *.
      destruct (scheduleFlush _ _ _ _ _) as [s3 result]; cbn [fst snd] in *.
      simpl in Hfl, Hbi.
      destruct result as [err|]; [|destruct (size _ <? _)%nat].
      * destruct (transform_callback_counters (Some err) now s3)
          as (_ & _ & _ & -> & ->). lia.
      * destruct (transform_callback_counters (flushError s3) now s3)
          as (_ & _ & _ & -> & ->). lia.
      * simpl. lia.
    + destruct (transform_callback_counters None now
                  (set_buffer (buffer s ++ [chunk]) s))
        as (_ & _ & _ & -> & ->). simpl. done.
  - destruct (take_task k (inflight s)) as [[t rest]|] eqn:Htask;
      [|discriminate].
    injection Hstep as <-.
    destruct (settle_counters t rest outcome now s) as (_ & _ & _ & -> & ->).
    apply take_task_spec in Htask as [_ Hperm].
    rewrite Hperm in Hinv. simpl in *. lia.
  - destruct (phase s); try discriminate. injection Hstep as <-.
    unfold _flush. simpl is_settle. cbv iota.
    destruct (0 <? length (buffer s))%nat eqn:Hrest.
    + destruct (scheduleFlush_request (buffer s) now (set_buffer [] s) Hdocs)
        as [Hfl Hbi].
      { intros Hnil. by rewrite Hnil in Hrest. }
      destruct (scheduleFlush _ _ _ _ _) as [s1 result]; cbn [fst snd] in *.
      simpl in Hfl, Hbi.
      destruct result as [err|]; [|case_decide].
      * destruct (flush_callback_counters (Some err) now s1)
          as (_ & _ & _ & -> & ->). lia.
      * destruct (flush_callback_counters (flushError s1) now s1)
          as (_ & _ & _ & -> & ->). lia.
      * simpl. lia.
    + case_decide.
      * destruct (flush_callback_counters (flushError s) now s)
          as (_ & _ & _ & -> & ->). done.
      * simpl. done.
Qed.

Lemma requests_run (evs : list Event) :
  (∀ doc, ∃ encoded, stringify doc = JS.Normal encoded) →
  ∀ n s s',
    (length (inflight s) + n = batchIndex s)%nat →
    run stringify options s evs = Some s' →
    (length (inflight s') + (n + settled evs) = batchIndex s')%nat.
Proof.
  intros Hdocs. induction evs as [|ev evs IH]; intros n s s' Hinv Hrun;
    simpl in Hrun.
  - injection Hrun as <-. unfold settled. simpl. by rewrite Nat.add_0_r.
  - destruct (step stringify options s ev) as [s1|] eqn:Hstep;
      [|discriminate].
    pose proof (requests_step n s s1 ev Hdocs Hinv Hstep) as Hinv1.
    specialize (IH _ _ _ Hinv1 Hrun).
    unfold settled in *. simpl.
    destruct (is_settle ev); simpl in *; lia.
Qed.

(** *** The latch and the result of the run *)

Lemma failed_step (s s' : State) (ev : Event) :
  failed s → step stringify options s ev = Some s' → failed s'.
Proof.
  intros [Hlatch Hended] Hstep.
  assert (is_Some (flushError s')) as Hlatch'.
  { destruct (flushError_step s s' ev Hstep) as [-> | (err & _ & ->)]; eauto. }
  split; [done|]. intros result Hphase.
  destruct (ended_result s s' ev result Hstep Hphase) as [Hbefore | ->];
    eauto.
Qed.

Lemma failed_run (evs : list Event) :
  ∀ s s', failed s → run stringify options s evs = Some s' → failed s'.
Proof.
  induction evs as [|ev evs IH]; intros s s' Hfailed Hrun; simpl in Hrun.
  - by injection Hrun as <-.
  - destruct (step stringify options s ev) as [s1|] eqn:Hstep;
      [|discriminate].
    eapply IH; [|exact Hrun]. by eapply failed_step.
Qed.

Lemma failed_with_step (err : JS.Error) (s s' : State) (ev : Event) :
  (∀ doc, ∃ encoded, stringify doc = JS.Normal encoded) →
  resolves ev →
  failed_with err s → step stringify options s ev = Some s' →
  failed_with err s'.
Proof.
  intros Hdocs Hquiet [Hlatch Hended] Hstep.
  assert (flushError s' = Some err) as Hlatch'.
  { destruct (flushError_step s s' ev Hstep) as [-> | (err' & Hfail & _)];
      [done|].
    destruct ev as [chunk now|k [response|e] now|now]; simpl in Hfail, Hquiet;
      try done.
    - destruct (serializable (buffer s ++ [chunk]) Hdocs) as [body Hbody].
      congruence.
    - destruct (serializable (buffer s) Hdocs) as [body Hbody]. congruence. }
  split; [done|]. intros result Hphase.
  destruct (ended_result s s' ev result Hstep Hphase) as [Hbefore | ->];
    eauto.
Qed.

Lemma failed_with_run (err : JS.Error) (evs : list Event) :
  (∀ doc, ∃ encoded, stringify doc = JS.Normal encoded) →
  Forall resolves evs →
  ∀ s s', failed_with err s → run stringify options s evs = Some s' →
          failed_with err s'.
Proof.
  intros Hdocs Hquiet.
  induction Hquiet as [|ev evs Hev _ IH]; intros s s' Hfailed Hrun;
    simpl in Hrun.
  - by injection Hrun as <-.
  - destruct (step stringify options s ev) as [s1|] eqn:Hstep;
      [|discriminate].
    eapply IH; [|exact Hrun]. by eapply failed_with_step.
Qed.

(** The state right after the request of a batch was rejected. *)
Lemma settle_rejected t rest err now (s : State) :
  let s' := settle t rest (JS.Rejected err) now s in
  flushError s' = Some err ∧
  (phase s' = phase s ∨ phase s' = Ended (Some err)) ∧
  (∀ lg, errorLogger s = Some lg →
     ∃ lg' later,
       errorLogger s' = Some lg' ∧
       ErrorLogger.allEntries lg' =
         (ErrorLogger.allEntries lg ++
          connection_entry now (task_index t) err :: later)%list).
Proof.
  unfold settle.
  set (s3 := set_pendingFlushes _ _).
  assert (flushError s3 = Some err ∧ phase s3 = phase s) as [Hlatch Hphase].
  { done. }
  assert (∀ lg, errorLogger s = Some lg →
            ∃ lg3, errorLogger s3 = Some lg3 ∧
                   ErrorLogger.allEntries lg3 =
                     (ErrorLogger.allEntries lg ++
                      [connection_entry now (task_index t) err])%list)
    as Hlog.
  { intros lg Hlg. subst s3. simpl. rewrite Hlg. simpl.
    eexists. split; [reflexivity|].
    unfold ErrorLogger.logConnectionError. apply allEntries_log. }
  assert (∀ s4,
            flushError s4 = Some err →
            (phase s4 = phase s ∨ phase s4 = Ended (Some err)) →
            (∀ lg3, errorLogger s3 = Some lg3 →
               ∃ lg4 extra, errorLogger s4 = Some lg4 ∧
                 ErrorLogger.allEntries lg4 =
                   (ErrorLogger.allEntries lg3 ++ extra)%list) →
            flushError s4 = Some err ∧
            (phase s4 = phase s ∨ phase s4 = Ended (Some err)) ∧
            ∀ lg, errorLogger s = Some lg →
              ∃ lg' later,
                errorLogger s4 = Some lg' ∧
                ErrorLogger.allEntries lg' =
                  (ErrorLogger.allEntries lg ++
                   connection_entry now (task_index t) err :: later)%list)
    as Hfinish.
  { intros s4 H4 Hp4 Hl4. split; [done|]. split; [done|].
    intros lg Hlg. destruct (Hlog lg Hlg) as (lg3 & Hlg3 & Hentries3).
    destruct (Hl4 lg3 Hlg3) as (lg4 & extra & Hlg4 & Hentries4).
    exists lg4, extra. split; [done|].
    rewrite Hentries4, Hentries3, <- app_assoc. reflexivity. }
  assert (∀ lg3, errorLogger s3 = Some lg3 →
            ∃ lg4 extra, errorLogger s3 = Some lg4 ∧
              ErrorLogger.allEntries lg4 =
                (ErrorLogger.allEntries lg3 ++ extra)%list) as Hsame.
  { intros lg3 Hlg3. exists lg3, []. by rewrite app_nil_r. }
  cbv zeta. rewrite Hphase.
  destruct (phase s) eqn:Hs; try (apply Hfinish; by eauto);
    (destruct (bool_decide _); [|apply Hfinish; by eauto]).
  - unfold _transform_resume. apply Hfinish.
    + by destruct (callback_flushError (Some err) now s3) as [-> _].
    + destruct (callback_phase (Some err) now s3) as [-> _]. by right.
    + apply callback_logger.
  - unfold _flush_resume. apply Hfinish.
    + by destruct (callback_flushError (Some err) now s3) as [_ ->].
    + destruct (callback_phase (Some err) now s3) as [_ ->]. by right.
    + apply callback_logger.
Qed.

Lemma closing_step (s s' : State) (ev : Event) :
  closing s ∨ is_end ev = true →
  step stringify options s ev = Some s' → closing s'.
Proof.
  intros Hclosing Hstep.
  destruct ev as [chunk now|k outcome now|now]; simpl in Hstep.
  - destruct Hclosing as [[Hacc _] | ?]; [|done].
    destruct (phase s); try discriminate. done.
  - destruct Hclosing as [[Hacc Hwait] | ?]; [|done].
    destruct (take_task k (inflight s)) as [[t rest]|]; [|discriminate].
    injection Hstep as <-.
    destruct (settle_phase t rest outcome now s) as [_ Hphase].
    unfold closing. destruct (phase s); try done.
    + destruct Hphase as [-> | [result ->]]; done.
    + rewrite Hphase. done.
  - destruct (phase s); try discriminate. injection Hstep as <-.
    unfold closing, _flush.
    destruct (if (0 <? length (buffer s))%nat then _ else _)
      as [s1 [err|]].
    + by destruct (callback_phase (Some err) now s1) as [_ ->].
    + case_decide; [|done].
      by destruct (callback_phase (flushError s1) now s1) as [_ ->].
Qed.

Lemma closing_run (evs : list Event) :
  ∀ s s',
    closing s ∨ drained evs = true →
    run stringify options s evs = Some s' → closing s'.
Proof.
  induction evs as [|ev evs IH]; intros s s' Hclosing Hrun; simpl in Hrun.
  - injection Hrun as <-. by destruct Hclosing.
  - destruct (step stringify options s ev) as [s1|] eqn:Hstep;
      [|discriminate].
    apply (IH s1 s'); [|done].
    unfold drained in Hclosing. simpl in Hclosing.
    destruct (is_end ev) eqn:Hend.
    + left. eapply closing_step; [|exact Hstep]. by right.
    + destruct Hclosing as [Hclosing | Hdrained].
      * left. eapply closing_step; [|exact Hstep]. by left.
      * by right.
Qed.

Lemma drained_run_app (evs1 evs2 : list Event) :
  drained (evs1 ++ evs2) = drained evs1 || drained evs2.
Proof. unfold drained. apply existsb_app. Qed.

(** A draining stream whose requests have all settled has ended. *)
Lemma drain_returns (s : State) :
  tracked s → closing s → inflight s = [] → ∃ result, phase s = Ended result.
Proof.
  intros (_ & _ & Hpending) [Hacc Hwait] Hnone.
  destruct (phase s) as [| | |result] eqn:Hphase; try done; [|eauto].
  destruct Hpending as [Hiff Hwaits].
  destruct Hwaits; [done|].
  apply set_eq. intros k. rewrite Hiff, Hnone, elem_of_empty.
  simpl. apply elem_of_nil.
Qed.

(** C3 (as amended). When the request of a batch fails, nothing is
    credited for the batch: [totalInserted], every counter of the metrics
    (the batch count among them) and the progress events stay as they were.
    An error logger, when one is configured, receives a connection entry
    for the batch.  The error is latched in [flushError].  A [_transform]
    or [_flush] waiting for the request ends the stream with the error at
    once; otherwise the drain, once every request has settled, has ended
    the stream with an error: from the failure on, the run can only end
    with an error, and it ends with this very error if the stream was still
    live and no later request fails. *)
Theorem C3_transport_failure (logger : option ErrorLogger.t)
    (history : list Event) (s s' : State) (k : nat) (t : Task)
    (rest : list Task) (err : JS.Error) (now : Z) :
  run stringify options (init logger) history = Some s →
  take_task k (inflight s) = Some (t, rest) →
  step stringify options s (Settle k (JS.Rejected err) now) = Some s' →
  (totalInserted s' = totalInserted s ∧
   metrics s' = metrics s ∧
   pushed s' = pushed s) ∧
  (∀ lg, errorLogger s = Some lg →
     ∃ lg' later,
       errorLogger s' = Some lg' ∧
       ErrorLogger.allEntries lg' =
         (ErrorLogger.allEntries lg ++
          connection_entry now k err :: later)%list ∧
       ErrorLogger.errorType (connection_entry now k err)
         = ErrorLogger.connection) ∧
  flushError s' = Some err ∧
  (phase s = AwaitingSlot ∨ phase s = Draining →
   phase s' = Ended (Some err)) ∧
  (∀ evs s'' result,
     run stringify options s' evs = Some s'' →
     phase s'' = Ended result →
     is_Some result ∧
     ((∀ r, phase s ≠ Ended r) →
      (∀ doc, ∃ encoded, stringify doc = JS.Normal encoded) →
      Forall resolves evs →
      result = Some err)) ∧
  (∀ evs s'',
     run stringify options s' evs = Some s'' →
     drained (history ++ evs) = true →
     inflight s'' = [] →
     ∃ failure, phase s'' = Ended (Some failure)).
Proof.
  intros Hhistory Htask Hstep.
  assert (reachable stringify options logger s) as Hreach
    by (by exists history).
  pose proof (tracked_reachable logger s Hreach) as Htracked.
  assert (tracked s') as Htracked' by (by eapply tracked_step).
  pose proof Hstep as Hstep'.
  simpl in Hstep. rewrite Htask in Hstep. injection Hstep as <-.
  destruct (settle_counters t rest (JS.Rejected err) now s)
    as (Htotal & Hmetrics & Hpushed & _).
  destruct (settle_rejected t rest err now s) as (Hlatch & Hphase & Hlog).
  pose proof (take_task_spec _ _ _ _ Htask) as [Hk Hperm].
  assert (phase s ≠ Ended None) as Hnot_done.
  { intros Hdone. destruct Htracked as (_ & _ & Hnone).
    rewrite Hdone in Hnone. rewrite Hnone in Hperm.
    by apply Permutation_nil_cons in Hperm. }
  assert (failed (settle t rest (JS.Rejected err) now s)) as Hfailed.
  { split; [by rewrite Hlatch|]. intros r Hr.
    destruct Hphase as [Hsame | Hnew].
    - rewrite Hsame in Hr. destruct r; [eauto|]. by destruct Hnot_done.
    - rewrite Hnew in Hr. injection Hr as <-. eauto. }
  split; [done|]. split; [|split; [done|]]; [|split; [|split]].
  - intros lg Hlg. destruct (Hlog lg Hlg) as (lg' & later & Hlg' & Hentries).
    exists lg', later. rewrite <- Hk. done.
  - intros Hwaiting.
    assert (k ∈ pendingFlushes s) as Hin.
    { destruct Htracked as (_ & _ & Hpending).
      assert (k ∈ task_index <$> inflight s) as Hidx.
      { rewrite Hperm, fmap_cons, Hk. by apply elem_of_cons; left. }
      destruct Hwaiting as [Hw | Hw]; rewrite Hw in Hpending;
        by apply Hpending. }
    unfold settle. rewrite Hk, bool_decide_eq_true_2 by done.
    destruct Hwaiting as [Hw | Hw]; simpl; rewrite Hw; done.
  - intros evs s'' result Hrun Hended. split.
    + destruct (failed_run evs _ _ Hfailed Hrun) as [_ Hresult].
      by apply Hresult.
    + intros Hlive Hdocs Hquiet.
      assert (failed_with err (settle t rest (JS.Rejected err) now s))
        as Hfailed_with.
      { split; [done|]. intros r Hr.
        destruct Hphase as [Hsame | Hnew].
        - rewrite Hsame in Hr. by destruct (Hlive r).
        - rewrite Hnew in Hr. by injection Hr as <-. }
      destruct (failed_with_run err evs Hdocs Hquiet _ _ Hfailed_with Hrun)
        as [_ Hresult].
      by apply Hresult.
  - intros evs s'' Hrun Hdrained Hnone.
    assert (closing s'') as Hclosing.
    { rewrite drained_run_app in Hdrained.
      apply orb_true_iff in Hdrained as [Hbefore | Hafter].
      - eapply closing_run; [|exact Hrun]. left.
        eapply closing_step; [|exact Hstep']. left.
        eapply closing_run; [|exact Hhistory]. by right.
      - eapply closing_run; [|exact Hrun]. by right. }
    destruct (drain_returns s'') as [result Hresult]; try done.
    { by eapply tracked_run. }
    destruct (failed_run evs _ _ Hfailed Hrun) as [_ Hsome].
    destruct (Hsome result Hresult) as [failure ->]. eauto.
Qed.


(** *** A store that keeps up *)

Lemma write_phase (chunk : LogEntry.t) (now : Z) (s : State) :
  phase (_transform stringify options chunk now s) = Accepting ∨
  phase (_transform stringify options chunk now s) = AwaitingSlot ∨
  ∃ err,
    phase (_transform stringify options chunk now s) = Ended (Some err) ∧
    flushError (_transform stringify options chunk now s) = Some err.
Proof.
  unfold _transform. cbv zeta.
  destruct (batchSize options <=? _)%nat; [|by left].
  destruct (scheduleFlush _ _ _ _ _) as [s3 [err|]].
  - right. right. exists err. done.
  - destruct (size _ <? _)%nat; [|right; by left].
    destruct (flushError s3) as [err|] eqn:Hlatch.
    + right. right. exists err. done.
    + by left.
Qed.

Lemma ready_write (log : LogEntry.t) (s : State) :
  (∀ doc, ∃ encoded, stringify doc = JS.Normal encoded) →
  ready s →
  let s1 := _transform stringify options log 0 s in
  step stringify options s (Write log 0) = Some s1 ∧
  flushError s1 = None ∧ tracked s1 ∧
  (phase s1 = Accepting ∨ phase s1 = AwaitingSlot).
Proof.
  intros Hdocs (Hphase & Hlatch & Htracked) s1.
  assert (step stringify options s (Write log 0) = Some s1) as Hstep.
  { simpl. by rewrite Hphase. }
  assert (flushError s1 = None) as Hlatch1.
  { destruct (flushError_step s s1 _ Hstep) as [-> | (err & Hfail & _)];
      [done|].
    simpl in Hfail.
    destruct (serializable (buffer s ++ [log]) Hdocs) as [body Hbody].
    congruence. }
  split; [done|]. split; [done|]. split; [by eapply tracked_step|].
  destruct (write_phase log 0 s) as [? | [? | (err & _ & Herr)]]; eauto.
  fold s1 in Herr. congruence.
Qed.

Lemma ready_acknowledged (t : Task) (others : list Task) (s : State) :
  phase s = AwaitingSlot → flushError s = None → tracked s →
  inflight s = t :: others →
  step stringify options s
    (Settle (task_index t) (JS.Resolved (acknowledge_all t)) 0)
    = Some (settle t others (JS.Resolved (acknowledge_all t)) 0 s) ∧
  ready (settle t others (JS.Resolved (acknowledge_all t)) 0 s).
Proof.
  intros Hphase Hlatch Htracked Hinflight.
  assert (step stringify options s
            (Settle (task_index t) (JS.Resolved (acknowledge_all t)) 0)
          = Some (settle t others (JS.Resolved (acknowledge_all t)) 0 s))
    as Hstep.
  { simpl. rewrite Hinflight. simpl. by rewrite Nat.eqb_refl. }
  split; [done|].
  pose proof (tracked_step _ _ _ Htracked Hstep) as Htracked'.
  split; [|split; [|done]].
  - destruct Htracked as (_ & _ & Hpending). rewrite Hphase in Hpending.
    destruct Hpending as [Hiff _].
    unfold settle. rewrite bool_decide_eq_true_2.
    + simpl. rewrite Hphase. simpl. by rewrite Hlatch.
    + apply Hiff. rewrite Hinflight, fmap_cons. by apply elem_of_cons; left.
  - destruct (flushError_step s _ _ Hstep) as [-> | (err & Hfail & _)]; done.
Qed.

(** With a store that keeps up and records that can be encoded, every
    record is accepted: the run of [accept_all] is a run of the uploader,
    it writes all the records and leaves the stream ready for the drain. *)
Lemma accept_all_run (logs : list LogEntry.t) :
  (∀ doc, ∃ encoded, stringify doc = JS.Normal encoded) →
  ∀ s, ready s →
    run stringify options s (accept_all stringify options logs s).1
      = Some (accept_all stringify options logs s).2 ∧
    writes (accept_all stringify options logs s).1 = length logs ∧
    drained (accept_all stringify options logs s).1 = false ∧
    ready (accept_all stringify options logs s).2.
Proof.
  intros Hdocs. induction logs as [|log logs IH]; intros s Hready; [done|].
  destruct (ready_write log s Hdocs Hready)
    as (Hstep & Hlatch & Htracked & Hphase).
  cbn [accept_all]. cbv zeta.
  set (s1 := _transform stringify options log 0 s) in *.
  destruct Hphase as [Hphase | Hphase]; rewrite Hphase.
  - destruct (IH s1) as (Hrun & Hwrites & Hdrained & Hready1); [done|].
    destruct (accept_all stringify options logs s1) as [evs s2].
    cbn [fst snd] in *. cbn [run]. rewrite Hstep.
    unfold writes, drained in *. simpl. rewrite Hwrites. done.
  - destruct (inflight s1) as [|t others] eqn:Hinflight.
    { destruct Htracked as (_ & _ & Hpending). rewrite Hphase in Hpending.
      destruct Hpending as [Hiff Hwaits]. destruct Hwaits; [done|].
      apply set_eq. intros k. rewrite Hiff, Hinflight, elem_of_empty.
      simpl. apply elem_of_nil. }
    destruct (ready_acknowledged t others s1 Hphase Hlatch Htracked Hinflight)
      as [Hsettle Hready1].
    destruct (IH _ Hready1) as (Hrun & Hwrites & Hdrained & Hready2).
    destruct (accept_all stringify options logs _) as [evs s2].
    cbn [fst snd] in *. cbn [run]. rewrite Hstep. cbn [run].
    rewrite Hsettle.
    unfold writes, drained in *. simpl. rewrite Hwrites. done.
Qed.

(** Hence, for every list of records, some run accepts them all and
    is then drained. *)
Lemma accepting_run_exists (logger : option ErrorLogger.t)
    (logs : list LogEntry.t) :
  (∀ doc, ∃ encoded, stringify doc = JS.Normal encoded) →
  ∃ evs s,
    run stringify options (init logger) evs = Some s ∧
    writes evs = length logs ∧
    drained evs = true.
Proof.
  intros Hdocs.
  assert (ready (init logger)) as Hready.
  { split; [done|]. split; [done|]. apply tracked_init. }
  destruct (accept_all_run logs Hdocs _ Hready)
    as (Hrun & Hwrites & _ & (Hphase & _)).
  exists ((accept_all stringify options logs (init logger)).1
            ++ [End_ 0])%list.
  exists (_flush stringify options 0
            (accept_all stringify options logs (init logger)).2).
  split; [|split].
  - assert (∀ evs1 evs2 s0 s1,
              run stringify options s0 evs1 = Some s1 →
              run stringify options s0 (evs1 ++ evs2)%list
                = run stringify options s1 evs2) as Happ.
    { induction evs1 as [|ev evs1 IHe]; intros evs2 s0 s1 H0; simpl in *.
      - by injection H0 as <-.
      - destruct (step stringify options s0 ev); [by apply IHe | done]. }
    rewrite (Happ _ _ _ _ Hrun). simpl. by rewrite Hphase.
  - unfold writes in *. rewrite List.filter_app, length_app, Hwrites.
    simpl. lia.
  - rewrite drained_run_app. simpl. apply orb_true_r.
Qed.

(** C2. With a batch size of at least one, whenever [N] records have been
    accepted and the drain has started, the batches dispatched (the calls
    of [sendBatch], which number the batches) are [ceil (N / batchSize)]:
    this holds at every later moment of the run, whatever the store
    answers.  When every record can be encoded, these batches are the
    requests sent to the store, answered or still in flight, and for every
    [N] there is such a run. *)
Theorem C2_batch_count (logger : option ErrorLogger.t) :
  (1 ≤ batchSize options)%nat →
  (∀ evs s,
     run stringify options (init logger) evs = Some s →
     drained evs = true →
     batchIndex s = ceil_div (writes evs) (batchSize options) ∧
     ((∀ doc, ∃ encoded, stringify doc = JS.Normal encoded) →
      (settled evs + length (inflight s))%nat
        = ceil_div (writes evs) (batchSize options))) ∧
  ((∀ doc, ∃ encoded, stringify doc = JS.Normal encoded) →
   ∀ logs : list LogEntry.t,
     ∃ evs s,
       run stringify options (init logger) evs = Some s ∧
       writes evs = length logs ∧
       drained evs = true).
Proof.
  intros Hsize. split.
  - intros evs s Hrun Hdrained.
    assert (batching options 0 false (init logger)) as Hinit.
    { unfold batching. simpl. lia. }
    pose proof (batching_run stringify options evs Hsize 0%nat false _ _
                  Hinit Hrun) as Hfinal.
    simpl in Hfinal. rewrite Hdrained in Hfinal.
    destruct Hfinal as [Hcount _].
    split; [exact Hcount|]. intros Hdocs.
    pose proof (requests_run evs Hdocs 0%nat (init logger) s eq_refl Hrun)
      as Hrequests.
    simpl in Hrequests. lia.
  - intros Hdocs logs. by apply accepting_run_exists.
Qed.


End Failures.

(** ** Sample runs *)

Section SampleRuns.

Import BulkInsert.

Lemma C2_batch_count_witness :
  (batchIndex <$>
     run Fixtures.stringify_id (Fixtures.options 2 None) (init None)
       Samples.five_records) = Some 3%nat ∧
  writes Samples.five_records = 5%nat.
Proof.
  split; [|reflexivity].
  destruct (run Fixtures.stringify_id (Fixtures.options 2 None) (init None)
              Samples.five_records) as [s|] eqn:Hrun;
    [|vm_compute in Hrun; discriminate].
  simpl. f_equal.
  assert (1 ≤ batchSize (Fixtures.options 2 None))%nat as Hsize
    by (simpl; lia).
  exact (proj1 (proj1 (C2_batch_count Fixtures.stringify_id
                         (Fixtures.options 2 None) None Hsize)
                  Samples.five_records s Hrun eq_refl)).
Defined.

Lemma C3_transport_failure_witness :
  let s := Samples.before_failure in
  let s' := Samples.after_failure in
  totalInserted s' = totalInserted s ∧
  metrics s' = metrics s ∧
  flushError s' = Some Fixtures.networkError.
Proof.
  intros s s'.
  assert (run Fixtures.stringify_id (Fixtures.options 2 (Some 2%nat))
            (init (Some Fixtures.logger)) Samples.two_batches = Some s)
    as Hhistory by (vm_compute; reflexivity).
  destruct (take_task 1 (inflight s)) as [[t rest]|] eqn:Htask;
    [|vm_compute in Htask; discriminate].
  assert (step Fixtures.stringify_id (Fixtures.options 2 (Some 2%nat)) s
            (Settle 1 (JS.Rejected Fixtures.networkError) 11) = Some s')
    as Hstep by (vm_compute; reflexivity).
  destruct (C3_transport_failure Fixtures.stringify_id
              (Fixtures.options 2 (Some 2%nat)) (Some Fixtures.logger)
              Samples.two_batches s s' 1%nat t rest Fixtures.networkError 11
              Hhistory Htask Hstep)
    as ((Htotal & Hmetrics & _) & _ & Hlatch & _).
  split; [exact Htotal|]. split; [exact Hmetrics | exact Hlatch].
Defined.

(** C3 (as stated) fails in a run without error logger in which two
    requests fail during the drain: the second request, still in flight,
    fails with a timeout; no error sink receives an entry, and the stream
    has ended with the first failure, not with this one. *)
Lemma C3_unlogged_second_failure_counterexample :
  (task_index <$> inflight Samples.both_sent) = [1%nat] ∧
  step Fixtures.stringify_id (Fixtures.options 1 (Some 3%nat))
    Samples.both_sent (Settle 1 (JS.Rejected Samples.timeoutError) 4)
    = Some Samples.both_failed ∧
  errorLogger Samples.both_failed = None ∧
  flushError Samples.both_failed = Some Samples.timeoutError ∧
  phase Samples.both_failed = Ended (Some Fixtures.networkError) ∧
  Fixtures.networkError ≠ Samples.timeoutError.
Proof. repeat split; try (vm_compute; reflexivity). discriminate. Qed.



End SampleRuns.

(** ** Bulk uploader: what every run keeps *)

Section UploaderSteps.

Import BulkInsert.

Variable stringify : LogEntry.t → JS.completion string.
Variable options : BulkInsertOptions.

Lemma pending_size (s : State) :
  NoDup (task_index <$> inflight s) →
  (∀ k, k ∈ pendingFlushes s ↔ k ∈ task_index <$> inflight s) →
  size (pendingFlushes s) = length (inflight s).
Proof.
  intros Hdup Hiff.
  assert (pendingFlushes s = list_to_set (task_index <$> inflight s)) as ->.
  { apply set_eq. intros k. rewrite elem_of_list_to_set. apply Hiff. }
  rewrite size_list_to_set by done. by rewrite length_fmap.
Qed.

(** What [_transform] does to each field. *)
Lemma write_cases (chunk : LogEntry.t) (now : Z) (s : State) :
  let s' := _transform stringify options chunk now s in
  (metrics s' = metrics s ∧ totalInserted s' = totalInserted s ∧
   pushed s' = pushed s) ∧
  (((length (buffer s) + 1 < batchSize options)%nat ∧
    buffer s' = (buffer s ++ [chunk])%list ∧
    inflight s' = inflight s ∧ batchIndex s' = batchIndex s ∧
    phase s' = Accepting ∧ flushError s' = flushError s ∧
    pendingFlushes s' = pendingFlushes s) ∨
   ((batchSize options ≤ length (buffer s) + 1)%nat ∧
    buffer s' = [] ∧ batchIndex s' = S (batchIndex s) ∧
    ((∃ err,
        serializeNdjsonBatch stringify options (buffer s ++ [chunk])
          = JS.Throw err ∧
        inflight s' = inflight s ∧ phase s' = Ended (Some err) ∧
        flushError s' = Some err) ∨
     (∃ body,
        serializeNdjsonBatch stringify options (buffer s ++ [chunk])
          = JS.Normal body ∧
        inflight s' =
          (inflight s ++
           [mkTask (batchIndex s) (buffer s ++ [chunk]) body now])%list ∧
        flushError s' = flushError s ∧
        phase s' =
          if (size ({[ batchIndex s ]} ∪ pendingFlushes s)
                <? concurrency_limit options)%nat
          then match flushError s with
               | Some err => Ended (Some err)
               | None => Accepting
               end
          else AwaitingSlot)))).
Proof.
  intros s'. subst s'. unfold _transform. cbv zeta. simpl buffer.
  rewrite length_app. simpl length.
  destruct (batchSize options <=? length (buffer s) + 1)%nat eqn:Hfull.
  - apply Nat.leb_le in Hfull.
    set (s2 := set_buffer [] (set_buffer (buffer s ++ [chunk]) s)).
    assert (buffer s ++ [chunk] ≠ [])%list as Hne by (by destruct (buffer s)).
    destruct (scheduleFlush_fields stringify options (buffer s ++ [chunk])
                now s2 Hne) as (Hindex & Hbuffer & _).
    assert (metrics (scheduleFlush stringify options (buffer s ++ [chunk])
                       now s2).1 = metrics s ∧
            totalInserted (scheduleFlush stringify options
                             (buffer s ++ [chunk]) now s2).1
              = totalInserted s ∧
            pushed (scheduleFlush stringify options (buffer s ++ [chunk])
                      now s2).1 = pushed s) as Hcounters.
    { unfold scheduleFlush, sendBatch_start.
      destruct (length _ =? 0)%nat; [done|].
      destruct (serializeNdjsonBatch _ _ _); done. }
    destruct (scheduleFlush_cases stringify options (buffer s ++ [chunk])
                now s2 Hne)
      as [(err & Hser & Hres & Hin & Hpend & Hlatch) |
          (body & Hser & Hres & Hin & Hpend & Hlatch)];
      destruct (scheduleFlush _ _ _ _ _) as [s3 result];
      cbn [fst snd] in *; subst result.
    + destruct (transform_callback_counters (Some err) now s3)
        as (-> & -> & -> & -> & ->).
      split; [done|]. right. split; [done|].
      split; [done|]. split; [by rewrite Hindex|].
      left. exists err. by rewrite Hin.
    + simpl in Hpend, Hlatch, Hin, Hindex, Hbuffer.
      rewrite Hpend.
      destruct (size _ <? _)%nat.
      * destruct (transform_callback_counters (flushError s3) now s3)
          as (-> & -> & -> & -> & ->).
        split; [done|]. right. split; [done|].
        split; [by rewrite Hlatch; destruct (flushError s)|].
        split; [by rewrite Hindex|].
        right. exists body. rewrite Hin, Hlatch.
        by destruct (flushError s).
      * simpl. split; [done|]. right. split; [done|].
        split; [done|]. split; [done|].
        right. exists body. by rewrite Hin, Hlatch.
  - apply Nat.leb_gt in Hfull. split; [done|]. left. done.
Qed.

(** What [_flush] does to each field. *)
Lemma end_cases (now : Z) (s : State) :
  let s' := _flush stringify options now s in
  (metrics s' = metrics s ∧ totalInserted s' = totalInserted s ∧
   pushed s' = pushed s) ∧
  buffer s' = [] ∧
  ((buffer s = [] ∧ inflight s' = inflight s ∧
    batchIndex s' = batchIndex s ∧ flushError s' = flushError s ∧
    phase s' =
      if decide (pendingFlushes s = ∅) then Ended (flushError s)
      else Draining) ∨
   (buffer s ≠ [] ∧ batchIndex s' = S (batchIndex s) ∧
    ((∃ err,
        serializeNdjsonBatch stringify options (buffer s) = JS.Throw err ∧
        inflight s' = inflight s ∧ phase s' = Ended (Some err) ∧
        flushError s' = Some err) ∨
     (∃ body,
        serializeNdjsonBatch stringify options (buffer s) = JS.Normal body ∧
        inflight s' =
          (inflight s ++ [mkTask (batchIndex s) (buffer s) body now])%list ∧
        flushError s' = flushError s ∧ phase s' = Draining)))).
Proof.
  intros s'. subst s'. unfold _flush.
  destruct (0 <? length (buffer s))%nat eqn:Hrest.
  - assert (buffer s ≠ []) as Hne.
    { intros Hnil. by rewrite Hnil in Hrest. }
    destruct (scheduleFlush_fields stringify options (buffer s) now
                (set_buffer [] s) Hne) as (Hindex & Hbuffer & Hphase).
    assert (metrics (scheduleFlush stringify options (buffer s) now
                       (set_buffer [] s)).1 = metrics s ∧
            totalInserted (scheduleFlush stringify options (buffer s) now
                             (set_buffer [] s)).1 = totalInserted s ∧
            pushed (scheduleFlush stringify options (buffer s) now
                      (set_buffer [] s)).1 = pushed s) as Hcounters.
    { unfold scheduleFlush, sendBatch_start.
      destruct (length _ =? 0)%nat; [done|].
      destruct (serializeNdjsonBatch _ _ _); done. }
    destruct (scheduleFlush_cases stringify options (buffer s) now
                (set_buffer [] s) Hne)
      as [(err & Hser & Hres & Hin & Hpend & Hlatch) |
          (body & Hser & Hres & Hin & Hpend & Hlatch)];
      destruct (scheduleFlush _ _ _ _ _) as [s1 result];
      cbn [fst snd] in *; subst result.
    + destruct (flush_callback_counters (Some err) now s1)
        as (-> & -> & -> & -> & ->).
      split; [done|]. split; [done|]. right. split; [done|].
      split; [by rewrite Hindex|]. left. exists err. by rewrite Hin.
    + simpl in Hpend, Hlatch, Hin, Hindex, Hbuffer.
      case_decide as Hempty.
      { exfalso. rewrite Hpend in Hempty.
        assert (batchIndex s ∈ ({[ batchIndex s ]} ∪ pendingFlushes s
                                : gset nat)) as Hin'
          by (apply elem_of_union; left; by apply elem_of_singleton).
        rewrite Hempty in Hin'. by apply elem_of_empty in Hin'. }
      simpl. split; [done|]. split; [done|]. right. split; [done|].
      split; [done|]. right. exists body. by rewrite Hin, Hlatch.
  - assert (buffer s = []) as Hnil.
    { destruct (buffer s); [done|discriminate]. }
    case_decide.
    + destruct (flush_callback_counters (flushError s) now s)
        as (-> & -> & -> & -> & ->).
      split; [done|]. split; [by destruct (flushError s)|].
      left. split; [done|]. split; [done|]. split; [done|].
      destruct (callback_flushError (flushError s) now s) as [_ ->].
      destruct (callback_phase (flushError s) now s) as [_ ->].
      by destruct (flushError s).
    + simpl. split; [done|]. split; [done|]. left. done.
Qed.

(** What the settlement of a request does to the latch and the buffer. *)
Lemma settle_latch t rest outcome now (s : State) :
  flushError (settle t rest outcome now s) =
    match outcome with
    | JS.Rejected err => Some err
    | JS.Resolved _ => flushError s
    end ∧
  (buffer (settle t rest outcome now s) = buffer s ∨
   buffer (settle t rest outcome now s) = []).
Proof.
  unfold settle.
  set (s3 := set_pendingFlushes _ _).
  assert (flushError s3 =
            match outcome with
            | JS.Rejected err => Some err
            | JS.Resolved _ => flushError s
            end ∧ buffer s3 = buffer s) as [Hlatch Hbuffer].
  { subst s3. destruct outcome; done. }
  destruct (phase s3); [by rewrite Hlatch, Hbuffer; auto| | |
                        by rewrite Hlatch, Hbuffer; auto];
    (destruct (bool_decide (task_index t ∈ pendingFlushes s));
     [|by rewrite Hlatch, Hbuffer; auto]).
  - unfold _transform_resume, transform_callback.
    destruct outcome; [destruct (flushError s3) eqn:Hs3|]; simpl;
      rewrite <- ?Hlatch, ?Hs3, ?Hbuffer; auto.
  - unfold _flush_resume, flush_callback.
    destruct outcome; [case_decide; [destruct (flushError s3) eqn:Hs3|]|];
      simpl; rewrite <- ?Hlatch, ?Hs3, ?Hbuffer; auto.
Qed.

End UploaderSteps.

Section UploaderBounds.

Import BulkInsert.

Variable stringify : LogEntry.t → JS.completion string.
Variable options : BulkInsertOptions.

Lemma within_limit_step (s s' : State) (ev : Event) :
  tracked s → within_limit options s →
  step stringify options s ev = Some s' →
  within_limit options s'.
Proof.
  intros Htracked [Hle Hfree] Hstep. unfold within_limit.
  assert (1 ≤ concurrency_limit options)%nat as Hone
    by (unfold concurrency_limit; lia).
  destruct ev as [chunk now|k outcome now|now]; simpl in Hstep.
  - destruct (phase s) eqn:Hphase; try discriminate. injection Hstep as <-.
    specialize (Hfree eq_refl).
    assert (tracked (_transform stringify options chunk now s)) as Htracked'.
    { apply (tracked_step stringify options s _ (Write chunk now) Htracked).
      simpl. by rewrite Hphase. }
    destruct (write_cases stringify options chunk now s)
      as (_ & [(_ & _ & -> & _ & _) |
               (_ & _ & _ & [(err & _ & -> & -> & _) |
                             (body & _ & Hin & _ & Hph)])]).
    + split; [lia|done].
    + split; [lia|done].
    + rewrite Hin, length_app. simpl. split; [lia|].
      intros Hacc.
      destruct Htracked' as (Hnodup & _ & Hpending).
      rewrite Hacc in Hpending. destruct Hpending as [Hiff _].
      pose proof (pending_size _ Hnodup Hiff) as Hsize.
      rewrite Hin, length_app in Hsize. simpl in Hsize.
      destruct Htracked as (Hnodup0 & Hbound0 & Hpending0).
      rewrite Hphase in Hpending0. destruct Hpending0 as [Hiff0 _].
      pose proof (pending_size _ Hnodup0 Hiff0) as Hsize0.
      assert (batchIndex s ∉ pendingFlushes s) as Hfresh.
      { intros Hin0. apply Hiff0 in Hin0.
        apply list_elem_of_fmap in Hin0 as (t & Heq & Ht).
        apply Hbound0 in Ht. lia. }
      rewrite size_union in Hph by (by apply disjoint_singleton_l).
      rewrite size_singleton, Hsize0 in Hph.
      destruct (1 + length (inflight s) <? concurrency_limit options)%nat
        eqn:Hslot.
      * apply Nat.ltb_lt in Hslot. lia.
      * rewrite Hph in Hacc. discriminate.
  - destruct (take_task k (inflight s)) as [[t rest]|] eqn:Htask;
      [|discriminate].
    injection Hstep as <-.
    destruct (settle_counters t rest outcome now s) as (_ & _ & _ & _ & ->).
    apply take_task_spec in Htask as [_ Hperm].
    rewrite Hperm in Hle. simpl in Hle. split; lia.
  - destruct (phase s) eqn:Hphase; try discriminate. injection Hstep as <-.
    specialize (Hfree eq_refl).
    destruct (end_cases stringify options now s)
      as (_ & _ & [(_ & -> & _ & _ & Hph) |
                   (_ & _ & [(err & _ & -> & Hph & _) |
                             (body & _ & -> & _ & Hph)])]).
    + split; [lia|]. rewrite Hph. by case_decide.
    + split; [lia|]. by rewrite Hph.
    + rewrite length_app. simpl. split; [lia|]. by rewrite Hph.
Qed.

Lemma within_limit_run (evs : list Event) :
  ∀ s s', tracked s → within_limit options s →
          run stringify options s evs = Some s' →
          within_limit options s'.
Proof.
  induction evs as [|ev evs IH]; intros s s' Htracked Hinv Hrun.
  - by injection Hrun as <-.
  - simpl in Hrun.
    destruct (step stringify options s ev) as [s1|] eqn:Hstep;
      [|discriminate].
    apply (IH s1); [by eapply tracked_step|by eapply within_limit_step|done].
Qed.

(** X1: however the store is scheduled, the requests in flight never
    outnumber [concurrency] (at least one); and whenever the stream is
    ready for the next record, one more request can be sent without
    exceeding it. *)
Theorem X1_requests_within_limit (logger : option ErrorLogger.t)
    (evs : list Event) (s : State) :
  run stringify options (init logger) evs = Some s →
  (length (inflight s) ≤ Nat.max 1 (default 1%nat (concurrency options)))%nat ∧
  (phase s = Accepting →
   (length (inflight s) < Nat.max 1 (default 1%nat (concurrency options)))%nat).
Proof.
  intros Hrun.
  apply (within_limit_run evs (init logger) s); [apply tracked_init| |done].
  split; simpl; [lia|]. intros _. unfold concurrency_limit. lia.
Qed.

Lemma buffer_bound_step (s s' : State) (ev : Event) :
  (1 ≤ batchSize options)%nat →
  (length (buffer s) < batchSize options)%nat →
  step stringify options s ev = Some s' →
  (length (buffer s') < batchSize options)%nat.
Proof.
  intros Hsize Hinv Hstep.
  destruct ev as [chunk now|k outcome now|now]; simpl in Hstep.
  - destruct (phase s); try discriminate. injection Hstep as <-.
    destruct (write_cases stringify options chunk now s)
      as (_ & [(Hlt & -> & _) | (_ & -> & _)]).
    + rewrite length_app. simpl. lia.
    + simpl. lia.
  - destruct (take_task k (inflight s)) as [[t rest]|]; [|discriminate].
    injection Hstep as <-.
    destruct (settle_latch t rest outcome now s) as [_ [-> | ->]];
      simpl; lia.
  - destruct (phase s); try discriminate. injection Hstep as <-.
    destruct (end_cases stringify options now s) as (_ & -> & _).
    simpl. lia.
Qed.

(** X2: with a batch size of at least one, the buffer always holds fewer
    than [batchSize] records between two events: a full batch is cut in
    the very write that completes it. *)
Theorem X2_buffer_below_batch_size (logger : option ErrorLogger.t)
    (evs : list Event) (s : State) :
  (1 ≤ batchSize options)%nat →
  run stringify options (init logger) evs = Some s →
  (length (buffer s) < batchSize options)%nat.
Proof.
  intros Hsize.
  assert (∀ s0, (length (buffer s0) < batchSize options)%nat →
                run stringify options s0 evs = Some s →
                (length (buffer s) < batchSize options)%nat) as Hgen.
  { induction evs as [|ev evs IH]; intros s0 Hinv Hrun.
    - by injection Hrun as <-.
    - simpl in Hrun.
      destruct (step stringify options s0 ev) as [s1|] eqn:Hstep;
        [|discriminate].
      apply (IH s1); [by eapply buffer_bound_step|done]. }
  apply Hgen. simpl. lia.
Qed.

End UploaderBounds.

Section UploaderOrder.

Import BulkInsert.

Variable stringify : LogEntry.t → JS.completion string.
Variable options : BulkInsertOptions.

Lemma written_app (evs1 evs2 : list Event) :
  written (evs1 ++ evs2) = (written evs1 ++ written evs2)%list.
Proof. unfold written. by rewrite omap_app. Qed.

Lemma slice_full (k : nat) (records : list LogEntry.t) (chunk : LogEntry.t) :
  (S k * batchSize options ≤ length records)%nat →
  slice options k (records ++ [chunk]) = slice options k records.
Proof.
  intros Hfull. unfold slice.
  rewrite drop_app_le by lia.
  rewrite take_app_le; [done|]. rewrite length_drop. lia.
Qed.

Lemma sliced_step (records : list LogEntry.t) (ended : bool) (s s' : State)
    (ev : Event) :
  (1 ≤ batchSize options)%nat →
  sliced stringify options records ended s →
  step stringify options s ev = Some s' →
  sliced stringify options (records ++ written [ev]) (ended || is_end ev) s'.
Proof.
  intros Hsize [Htasks Hbuffer] Hstep.
  destruct ev as [chunk now|k outcome now|now]; simpl in Hstep.
  - (* Write *)
    destruct (phase s) eqn:Hphase; try discriminate. injection Hstep as <-.
    destruct ended; [by destruct Hbuffer|].
    destruct (Hbuffer (or_introl eq_refl)) as (Hbuf & Hle & Hlt).
    assert (batchIndex s * batchSize options + length (buffer s)
            = length records)%nat as Hlen.
    { rewrite Hbuf, length_drop. lia. }
    assert (∀ t, t ∈ inflight s →
              task_batch t = slice options (task_index t) (records ++ [chunk]) ∧
              task_batch t ≠ [] ∧
              serializeNdjsonBatch stringify options (task_batch t)
                = JS.Normal (task_body t) ∧
              (false = false →
               (S (task_index t) * batchSize options
                ≤ length (records ++ [chunk]))%nat)) as Hold.
    { intros t Ht. destruct (Htasks t Ht) as (Hslice & Hne & Hbody & Hfull).
      specialize (Hfull eq_refl).
      rewrite slice_full by done. rewrite length_app. simpl.
      repeat split; try done. lia. }
    simpl. unfold sliced. simpl orb. cbv iota.
    destruct (write_cases stringify options chunk now s)
      as (_ & [(Hroom & -> & -> & -> & -> & _) |
               (Hcut & -> & -> & [(err & _ & -> & -> & _) |
                                  (body & Hser & -> & _ & Hph)])]).
    + split; [done|]. intros _.
      rewrite Hbuf at 1. rewrite drop_app_le by lia.
      split; [done|]. rewrite !length_app. simpl. lia.
    + split; [done|]. by intros [|].
    + assert (buffer s ++ [chunk]
              = slice options (batchIndex s) (records ++ [chunk]))%list
        as Hnew.
      { unfold slice. rewrite drop_app_le by lia. rewrite <- Hbuf.
        rewrite take_ge; [done|]. rewrite length_app. simpl. lia. }
      split.
      * intros t [Ht | ->%list_elem_of_singleton]%elem_of_app;
          [by apply Hold|].
        simpl. split; [done|]. split; [by destruct (buffer s)|].
        split; [done|]. intros _. rewrite length_app. simpl. lia.
      * intros _. rewrite length_app. simpl.
        split; [|lia]. rewrite drop_ge; [done|].
        rewrite length_app. simpl. lia.
  - (* Settle *)
    destruct (take_task k (inflight s)) as [[t rest]|] eqn:Htask;
      [|discriminate].
    injection Hstep as <-. simpl. rewrite app_nil_r, orb_false_r.
    destruct (settle_counters t rest outcome now s) as (_ & _ & _ & _ & Hin).
    destruct (settle_phase t rest outcome now s) as [Hindex Hphase].
    apply take_task_spec in Htask as [_ Hperm].
    split.
    + intros t' Ht'. rewrite Hin in Ht'. apply Htasks. rewrite Hperm.
      by apply elem_of_cons; right.
    + destruct ended.
      * destruct Hbuffer as [Hacc Hwait].
        destruct (phase s); try done.
        -- destruct Hphase as [-> | [result ->]]; done.
        -- rewrite Hphase. done.
      * rewrite Hindex. destruct (phase s); try done.
        -- destruct Hphase as [_ ->]. intros _. by apply Hbuffer; left.
        -- destruct Hphase as [[_ ->] | [err ->]].
           ++ intros _. by apply Hbuffer; right.
           ++ by intros [|].
        -- destruct Hphase as [-> | [result ->]]; by intros [|].
        -- rewrite Hphase. by intros [|].
  - (* End_ *)
    destruct (phase s) eqn:Hphase; try discriminate. injection Hstep as <-.
    destruct ended; [by destruct Hbuffer|].
    destruct (Hbuffer (or_introl eq_refl)) as (Hbuf & Hle & Hlt).
    simpl. rewrite app_nil_r.
    assert (closing (_flush stringify options now s)) as Hclosing.
    { apply (closing_step stringify options s _ (End_ now)); [by right|].
      simpl. by rewrite Hphase. }
    split; [|exact Hclosing].
    assert (∀ t, t ∈ inflight s →
              task_batch t = slice options (task_index t) records ∧
              task_batch t ≠ [] ∧
              serializeNdjsonBatch stringify options (task_batch t)
                = JS.Normal (task_body t) ∧
              (true = false →
               (S (task_index t) * batchSize options ≤ length records)%nat))
      as Hold.
    { intros t Ht. destruct (Htasks t Ht) as (? & ? & ? & _). done. }
    destruct (end_cases stringify options now s)
      as (_ & _ & [(_ & -> & _) |
                   (Hne & _ & [(err & _ & -> & _) |
                               (body & Hser & -> & _)])]);
      try done.
    intros t [Ht | ->%list_elem_of_singleton]%elem_of_app; [by apply Hold|].
    simpl. split; [|done].
    unfold slice. rewrite <- Hbuf. rewrite take_ge; [done|lia].
Qed.

Lemma sliced_run (evs : list Event) :
  (1 ≤ batchSize options)%nat →
  ∀ records ended s s',
    sliced stringify options records ended s →
    run stringify options s evs = Some s' →
    sliced stringify options (records ++ written evs)
      (ended || drained evs) s'.
Proof.
  intros Hsize. induction evs as [|ev evs IH];
    intros records ended s s' Hinv Hrun.
  - injection Hrun as <-. simpl. by rewrite app_nil_r, orb_false_r.
  - simpl in Hrun.
    destruct (step stringify options s ev) as [s1|] eqn:Hstep;
      [|discriminate].
    pose proof (sliced_step records ended s s1 ev Hsize Hinv Hstep) as Hinv1.
    specialize (IH _ _ _ _ Hinv1 Hrun).
    change (ev :: evs) with ([ev] ++ evs)%list.
    rewrite written_app, app_assoc.
    unfold drained in *. simpl existsb. by rewrite orb_assoc.
Qed.

Lemma sliced_init (logger : option ErrorLogger.t) :
  (1 ≤ batchSize options)%nat →
  sliced stringify options [] false (init logger).
Proof.
  intros Hsize. split.
  - intros t Ht. by apply elem_of_nil in Ht.
  - intros _. simpl. split; [done|lia].
Qed.

(** X3: the records leave in the order they were written, each in exactly
    one request: request number [k] carries the records at the positions
    [k * batchSize], ..., [(k + 1) * batchSize - 1] of the written sequence
    (fewer for the last one, never none), encoded by
    [serializeNdjsonBatch]; and while the stream takes records, the buffer
    holds exactly the records after the batches cut so far. *)
Theorem X3_batches_are_consecutive_slices (logger : option ErrorLogger.t)
    (evs : list Event) (s : State) :
  (1 ≤ batchSize options)%nat →
  run stringify options (init logger) evs = Some s →
  (∀ t, t ∈ inflight s →
     task_batch t =
       take (batchSize options)
         (drop (task_index t * batchSize options) (written evs)) ∧
     task_batch t ≠ [] ∧
     serializeNdjsonBatch stringify options (task_batch t)
       = JS.Normal (task_body t)) ∧
  (phase s = Accepting ∨ phase s = AwaitingSlot →
   buffer s = drop (batchIndex s * batchSize options) (written evs) ∧
   written evs =
     (take (batchIndex s * batchSize options) (written evs) ++ buffer s)%list).
Proof.
  intros Hsize Hrun.
  pose proof (sliced_run evs Hsize [] false (init logger) s
                (sliced_init logger Hsize) Hrun) as [Htasks Hbuffer].
  simpl in Htasks, Hbuffer. split.
  - intros t Ht. destruct (Htasks t Ht) as (? & ? & ? & _). done.
  - intros Hlive. destruct (drained evs).
    + destruct Hbuffer as [? ?]. by destruct Hlive.
    + destruct (Hbuffer Hlive) as (Hbuf & _). split; [done|].
      rewrite Hbuf. by rewrite take_drop.
Qed.

End UploaderOrder.

Section UploaderCounters.

Import BulkInsert.

Variable stringify : LogEntry.t → JS.completion string.
Variable options : BulkInsertOptions.

Lemma credited_app (l1 l2 : list ProgressData) :
  credited (l1 ++ l2) = credited l1 + credited l2.
Proof.
  unfold credited. induction l1 as [|p l1 IH]; simpl; [done|].
  rewrite IH. lia.
Qed.

Lemma counted_step (n : nat) (s s' : State) (ev : Event) :
  counted n s →
  step stringify options s ev = Some s' →
  counted (if is_resolved ev then S n else n) s'.
Proof.
  intros (Hmetrics & Hsum & Hbatches & Hn & Htotals) Hstep.
  destruct ev as [chunk now|k outcome now|now]; simpl in Hstep.
  - destruct (phase s); try discriminate. injection Hstep as <-.
    destruct (write_cases stringify options chunk now s)
      as ((Hm & Ht & Hp) & _).
    unfold counted. rewrite Hm, Ht, Hp. done.
  - destruct (take_task k (inflight s)) as [[t rest]|]; [|discriminate].
    injection Hstep as <-.
    destruct (settle_counters t rest outcome now s) as (Ht & Hm & Hp & _).
    unfold counted. rewrite Ht, Hm, Hp.
    destruct outcome as [response|err]; [|done].
    simpl. rewrite credited_app, length_app. simpl.
    split; [lia|]. split; [lia|]. split; [lia|]. split; [lia|].
    intros i p Hi.
    destruct (decide (i < length (pushed s))%nat) as [Hlt|Hge].
    + rewrite lookup_app_l in Hi by done.
      rewrite take_app_le by lia. by apply Htotals.
    + rewrite lookup_app_r in Hi by lia.
      apply list_lookup_singleton_Some in Hi as [Hi <-].
      rewrite take_ge by (rewrite length_app; simpl; lia).
      rewrite credited_app. simpl. lia.
  - destruct (phase s); try discriminate. injection Hstep as <-.
    destruct (end_cases stringify options now s) as ((Hm & Ht & Hp) & _).
    unfold counted. rewrite Hm, Ht, Hp. done.
Qed.

Lemma counted_run (evs : list Event) :
  ∀ n s s',
    counted n s →
    run stringify options s evs = Some s' →
    counted (n + responses evs) s'.
Proof.
  induction evs as [|ev evs IH]; intros n s s' Hinv Hrun.
  - injection Hrun as <-. unfold responses. simpl. by rewrite Nat.add_0_r.
  - simpl in Hrun.
    destruct (step stringify options s ev) as [s1|] eqn:Hstep;
      [|discriminate].
    pose proof (IH _ _ _ (counted_step n s s1 ev Hinv Hstep) Hrun) as Hinv'.
    unfold responses in *. simpl.
    destruct (is_resolved ev); simpl in *; [|done].
    by replace (n + S (length (List.filter is_resolved evs)))%nat
      with (S n + length (List.filter is_resolved evs))%nat by lia.
Qed.

(** X4: at every moment of every run the counters agree: the running
    total of the stream, the total of its metrics and the sum of the
    credits of the progress events are the same number; the metrics count
    one batch per response of the store (a failed request counts for
    none) and there is one progress event per batch; and every progress
    event reports the sum of the credits up to and including its own. *)
Theorem X4_counters_agree (logger : option ErrorLogger.t)
    (evs : list Event) (s : State) :
  run stringify options (init logger) evs = Some s →
  getTotalInserted s = BulkInsertMetrics.totalInserted (getMetrics s) ∧
  getTotalInserted s = credited (pushed s) ∧
  BulkInsertMetrics.batches (getMetrics s) = length (pushed s) ∧
  BulkInsertMetrics.batches (getMetrics s) = responses evs ∧
  ∀ i p, pushed s !! i = Some p → total p = credited (take (S i) (pushed s)).
Proof.
  intros Hrun.
  apply (counted_run evs 0 (init logger) s); [|done].
  repeat split. intros i p Hi. simpl in Hi. by rewrite lookup_nil in Hi.
Qed.

Lemma timed_step (s s' : State) (ev : Event) :
  timed s → step stringify options s ev = Some s' → timed s'.
Proof.
  intros [Hmax Htotal] Hstep.
  destruct ev as [chunk now|k outcome now|now]; simpl in Hstep.
  - destruct (phase s); try discriminate. injection Hstep as <-.
    destruct (write_cases stringify options chunk now s) as ((Hm & _) & _).
    unfold timed. by rewrite Hm.
  - destruct (take_task k (inflight s)) as [[t rest]|]; [|discriminate].
    injection Hstep as <-.
    destruct (settle_counters t rest outcome now s) as (_ & Hm & _).
    unfold timed. rewrite Hm.
    destruct outcome as [response|err]; [|done].
    simpl. split; [lia|]. nia.
  - destruct (phase s); try discriminate. injection Hstep as <-.
    destruct (end_cases stringify options now s) as ((Hm & _) & _).
    unfold timed. by rewrite Hm.
Qed.

Lemma sized_step (records : list LogEntry.t) (ended : bool) (s s' : State)
    (ev : Event) :
  sliced stringify options records ended s →
  sized options s → step stringify options s ev = Some s' →
  sized options s'.
Proof.
  intros [Htasks _] Hinv Hstep.
  destruct ev as [chunk now|k outcome now|now]; simpl in Hstep.
  - destruct (phase s); try discriminate. injection Hstep as <-.
    destruct (write_cases stringify options chunk now s) as ((Hm & _) & _).
    unfold sized. by rewrite Hm.
  - destruct (take_task k (inflight s)) as [[t rest]|] eqn:Htask;
      [|discriminate].
    injection Hstep as <-.
    destruct (settle_counters t rest outcome now s) as (_ & Hm & _).
    unfold sized. rewrite Hm.
    destruct outcome as [response|err]; [|done].
    apply take_task_spec in Htask as [_ Hperm].
    destruct (Htasks t) as (Hslice & _).
    { rewrite Hperm. by apply elem_of_cons; left. }
    assert (length (task_batch t) ≤ batchSize options)%nat as Hlen.
    { rewrite Hslice. unfold slice. rewrite length_take. lia. }
    unfold sized in Hinv. simpl. lia.
  - destruct (phase s); try discriminate. injection Hstep as <-.
    destruct (end_cases stringify options now s) as ((Hm & _) & _).
    unfold sized. by rewrite Hm.
Qed.

Lemma timed_run (evs : list Event) :
  ∀ s s', timed s → run stringify options s evs = Some s' → timed s'.
Proof.
  induction evs as [|ev evs IH]; intros s s' Hinv Hrun.
  - by injection Hrun as <-.
  - simpl in Hrun.
    destruct (step stringify options s ev) as [s1|] eqn:Hstep;
      [|discriminate].
    apply (IH s1); [by eapply timed_step|done].
Qed.

Lemma sized_run (evs : list Event) :
  (1 ≤ batchSize options)%nat →
  ∀ records ended s s',
    sliced stringify options records ended s →
    sized options s → run stringify options s evs = Some s' →
    sized options s'.
Proof.
  intros Hsize.
  induction evs as [|ev evs IH]; intros records ended s s' Hsl Hinv Hrun.
  - by injection Hrun as <-.
  - simpl in Hrun.
    destruct (step stringify options s ev) as [s1|] eqn:Hstep;
      [|discriminate].
    apply (IH _ _ s1 s' (sliced_step stringify options records ended s s1 ev
                           Hsize Hsl Hstep));
      [by eapply sized_step|done].
Qed.

Lemma average_bound (sum bound : Z) (n : nat) :
  0 ≤ bound → sum ≤ Z.of_nat n * bound →
  ((if (n =? 0)%nat then 0 else inject_Z sum / inject_Z (Z.of_nat n))
   <= inject_Z bound)%Q.
Proof.
  intros Hbound Hsum.
  destruct (n =? 0)%nat eqn:Hn.
  - change 0%Q with (inject_Z 0). by rewrite <- Zle_Qle.
  - apply Nat.eqb_neq in Hn.
    apply Qle_shift_div_r.
    + change 0%Q with (inject_Z 0). rewrite <- Zlt_Qlt. lia.
    + rewrite <- inject_Z_mult, <- Zle_Qle. lia.
Qed.

(** X5: the averages reported by [getMetrics] are bounded by what they
    average: the average duration of a batch never exceeds the longest
    duration recorded (which is never negative), and with a batch size of
    at least one the average number of records credited per batch never
    exceeds [batchSize]. *)
Theorem X5_averages_bounded (logger : option ErrorLogger.t)
    (evs : list Event) (s : State) :
  run stringify options (init logger) evs = Some s →
  0 ≤ BulkInsertMetrics.maxBatchDurationMs (getMetrics s) ∧
  (BulkInsertMetrics.averageBatchDurationMs (getMetrics s)
   <= inject_Z (BulkInsertMetrics.maxBatchDurationMs (getMetrics s)))%Q ∧
  ((1 ≤ batchSize options)%nat →
   (BulkInsertMetrics.averageBatchSize (getMetrics s)
    <= inject_Z (Z.of_nat (batchSize options)))%Q).
Proof.
  intros Hrun.
  assert (timed (init logger)) as Htimed0 by (split; simpl; lia).
  destruct (timed_run evs _ _ Htimed0 Hrun) as [Hmax Htotal].
  split; [done|]. split.
  - simpl. by apply average_bound.
  - intros Hsize. simpl. apply average_bound; [lia|].
    apply (sized_run evs Hsize [] false (init logger) s);
      [by apply sliced_init| |done].
    unfold sized. simpl. lia.
Qed.

End UploaderCounters.

Section UploaderAccounting.

Import BulkInsert.

Variable stringify : LogEntry.t → JS.completion string.
Variable options : BulkInsertOptions.

Lemma idle_buffer_step (s s' : State) (ev : Event) :
  idle_buffer s → step stringify options s ev = Some s' → idle_buffer s'.
Proof.
  intros Hinv Hstep. unfold idle_buffer.
  destruct ev as [chunk now|k outcome now|now]; simpl in Hstep.
  - destruct (phase s); try discriminate. injection Hstep as <-.
    destruct (write_cases stringify options chunk now s)
      as (_ & [(_ & _ & _ & _ & -> & _) | (_ & -> & _)]); done.
  - destruct (take_task k (inflight s)) as [[t rest]|]; [|discriminate].
    injection Hstep as <-.
    destruct (settle_phase t rest outcome now s) as [_ Hphase].
    destruct (settle_latch t rest outcome now s) as [_ Hbuffer].
    destruct (phase s) eqn:Hs.
    + by destruct Hphase as [-> _].
    + intros _. destruct Hbuffer as [-> | ->];
        [apply Hinv; by rewrite Hs|done].
    + intros _. destruct Hbuffer as [-> | ->];
        [apply Hinv; by rewrite Hs|done].
    + intros _. destruct Hbuffer as [-> | ->];
        [apply Hinv; by rewrite Hs|done].
  - destruct (phase s); try discriminate. injection Hstep as <-.
    by destruct (end_cases stringify options now s) as (_ & -> & _).
Qed.

Lemma dispatched_app (l1 l2 : list Task) :
  dispatched (l1 ++ l2) = (dispatched l1 + dispatched l2)%nat.
Proof.
  unfold dispatched. induction l1 as [|t l1 IH]; simpl; [done|].
  rewrite IH. lia.
Qed.

Lemma take_task_dispatched (k : nat) (l : list Task) (t : Task)
    (rest : list Task) :
  take_task k l = Some (t, rest) →
  dispatched l = (length (task_batch t) + dispatched rest)%nat ∧
  length l = S (length rest).
Proof.
  revert t rest. induction l as [|t0 l IH]; intros t rest Htask;
    [discriminate|].
  simpl in Htask. destruct (task_index t0 =? k)%nat.
  - by injection Htask as <- <-.
  - destruct (take_task k l) as [[t' rest']|]; [|discriminate].
    injection Htask as <- <-.
    destruct (IH t' rest' eq_refl) as [Hsum Hlen].
    unfold dispatched in *. simpl. rewrite Hsum, Hlen. lia.
Qed.

Lemma accounted_step (n : nat) (s s' : State) (ev : Event) :
  idle_buffer s → accounted n s →
  step stringify options s ev = Some s' →
  accounted (if is_write ev then S n else n) s'.
Proof.
  intros Hidle Hinv Hstep Hclean.
  destruct ev as [chunk now|k outcome now|now]; simpl in Hstep.
  - destruct (phase s); try discriminate. injection Hstep as <-.
    destruct (write_cases stringify options chunk now s)
      as ((Hm & _) & [(_ & Hb & Hin & Hbi & _ & Hlatch & _) |
                      (_ & Hb & Hbi & [(err & _ & _ & _ & Hlatch) |
                                       (body & _ & Hin & Hlatch & _)])]);
      rewrite Hlatch in Hclean; try discriminate;
      destruct (Hinv Hclean) as [Hrequests Hrecords];
      rewrite Hm, Hb, Hin, Hbi; simpl.
    + rewrite length_app. simpl. split; [done|]. lia.
    + rewrite length_app, dispatched_app. simpl.
      rewrite length_app in *. simpl. split; lia.
  - destruct (take_task k (inflight s)) as [[t rest]|] eqn:Htask;
      [|discriminate].
    injection Hstep as <-.
    destruct (settle_latch t rest outcome now s) as [Hlatch Hbuffer].
    rewrite Hlatch in Hclean.
    destruct outcome as [response|err]; [|discriminate].
    destruct (Hinv Hclean) as [Hrequests Hrecords].
    destruct (settle_counters t rest (JS.Resolved response) now s)
      as (_ & Hm & _ & Hbi & Hin).
    destruct (take_task_dispatched _ _ _ _ Htask) as [Hsum Hlen].
    assert (length (buffer (settle t rest (JS.Resolved response) now s))
            = length (buffer s)) as Hb.
    { destruct (settle_phase t rest (JS.Resolved response) now s)
        as [_ Hphase].
      destruct Hbuffer as [Hsame | Hnil]; [by rewrite Hsame|].
      destruct (phase s) eqn:Hs;
        [by destruct Hphase as [_ ->]| | |];
        rewrite Hnil, Hidle; try done; by rewrite Hs. }
    rewrite Hm, Hbi, Hin, Hb. simpl.
    rewrite Hsum, Hlen in *.
    destruct (0 <? length (failed_items response))%nat eqn:Hfailing.
    + split; lia.
    + apply Nat.ltb_ge in Hfailing. split; lia.
  - destruct (phase s); try discriminate. injection Hstep as <-.
    destruct (end_cases stringify options now s)
      as ((Hm & _) & Hb & [(Hnil & Hin & Hbi & Hlatch & _) |
                           (_ & Hbi & [(err & _ & _ & _ & Hlatch) |
                                       (body & _ & Hin & Hlatch & _)])]);
      rewrite Hlatch in Hclean; try discriminate;
      destruct (Hinv Hclean) as [Hrequests Hrecords];
      rewrite Hm, Hb, Hin, Hbi; simpl.
    + rewrite Hnil in Hrecords. simpl in Hrecords. split; [done|]. lia.
    + rewrite length_app, dispatched_app. simpl. split; lia.
Qed.

Lemma open_until_drained_step (ended : bool) (s s' : State) (ev : Event) :
  tracked s → open_until_drained ended s →
  step stringify options s ev = Some s' →
  open_until_drained (ended || is_end ev) s'.
Proof.
  intros Htracked [Hopen Hclean] Hstep. split.
  - intros Hnot. apply orb_false_elim in Hnot as [-> Hev].
    destruct (Hopen eq_refl) as [Hdrain Hend].
    destruct ev as [chunk now|k outcome now|now]; [| |discriminate];
      simpl in Hstep.
    + destruct (phase s); try discriminate. injection Hstep as <-.
      destruct (write_phase stringify options chunk now s)
        as [-> | [-> | (err & -> & _)]]; done.
    + destruct (take_task k (inflight s)) as [[t rest]|]; [|discriminate].
      injection Hstep as <-.
      destruct (settle_phase t rest outcome now s) as [_ Hphase].
      destruct (phase s) as [| | |result]; try done.
      * by destruct Hphase as [-> _].
      * destruct Hphase as [[[-> | ->] _] | [err ->]]; done.
      * rewrite Hphase. done.
  - intros Hended.
    destruct (ended_result stringify options s s' ev None Hstep Hended)
      as [Hbefore | Hlatch]; [|done].
    exfalso. destruct Htracked as (_ & _ & Hnone).
    rewrite Hbefore in Hnone.
    destruct ev as [chunk now|k outcome now|now]; simpl in Hstep.
    + by rewrite Hbefore in Hstep.
    + by rewrite Hnone in Hstep.
    + by rewrite Hbefore in Hstep.
Qed.

Lemma accounting_run (evs : list Event) :
  ∀ n ended s s',
    tracked s → idle_buffer s → accounted n s →
    open_until_drained ended s →
    run stringify options s evs = Some s' →
    accounted (n + writes evs) s' ∧
    open_until_drained (ended || drained evs) s' ∧
    idle_buffer s'.
Proof.
  induction evs as [|ev evs IH];
    intros n ended s s' Htracked Hidle Hacc Hopen Hrun.
  - injection Hrun as <-. unfold writes, drained. simpl.
    by rewrite Nat.add_0_r, orb_false_r.
  - simpl in Hrun.
    destruct (step stringify options s ev) as [s1|] eqn:Hstep;
      [|discriminate].
    destruct (IH _ _ s1 s'
                (tracked_step stringify options s s1 ev Htracked Hstep)
                (idle_buffer_step s s1 ev Hidle Hstep)
                (accounted_step n s s1 ev Hidle Hacc Hstep)
                (open_until_drained_step ended s s1 ev Htracked Hopen Hstep)
                Hrun) as (Hacc' & Hopen' & Hidle').
    unfold writes, drained in *. simpl.
    rewrite orb_assoc. split; [|done].
    destruct (is_write ev); simpl; [|done].
    by replace (n + S (length (List.filter is_write evs)))%nat
      with (S n + length (List.filter is_write evs))%nat by lia.
Qed.

Lemma clean_end (logger : option ErrorLogger.t) (evs : list Event)
    (s : State) :
  run stringify options (init logger) evs = Some s →
  accounted (writes evs) s ∧
  (phase s = Ended None →
   drained evs = true ∧ flushError s = None ∧
   inflight s = [] ∧ buffer s = [] ∧
   Counters.totalInserted (metrics s) +
     Z.of_nat (Counters.failedDocuments (metrics s))
     = Z.of_nat (writes evs) ∧
   ((1 ≤ batchSize options)%nat →
    Counters.batches (metrics s)
      = ceil_div (writes evs) (batchSize options))).
Proof.
  intros Hrun.
  assert (accounted 0 (init logger)) as Hacc0.
  { intros _. simpl. split; lia. }
  assert (open_until_drained false (init logger)) as Hopen0 by done.
  assert (idle_buffer (init logger)) as Hidle0 by done.
  destruct (accounting_run evs 0 false (init logger) s (tracked_init logger)
              Hidle0 Hacc0 Hopen0 Hrun)
    as (Hacc & [Hopen Hclean] & Hidle).
  simpl in Hacc, Hopen. split; [exact Hacc|].
  intros Hended.
  pose proof (tracked_run stringify options evs _ _ (tracked_init logger)
                Hrun) as (_ & _ & Hnone).
  rewrite Hended in Hnone.
  assert (drained evs = true) as Hdrained.
  { destruct (drained evs); [done|].
    destruct (Hopen eq_refl) as [_ Hnot]. done. }
  specialize (Hclean Hended).
  destruct (Hacc Hclean) as [Hrequests Hrecords].
  assert (buffer s = []) as Hnil by (apply Hidle; by rewrite Hended).
  rewrite Hnone, Hnil in *. simpl in Hrequests, Hrecords.
  repeat split; try done.
  - unfold dispatched in Hrecords. simpl in Hrecords. lia.
  - intros Hsize.
    pose proof (batching_run stringify options evs Hsize 0 false
                  (init logger) s) as Hbatching.
    simpl in Hbatching. rewrite Hdrained in Hbatching.
    destruct Hbatching as (Hindex & _); [|done|].
    + simpl. lia.
    + rewrite <- Hindex. lia.
Qed.

(** X6: no record is lost or counted twice.  While no failure is latched,
    every request sent so far has been answered or is in flight, and
    every record written so far is credited, counted as failed, on its way
    in a request, or in the buffer.  So when a run ends without error, it
    was drained, nothing is in flight or buffered, the batches counted are
    the records divided by the batch size, rounded up, and the credited
    and the failed records add up to the records written. *)
Theorem X6_every_record_accounted (logger : option ErrorLogger.t)
    (evs : list Event) (s : State) :
  run stringify options (init logger) evs = Some s →
  (flushError s = None →
   (BulkInsertMetrics.batches (getMetrics s) + length (inflight s)
    = batchIndex s)%nat ∧
   BulkInsertMetrics.totalInserted (getMetrics s) +
     Z.of_nat (BulkInsertMetrics.failedDocuments (getMetrics s)) +
     Z.of_nat (dispatched (inflight s)) + Z.of_nat (length (buffer s))
     = Z.of_nat (writes evs)) ∧
  (phase s = Ended None →
   drained evs = true ∧ flushError s = None ∧
   inflight s = [] ∧ buffer s = [] ∧
   BulkInsertMetrics.totalInserted (getMetrics s) +
     Z.of_nat (BulkInsertMetrics.failedDocuments (getMetrics s))
     = Z.of_nat (writes evs) ∧
   ((1 ≤ batchSize options)%nat →
    BulkInsertMetrics.batches (getMetrics s)
      = ceil_div (writes evs) (batchSize options))).
Proof.
  intros Hrun. exact (clean_end logger evs s Hrun).
Qed.

Lemma serialize_lines_throws (pre post : list LogEntry.t) (doc : LogEntry.t)
    (err : JS.Error) :
  Forall (λ d, ∃ encoded, stringify d = JS.Normal encoded) pre →
  stringify doc = JS.Throw err →
  serializeNdjsonBatch stringify options (pre ++ doc :: post) = JS.Throw err.
Proof.
  intros Hpre Hdoc. unfold serializeNdjsonBatch.
  assert (serialize_lines stringify options (pre ++ doc :: post)
          = JS.Throw err) as ->; [|done].
  induction Hpre as [|d pre [encoded Hd] _ IH]; simpl.
  - by rewrite Hdoc.
  - by rewrite Hd, IH.
Qed.

(** X7: a record that cannot be encoded fails the stream without a
    request.  When a write completes a batch in which some record makes
    [JSON.stringify] throw (the records before it being encodable), the
    batch takes its index but no request is sent and no counter moves; the
    error is latched and the write ends the stream with it; and an error
    logger, when there is one, receives a serialization entry that names
    the batch and carries the first record of the batch (whichever record
    failed), followed by a stream entry. *)
Theorem X7_unencodable_record (s : State) (chunk : LogEntry.t) (now : Z)
    (pre post : list LogEntry.t) (doc : LogEntry.t) (err : JS.Error) :
  phase s = Accepting →
  (batchSize options ≤ length (buffer s) + 1)%nat →
  (buffer s ++ [chunk])%list = (pre ++ doc :: post)%list →
  Forall (λ d, ∃ encoded, stringify d = JS.Normal encoded) pre →
  stringify doc = JS.Throw err →
  ∃ s',
    step stringify options s (Write chunk now) = Some s' ∧
    phase s' = Ended (Some err) ∧ flushError s' = Some err ∧
    inflight s' = inflight s ∧ batchIndex s' = S (batchIndex s) ∧
    buffer s' = [] ∧
    (metrics s' = metrics s ∧ totalInserted s' = totalInserted s ∧
     pushed s' = pushed s) ∧
    ∀ lg, errorLogger s = Some lg →
      ∃ lg',
        errorLogger s' = Some lg' ∧
        ErrorLogger.allEntries lg' =
          (ErrorLogger.allEntries lg ++
           [ErrorLogger.errorEntry ErrorLogger.serialization now
              "BulkInsertTransform"
              ("Failed to serialize batch " ++
               JS.number_to_string (batchIndex s) ++ ": " ++ JS.message err)
              err (head (buffer s ++ [chunk]));
            ErrorLogger.errorEntry ErrorLogger.stream now
              "BulkInsertTransform"
              ("Stream error in bulk insert: " ++ JS.message err)
              err None])%list.
Proof.
  intros Hphase Hfull Hsplit Hpre Hdoc.
  pose proof (serialize_lines_throws pre post doc err Hpre Hdoc) as Hser.
  rewrite <- Hsplit in Hser.
  simpl. rewrite Hphase. eexists. split; [reflexivity|].
  unfold _transform. cbv zeta. simpl buffer.
  rewrite length_app. simpl length.
  apply Nat.leb_le in Hfull. rewrite Hfull.
  unfold scheduleFlush. rewrite length_app. simpl length.
  replace (length (buffer s) + 1 =? 0)%nat with false
    by (symmetry; apply Nat.eqb_neq; lia).
  unfold sendBatch_start. rewrite Hser. cbv zeta.
  repeat split.
  intros lg Hlg. unfold transform_callback, on_error, with_logger. simpl.
  rewrite Hlg. simpl. eexists. split; [reflexivity|].
  unfold ErrorLogger.logStreamError, ErrorLogger.logSerializationError.
  rewrite !allEntries_log. by rewrite <- app_assoc.
Qed.

End UploaderAccounting.

Section UploaderSampleRuns.

Import BulkInsert.

Lemma X1_requests_within_limit_witness :
  (length (inflight Samples.before_failure) ≤ 2)%nat.
Proof.
  assert (run Fixtures.stringify_id (Fixtures.options 2 (Some 2%nat))
            (init (Some Fixtures.logger)) Samples.two_batches
          = Some Samples.before_failure) as Hrun
    by (vm_compute; reflexivity).
  exact (proj1 (X1_requests_within_limit Fixtures.stringify_id
                  (Fixtures.options 2 (Some 2%nat)) (Some Fixtures.logger)
                  Samples.two_batches Samples.before_failure Hrun)).
Defined.

Lemma X2_buffer_below_batch_size_witness :
  (length (buffer Samples.before_failure) < 2)%nat.
Proof.
  apply (X2_buffer_below_batch_size Fixtures.stringify_id
           (Fixtures.options 2 (Some 2%nat)) (Some Fixtures.logger)
           Samples.two_batches Samples.before_failure).
  - simpl. lia.
  - vm_compute. reflexivity.
Defined.

Lemma X3_batches_are_consecutive_slices_witness :
  Forall
    (λ t, task_batch t =
            take 2 (drop (task_index t * 2)
                      [Fixtures.entry "log-1"; Fixtures.entry "log-2";
                       Fixtures.entry "log-3"; Fixtures.entry "log-4"]))
    (inflight Samples.before_failure).
Proof.
  apply Forall_forall. intros t Ht.
  assert (1 ≤ batchSize (Fixtures.options 2 (Some 2%nat)))%nat as Hsize
    by (simpl; lia).
  assert (run Fixtures.stringify_id (Fixtures.options 2 (Some 2%nat))
            (init (Some Fixtures.logger)) Samples.two_batches
          = Some Samples.before_failure) as Hrun
    by (vm_compute; reflexivity).
  destruct (X3_batches_are_consecutive_slices Fixtures.stringify_id
              (Fixtures.options 2 (Some 2%nat)) (Some Fixtures.logger)
              Samples.two_batches Samples.before_failure Hsize Hrun)
    as [Htasks _].
  destruct (Htasks t Ht) as (Hslice & _). exact Hslice.
Defined.

Lemma X4_counters_agree_witness :
  getTotalInserted Examples.completed = credited (pushed Examples.completed) ∧
  BulkInsertMetrics.batches (getMetrics Examples.completed) = 3%nat.
Proof.
  assert (run Fixtures.stringify_id (Fixtures.options 2 None) (init None)
            Samples.five_records = Some Examples.completed)
    as five_records_run by (vm_compute; reflexivity).
  destruct (X4_counters_agree Fixtures.stringify_id (Fixtures.options 2 None)
              None Samples.five_records Examples.completed five_records_run)
    as (_ & Hsum & _ & Hbatches & _).
  split; [exact Hsum | exact Hbatches].
Defined.

Lemma X5_averages_bounded_witness :
  (BulkInsertMetrics.averageBatchSize (getMetrics Examples.completed)
   <= inject_Z 2)%Q.
Proof.
  assert (run Fixtures.stringify_id (Fixtures.options 2 None) (init None)
            Samples.five_records = Some Examples.completed)
    as five_records_run by (vm_compute; reflexivity).
  destruct (X5_averages_bounded Fixtures.stringify_id
              (Fixtures.options 2 None) None Samples.five_records
              Examples.completed five_records_run) as (_ & _ & Hsize).
  apply Hsize. simpl. lia.
Defined.

Lemma X6_every_record_accounted_witness :
  BulkInsertMetrics.totalInserted (getMetrics Examples.completed) +
    Z.of_nat (BulkInsertMetrics.failedDocuments (getMetrics Examples.completed))
    = 5 ∧
  BulkInsertMetrics.batches (getMetrics Examples.completed) = 3%nat.
Proof.
  assert (run Fixtures.stringify_id (Fixtures.options 2 None) (init None)
            Samples.five_records = Some Examples.completed)
    as five_records_run by (vm_compute; reflexivity).
  destruct (X6_every_record_accounted Fixtures.stringify_id
              (Fixtures.options 2 None) None Samples.five_records
              Examples.completed five_records_run) as [_ Hended].
  destruct Hended as (_ & _ & _ & _ & Hrecords & Hbatches).
  - vm_compute. reflexivity.
  - split; [exact Hrecords|]. apply Hbatches. simpl. lia.
Defined.

Lemma X7_unencodable_record_witness :
  ∃ s',
    step Examples.stringify_acyclic (Fixtures.options 2 None)
      Examples.one_buffered (Write (Fixtures.entry "log-2") 1) = Some s' ∧
    phase s' = Ended (Some Examples.circular) ∧
    inflight s' = [].
Proof.
  destruct (X7_unencodable_record Examples.stringify_acyclic
              (Fixtures.options 2 None) Examples.one_buffered
              (Fixtures.entry "log-2") 1 [Fixtures.entry "log-1"] []
              (Fixtures.entry "log-2") Examples.circular)
    as (s' & Hstep & Hphase & _ & Hin & _).
  - vm_compute. reflexivity.
  - vm_compute. lia.
  - vm_compute. reflexivity.
  - apply List.Forall_cons; [|apply List.Forall_nil].
    eexists. vm_compute. reflexivity.
  - vm_compute. reflexivity.
  - exists s'. split; [exact Hstep|]. split; [exact Hphase|].
    rewrite Hin. vm_compute. reflexivity.
Defined.

End UploaderSampleRuns.

(** ** Bulk uploader: after the end *)

Section AfterTheEnd.

Import BulkInsert.

Variable stringify : LogEntry.t → JS.completion string.
Variable options : BulkInsertOptions.

Lemma ended_step (s s' : State) (ev : Event) (result : option JS.Error) :
  phase s = Ended result →
  step stringify options s ev = Some s' →
  is_settle ev = true ∧
  phase s' = Ended result ∧
  batchIndex s' = batchIndex s ∧
  length (inflight s) = S (length (inflight s')) ∧
  Counters.batches (metrics s') =
    (Counters.batches (metrics s) + if is_resolved ev then 1 else 0)%nat.
Proof.
  intros Hended Hstep.
  destruct ev as [chunk now|k outcome now|now]; simpl in Hstep.
  - by rewrite Hended in Hstep.
  - destruct (take_task k (inflight s)) as [[t rest]|] eqn:Htask;
      [|discriminate].
    injection Hstep as <-.
    destruct (settle_phase t rest outcome now s) as [Hindex Hphase].
    rewrite Hended in Hphase.
    destruct (settle_counters t rest outcome now s)
      as (_ & Hmetrics & _ & _ & Hin).
    destruct (take_task_dispatched _ _ _ _ Htask) as [_ Hlen].
    rewrite Hmetrics, Hin.
    repeat split; try done.
    destruct outcome; simpl; lia.
  - by rewrite Hended in Hstep.
Qed.

(** X23: a stream that has ended sends nothing more.  From a state in
    which the stream has ended, with or without error, the only events
    still possible are the answers of the store to the requests in
    flight, at most one each: no batch is cut and no request is sent any
    more, the result of the stream stays what it was, and the buffer of a
    stream reached from its start stays empty.  The answers still count:
    every response, also a late one, adds a batch to the metrics. *)
Theorem X23_nothing_sent_after_the_end (logger : option ErrorLogger.t)
    (history evs : list Event) (s s' : State) (result : option JS.Error) :
  run stringify options (init logger) history = Some s →
  phase s = Ended result →
  run stringify options s evs = Some s' →
  Forall (λ ev, is_settle ev = true) evs ∧
  phase s' = Ended result ∧
  batchIndex s' = batchIndex s ∧
  buffer s = [] ∧ buffer s' = [] ∧
  length (inflight s) = (length (inflight s') + length evs)%nat ∧
  Counters.batches (metrics s') =
    (Counters.batches (metrics s) + responses evs)%nat.
Proof.
  intros Hhistory Hended Hrun.
  assert (idle_buffer s ∧ idle_buffer s') as [Hidle Hidle'].
  { assert (idle_buffer (init logger)) as Hidle0 by done.
    assert (∀ evs0 s0 s1, idle_buffer s0 →
              run stringify options s0 evs0 = Some s1 → idle_buffer s1)
      as Hkeep.
    { induction evs0 as [|ev evs0 IH]; intros s0 s1 Hinv Hrun0.
      - by injection Hrun0 as <-.
      - simpl in Hrun0.
        destruct (step stringify options s0 ev) as [s2|] eqn:Hstep;
          [|discriminate].
        apply (IH s2); [by eapply idle_buffer_step|done]. }
    split; [by eapply Hkeep|].
    eapply (Hkeep evs s); [by eapply Hkeep|done]. }
  assert (Forall (λ ev, is_settle ev = true) evs ∧
          phase s' = Ended result ∧
          batchIndex s' = batchIndex s ∧
          length (inflight s) = (length (inflight s') + length evs)%nat ∧
          Counters.batches (metrics s') =
            (Counters.batches (metrics s) + responses evs)%nat)
    as (Hevents & Hphase & Hindex & Hflight & Hbatches).
  { clear Hhistory Hidle Hidle'. revert s Hended Hrun.
    induction evs as [|ev evs IH]; intros s Hended Hrun.
    - injection Hrun as <-. unfold responses. simpl.
      repeat split; try done; lia.
    - simpl in Hrun.
      destruct (step stringify options s ev) as [s1|] eqn:Hstep;
        [|discriminate].
      destruct (ended_step s s1 ev result Hended Hstep)
        as (Hsettle & Hphase1 & Hindex1 & Hflight1 & Hbatches1).
      destruct (IH s1 Hphase1 Hrun)
        as (Hevents & Hphase & Hindex & Hflight & Hbatches).
      split; [by constructor|]. split; [done|].
      split; [congruence|]. split; [simpl; lia|].
      rewrite Hbatches, Hbatches1. unfold responses. simpl.
      destruct (is_resolved ev); simpl; lia. }
  split; [done|]. split; [done|]. split; [done|].
  split; [apply Hidle; by rewrite Hended|].
  split; [apply Hidle'; by rewrite Hphase|]. done.
Qed.

End AfterTheEnd.

Section AfterTheEndSample.

Import BulkInsert.

Lemma X23_nothing_sent_after_the_end_witness :
  phase Samples.both_failed = Ended (Some Fixtures.networkError) ∧
  batchIndex Samples.both_failed = batchIndex Samples.both_sent.
Proof.
  assert (run Fixtures.stringify_id (Fixtures.options 1 (Some 3%nat))
            (init None)
            [ Write (Fixtures.entry "log-1") 0;
              Write (Fixtures.entry "log-2") 1; End_ 2;
              Settle 0 (JS.Rejected Fixtures.networkError) 3 ]
          = Some Samples.both_sent) as Hhistory
    by (vm_compute; reflexivity).
  assert (phase Samples.both_sent = Ended (Some Fixtures.networkError))
    as Hended by (vm_compute; reflexivity).
  assert (run Fixtures.stringify_id (Fixtures.options 1 (Some 3%nat))
            Samples.both_sent
            [Settle 1 (JS.Rejected Samples.timeoutError) 4]
          = Some Samples.both_failed) as Hrun
    by (vm_compute; reflexivity).
  destruct (X23_nothing_sent_after_the_end Fixtures.stringify_id
              (Fixtures.options 1 (Some 3%nat)) None _ _ _ _ _
              Hhistory Hended Hrun)
    as (_ & Hphase & Hindex & _).
  split; [exact Hphase | exact Hindex].
Defined.

End AfterTheEndSample.

(** ** Bulk uploader: the failed items of a response *)

Section FailedItems.

Import BulkInsert.

Lemma log_failures_entries (now : Z) (k : nat) (batch : list LogEntry.t)
    (response : BulkResponse) (errs : list ErrorCause) :
  ∀ idx lg,
    ErrorLogger.allEntries (log_failures now k batch response idx errs lg) =
    (ErrorLogger.allEntries lg ++
     insertion_entries now k batch response idx errs)%list.
Proof.
  induction errs as [|errorItem rest IH]; intros idx lg; simpl.
  - by rewrite app_nil_r.
  - rewrite IH. unfold ErrorLogger.logInsertionError.
    rewrite allEntries_log, <- app_assoc. done.
Qed.

Lemma insertion_entries_report (now : Z) (k : nat) (batch : list LogEntry.t)
    (response : BulkResponse) (errs : list ErrorCause) :
  ∀ idx,
    map failure_report (insertion_entries now k batch response idx errs) =
    map (λ cause,
           (ErrorLogger.insertion, insertion_message cause, Some k,
            Some (ErrorLogger.mkOpensearchError (type cause) (reason cause))))
      errs.
Proof.
  induction errs as [|errorItem rest IH]; intros idx; simpl; [done|].
  by rewrite IH.
Qed.

Lemma insertion_entries_lookup (now : Z) (k : nat) (batch : list LogEntry.t)
    (response : BulkResponse) (errs : list ErrorCause) :
  ∀ idx n cause,
    errs !! n = Some cause →
    ∃ entry,
      insertion_entries now k batch response idx errs !! n = Some entry ∧
      ErrorLogger.document (ErrorLogger.details entry)
        = failedDoc batch response (idx + n) cause ∧
      ErrorLogger.documentId (ErrorLogger.details entry)
        = LogEntry.id <$> failedDoc batch response (idx + n) cause.
Proof.
  induction errs as [|errorItem rest IH]; intros idx n cause Hn;
    [by rewrite lookup_nil in Hn|].
  destruct n as [|n]; simpl in *.
  - injection Hn as ->. eexists. split; [reflexivity|].
    rewrite Nat.add_0_r. done.
  - destruct (IH (S idx) n cause Hn) as (entry & Hentry & Hdoc & Hid).
    exists entry. split; [done|].
    replace (idx + S n)%nat with (S idx + n)%nat by lia. done.
Qed.

Lemma findIndex_first {A} (p : A → bool) (l : list A) (i : nat) (x : A) :
  l !! i = Some x → p x = true →
  (∀ j y, l !! j = Some y → p y = true → j = i) →
  findIndex p l = Z.of_nat i.
Proof.
  revert i. induction l as [|y l IH]; intros i Hi Hp Hfirst;
    [by rewrite lookup_nil in Hi|].
  simpl. destruct (p y) eqn:Hy.
  - by rewrite <- (Hfirst 0%nat y eq_refl Hy).
  - destruct i as [|i].
    + simpl in Hi. injection Hi as ->. congruence.
    + rewrite (IH i Hi Hp).
      * replace (Z.of_nat i <? 0) with false by (symmetry; apply Z.ltb_ge; lia).
        lia.
      * intros j z Hj Hz. specialize (Hfirst (S j) z Hj Hz). lia.
Qed.

(** X22: the failed items of a response reach the error logger one by
    one.  A response handled with an error logger adds to it one
    insertion entry per failed item, in the order of the response, each
    with the batch index and the type and reason of the failure (none
    when the response says [errors: false]).  The record it blames is
    the right one whenever no other item failed with the same error type
    and the item has a record at its position: then the entry carries
    the record at the position of the failed item. *)
Theorem X22_failed_items_logged (t : Task) (response : BulkResponse)
    (now : Z) (s : State) (lg : ErrorLogger.t) :
  errorLogger s = Some lg →
  ∃ lg' entries,
    errorLogger (sendBatch_resolved t response now s) = Some lg' ∧
    ErrorLogger.allEntries lg' = (ErrorLogger.allEntries lg ++ entries)%list ∧
    map failure_report entries =
      map (λ cause,
             (ErrorLogger.insertion, insertion_message cause,
              Some (task_index t),
              Some (ErrorLogger.mkOpensearchError (type cause)
                      (reason cause))))
        (failed_items response) ∧
    (errors response = false → entries = []) ∧
    ∀ n cause i item,
      failed_items response !! n = Some cause →
      items response !! i = Some item →
      item_error item = Some cause →
      only_of_its_type response i cause →
      (i < length (task_batch t))%nat →
      ∃ entry,
        entries !! n = Some entry ∧
        ErrorLogger.document (ErrorLogger.details entry)
          = task_batch t !! i ∧
        ErrorLogger.documentId (ErrorLogger.details entry)
          = LogEntry.id <$> task_batch t !! i.
Proof.
  intros Hlg.
  exists (if (0 <? length (failed_items response))%nat
          then log_failures now (task_index t) (task_batch t) response 0
                 (failed_items response) lg
          else lg).
  exists (insertion_entries now (task_index t) (task_batch t) response 0
            (failed_items response)).
  split; [|split; [|split; [|split]]].
  - unfold sendBatch_resolved. cbn [errorLogger]. rewrite Hlg.
    by destruct (0 <? length (failed_items response))%nat.
  - destruct (0 <? length (failed_items response))%nat eqn:Hany.
    + apply log_failures_entries.
    + apply Nat.ltb_ge in Hany.
      destruct (failed_items response); [|simpl in Hany; lia].
      simpl. by rewrite app_nil_r.
  - apply insertion_entries_report.
  - intros Hnone. unfold failed_items. by rewrite Hnone.
  - intros n cause i item Hn Hi Hitem Honly Hbound.
    destruct (insertion_entries_lookup now (task_index t) (task_batch t)
                response (failed_items response) 0 n cause Hn)
      as (entry & Hentry & Hdoc & Hid).
    exists entry. split; [done|].
    assert (failedDoc (task_batch t) response (0 + n) cause
            = task_batch t !! i) as Hblamed.
    { unfold failedDoc. cbv zeta.
      rewrite (findIndex_first (same_error_type cause) (items response) i
                 item Hi).
      - replace (0 <=? Z.of_nat i) with true
          by (symmetry; apply Z.leb_le; lia).
        replace (Z.of_nat i <? Z.of_nat (length (task_batch t))) with true
          by (symmetry; apply Z.ltb_lt; lia).
        by rewrite Nat2Z.id.
      - unfold same_error_type. rewrite Hitem. apply String.eqb_refl.
      - intros j item' Hj Hsame. unfold same_error_type in Hsame.
        destruct (item_error item') as [cause'|] eqn:Hcause'; [|done].
        apply String.eqb_eq in Hsame. by eapply Honly. }
    by rewrite Hdoc, Hid, Hblamed.
Qed.

Lemma X22_failed_items_logged_witness :
  ∃ lg' entries,
    errorLogger
      (sendBatch_resolved
         (mkTask 0 [Fixtures.entry "log-1"; Fixtures.entry "log-2"]
            EmptyString 0)
         Samples.second_rejected 5 (init (Some Fixtures.logger))) = Some lg' ∧
    ErrorLogger.allEntries lg' = entries ∧
    length entries = 1%nat.
Proof.
  destruct (X22_failed_items_logged
              (mkTask 0 [Fixtures.entry "log-1"; Fixtures.entry "log-2"]
                 EmptyString 0)
              Samples.second_rejected 5 (init (Some Fixtures.logger))
              Fixtures.logger eq_refl)
    as (lg' & entries & Hlogger & Hall & Hreport & _).
  exists lg', entries. split; [exact Hlogger|]. split; [exact Hall|].
  apply (f_equal length) in Hreport. rewrite !length_map in Hreport.
  exact Hreport.
Defined.

End FailedItems.

(** ** Error logger *)

Section ErrorLoggerProperties.

Import ErrorLogger ErrorLoggerCalls.

Lemma allEntries_call (lg : t) (c : Call) :
  allEntries (call lg c) = (allEntries lg ++ logged [c])%list.
Proof.
  destruct c as [entry| |writable]; simpl.
  - apply allEntries_log.
  - rewrite allEntries_flush. by rewrite app_nil_r.
  - unfold allEntries. simpl. by rewrite app_nil_r.
Qed.

Lemma allEntries_calls (cs : list Call) :
  ∀ lg, allEntries (calls lg cs) = (allEntries lg ++ logged cs)%list.
Proof.
  induction cs as [|c cs IH]; intros lg; simpl.
  - by rewrite app_nil_r.
  - unfold calls in IH. rewrite IH, allEntries_call.
    rewrite <- app_assoc. f_equal. unfold logged. by destruct c.
Qed.

(** X8: the error logger never loses, duplicates or reorders an entry.
    After any sequence of logging calls, flushes and changes of the log
    file between writable and unwritable, the file followed by the
    entries still in memory is what it was before followed by the entries
    logged, in the order of the calls; and every entry is in one place
    only: a flush that succeeds empties the memory, a flush that fails
    leaves file and memory as they were. *)
Theorem X8_no_entry_lost (lg : t) (cs : list Call) :
  allEntries (calls lg cs) = (allEntries lg ++ logged cs)%list ∧
  (fsWritable lg = true →
   errors (flush lg) = [] ∧
   logFile (flush lg) = (logFile lg ++ errors lg)%list) ∧
  (fsWritable lg = false → flush lg = lg).
Proof.
  split; [apply allEntries_calls|split].
  - intros Hdisk. unfold flush. rewrite Hdisk.
    destruct (errors lg) eqn:Herrors; simpl; rewrite ?Herrors;
      by rewrite ?app_nil_r.
  - intros Hdisk. unfold flush. rewrite Hdisk. by destruct (errors lg).
Qed.





Lemma errorType_name_inj (k1 k2 : ErrorType) :
  errorType_name k1 = errorType_name k2 → k1 = k2.
Proof. destruct k1, k2; simpl; intros H; try done; discriminate. Qed.

Lemma getErrorsByType_fold (entries : list ErrorLogEntry) (key : string) :
  ∀ counts : gmap string nat,
    let counts' :=
      foldl
        (λ counts error,
           <[ errorType_name (errorType error) :=
                (default 0 (counts !! errorType_name (errorType error)) + 1)%nat ]>
             counts)
        counts entries in
    let n :=
      length
        (List.filter
           (λ entry, String.eqb (errorType_name (errorType entry)) key)
           entries) in
    reading counts' key = (reading counts key + n)%nat ∧
    (counts' !! key = None ↔ counts !! key = None ∧ n = 0%nat).
Proof.
  induction entries as [|entry entries IH]; intros counts; simpl.
  - unfold reading. split; [lia|]. tauto.
  - specialize (IH (<[ errorType_name (errorType entry) :=
                         (default 0 (counts !! errorType_name (errorType entry))
                          + 1)%nat ]> counts)).
    simpl in IH. destruct IH as [IHr IHn]. rewrite IHr, IHn.
    unfold reading.
    destruct (String.eqb_spec (errorType_name (errorType entry)) key)
      as [-> | Hne]; simpl.
    + rewrite lookup_insert_eq. simpl. split; [lia|].
      split; [by intros [? _]|]. intros [_ ?]. lia.
    + rewrite lookup_insert_ne by done. done.
Qed.

(** X10: [getErrorsByType] counts the entries still in memory by their
    type: the counter of a type is the number of such entries, a type
    without entry has no counter (it reads as [undefined], not as zero),
    no other key appears, and the counters add up to [getErrorCount].  In
    particular the counts of a logger that has just been flushed are
    empty, whatever was logged before. *)
Theorem X10_counts_by_type (lg : t) :
  (∀ kind,
     reading (getErrorsByType lg) (errorType_name kind)
       = of_type kind (errors lg) ∧
     (getErrorsByType lg !! errorType_name kind = None
      ↔ of_type kind (errors lg) = 0%nat)) ∧
  (∀ key, (∀ kind, key ≠ errorType_name kind) →
          getErrorsByType lg !! key = None) ∧
  (reading (getErrorsByType lg) "insertion" +
   reading (getErrorsByType lg) "stream" +
   reading (getErrorsByType lg) "connection" +
   reading (getErrorsByType lg) "serialization" +
   reading (getErrorsByType lg) "unknown" = getErrorCount lg)%nat ∧
  (fsWritable lg = true → getErrorsByType (flush lg) = ∅).
Proof.
  split; [|split; [|split]].
  - intros kind.
    destruct (getErrorsByType_fold (errors lg) (errorType_name kind) ∅)
      as [Hreading Hnone].
    unfold getErrorsByType, of_type. split.
    + rewrite Hreading. unfold reading. by rewrite lookup_empty.
    + rewrite Hnone, lookup_empty. tauto.
  - intros key Hother.
    destruct (getErrorsByType_fold (errors lg) key ∅) as [_ Hnone].
    unfold getErrorsByType. apply Hnone. split; [apply lookup_empty|].
    clear Hnone.
    induction (errors lg) as [|entry entries IH]; simpl; [done|].
    destruct (String.eqb_spec (errorType_name (errorType entry)) key)
      as [Heq | _]; [|done].
    by destruct (Hother (errorType entry)).
  - unfold getErrorCount, getErrorsByType.
    rewrite !(λ key, proj1 (getErrorsByType_fold (errors lg) key ∅)).
    unfold reading. rewrite !lookup_empty. simpl.
    induction (errors lg) as [|entry entries IH]; simpl; [done|].
    destruct (errorType entry); simpl; lia.
  - intros Hdisk. unfold getErrorsByType, flush.
    destruct (errors lg) eqn:Herrors; [by rewrite Herrors|].
    by rewrite Hdisk.
Qed.

End ErrorLoggerProperties.

(** ** Metrics collector: what a snapshot says about the records *)

Section CollectorTallies.

Import LogMetricsCollector Tally.

Lemma filter_snoc {A} (p : A → bool) (l : list A) (x : A) :
  length (List.filter p (l ++ [x])) =
  (length (List.filter p l) + if p x then 1 else 0)%nat.
Proof.
  rewrite List.filter_app, length_app. simpl. by destruct (p x).
Qed.

Lemma observe_tallies (logs : list LogEntry.t) :
  count (observe logs) = length logs ∧
  (∀ l, levelCounts (observe logs) l = with_level l logs) ∧
  (∀ e, environmentCounts (observe logs) e = with_environment e logs) ∧
  (∀ c, categoryCounts (observe logs) c = with_category c logs) ∧
  errorCount (observe logs) = with_error logs.
Proof.
  unfold with_level, with_environment, with_category, with_error.
  induction logs as [|chunk logs (IHn & IHl & IHe & IHc & IHx)]
    using rev_ind.
  - done.
  - rewrite observe_snoc. simpl. rewrite length_app. simpl.
    split; [lia|]. repeat split.
    + intros l. rewrite filter_snoc, <- IHl. unfold increment.
      destruct (decide (l = LogEntry.level chunk)) as [-> | Hne].
      * rewrite bool_decide_eq_true_2 by done. lia.
      * rewrite bool_decide_eq_false_2 by done. lia.
    + intros e. rewrite filter_snoc, <- IHe. unfold increment.
      destruct (decide (e = Service.environment (LogEntry.service chunk)))
        as [-> | Hne].
      * rewrite bool_decide_eq_true_2 by done. lia.
      * rewrite bool_decide_eq_false_2 by done. lia.
    + intros c. rewrite filter_snoc, <- IHc. unfold increment.
      destruct (decide (c = LogEntry.category chunk)) as [-> | Hne].
      * rewrite bool_decide_eq_true_2 by done. lia.
      * rewrite bool_decide_eq_false_2 by done. lia.
    + rewrite filter_snoc, <- IHx. destruct (LogEntry.error chunk); lia.
Qed.

(** X11: the tallies of a snapshot are the tallies of the records
    observed, whatever their order: [totalGenerated] is their number;
    the counter of each level, environment and category is the number of
    records that carry it, so each of the three families of counters adds
    up to [totalGenerated]; and [errorCount] is the number of records with
    an [error] field, at most [totalGenerated]. *)
Theorem X11_snapshot_tallies (logs : list LogEntry.t) :
  let snapshot := getSnapshot (observe logs) in
  Snapshot.totalGenerated snapshot = length logs ∧
  (∀ l, Snapshot.levelCounts snapshot l = with_level l logs) ∧
  (∀ e, Snapshot.environmentCounts snapshot e = with_environment e logs) ∧
  (∀ c, Snapshot.categoryCounts snapshot c = with_category c logs) ∧
  Snapshot.errorCount snapshot = with_error logs ∧
  (Snapshot.levelCounts snapshot Level.trace +
   Snapshot.levelCounts snapshot Level.debug +
   Snapshot.levelCounts snapshot Level.info +
   Snapshot.levelCounts snapshot Level.warn +
   Snapshot.levelCounts snapshot Level.error +
   Snapshot.levelCounts snapshot Level.fatal
   = Snapshot.totalGenerated snapshot)%nat ∧
  (Snapshot.environmentCounts snapshot Service.production +
   Snapshot.environmentCounts snapshot Service.staging +
   Snapshot.environmentCounts snapshot Service.development
   = Snapshot.totalGenerated snapshot)%nat ∧
  (Snapshot.categoryCounts snapshot Category.application +
   Snapshot.categoryCounts snapshot Category.security +
   Snapshot.categoryCounts snapshot Category.performance +
   Snapshot.categoryCounts snapshot Category.audit +
   Snapshot.categoryCounts snapshot Category.system
   = Snapshot.totalGenerated snapshot)%nat ∧
  (Snapshot.errorCount snapshot ≤ Snapshot.totalGenerated snapshot)%nat.
Proof.
  destruct (observe_tallies logs) as (Hn & Hl & He & Hc & Hx).
  simpl. rewrite Hn, Hx, !Hl, !He, !Hc.
  repeat split; try done.
  - unfold with_level. clear.
    induction logs as [|log logs IH]; simpl; [done|].
    destruct (LogEntry.level log); simpl; lia.
  - unfold with_environment. clear.
    induction logs as [|log logs IH]; simpl; [done|].
    destruct (Service.environment (LogEntry.service log)); simpl; lia.
  - unfold with_category. clear.
    induction logs as [|log logs IH]; simpl; [done|].
    destruct (LogEntry.category log); simpl; lia.
  - unfold with_error. apply List.filter_length_le.
Qed.

Lemma bump_lookup (key other : string) (counts : gmap string nat) :
  bump key counts !! other =
    if String.eqb other key then Some (S (default 0%nat (counts !! key)))
    else counts !! other.
Proof.
  unfold bump. destruct (String.eqb_spec other key) as [-> | Hne].
  - by rewrite lookup_insert_eq.
  - by rewrite lookup_insert_ne.
Qed.

Lemma bump_all (keys : list string) (key : string) :
  ∀ counts : gmap string nat,
    foldl (λ counts tag, bump tag counts) counts keys !! key =
      if (occurrences key keys =? 0)%nat then counts !! key
      else Some (default 0 (counts !! key) + occurrences key keys)%nat.
Proof.
  unfold occurrences.
  induction keys as [|k keys IH]; intros counts; simpl; [done|].
  rewrite IH, bump_lookup.
  destruct (String.eqb_spec key k) as [-> | Hne]; simpl.
  - destruct (length (List.filter (String.eqb k) keys) =? 0)%nat eqn:Hzero.
    + apply Nat.eqb_eq in Hzero. rewrite Hzero. f_equal. lia.
    + f_equal. lia.
  - done.
Qed.

Lemma tally_bump_all (keys : list string) (key : string) :
  foldl (λ counts tag, bump tag counts) ∅ keys !! key = tally key keys.
Proof.
  rewrite bump_all, lookup_empty. unfold tally.
  by destruct (occurrences key keys =? 0)%nat.
Qed.

Lemma observe_keyed (logs : list LogEntry.t) :
  serviceCounts (observe logs) =
    foldl (λ counts tag, bump tag counts) ∅ (service_names logs) ∧
  geoCounts (observe logs) =
    foldl (λ counts tag, bump tag counts) ∅ (geo_keys logs) ∧
  tagCounts (observe logs) =
    foldl (λ counts tag, bump tag counts) ∅ (all_tags logs).
Proof.
  unfold service_names, geo_keys, all_tags.
  induction logs as [|chunk logs (IHs & IHg & IHt)] using rev_ind.
  - done.
  - rewrite observe_snoc. simpl.
    rewrite !map_app, concat_app, !foldl_app. simpl.
    rewrite IHs, IHg, IHt, app_nil_r. done.
Qed.

(** X12: the keyed counters of a snapshot.  For the records observed,
    [serviceCounts], [geoCounts] and [tagCounts] hold, under each key,
    the number of times it occurred as a service name, as
    [country|city], or as a tag (a tag a record carries twice counts
    twice); a key that never occurred has no counter.  The service names
    and tags are assumed not to be among the names every object
    inherits, on which [counts[key] || 0] does not start at zero; a geo
    key contains [|] and is never one of them. *)
Theorem X12_snapshot_keyed_counters (logs : list LogEntry.t) :
  Forall ordinary (service_names logs) →
  Forall ordinary (all_tags logs) →
  let snapshot := getSnapshot (observe logs) in
  (∀ key, Snapshot.serviceCounts snapshot !! key
            = tally key (service_names logs)) ∧
  (∀ key, Snapshot.geoCounts snapshot !! key = tally key (geo_keys logs)) ∧
  (∀ key, Snapshot.tagCounts snapshot !! key = tally key (all_tags logs)) ∧
  Forall ordinary (geo_keys logs).
Proof.
  intros _ _. destruct (observe_keyed logs) as (Hs & Hg & Ht).
  simpl. rewrite Hs, Hg, Ht.
  repeat split; try (intros key; apply tally_bump_all).
  unfold geo_keys. apply Forall_forall. intros key Hkey.
  apply list_elem_of_In, in_map_iff in Hkey as (log & <- & _).
  unfold ordinary, inherited, geoKey.
  set (country := Geo.country (LogEntry.geo log)).
  set (city := Geo.city (LogEntry.geo log)).
  assert (contains "|" (country ++ "|" ++ city) = true) as Hbar.
  { rewrite contains_append. apply orb_true_iff. right.
    rewrite append_cons. simpl. done. }
  intros Hin.
  repeat (apply elem_of_cons in Hin as [Heq | Hin];
          [rewrite Heq in Hbar; vm_compute in Hbar; discriminate|]).
  by apply elem_of_nil in Hin.
Qed.

Lemma X12_snapshot_keyed_counters_witness :
  Snapshot.tagCounts (getSnapshot (observe Fixtures.collectorLogs))
    !! "api-gateway" = Some 2%nat.
Proof.
  assert (Forall ordinary (service_names Fixtures.collectorLogs)) as Hs.
  { repeat constructor; unfold ordinary, inherited;
      intros Hin; repeat (apply elem_of_cons in Hin as [Heq | Hin];
                          [discriminate|]);
      by apply elem_of_nil in Hin. }
  assert (Forall ordinary (all_tags Fixtures.collectorLogs)) as Ht.
  { repeat constructor; unfold ordinary, inherited;
      intros Hin; repeat (apply elem_of_cons in Hin as [Heq | Hin];
                          [discriminate|]);
      by apply elem_of_nil in Hin. }
  destruct (X12_snapshot_keyed_counters Fixtures.collectorLogs Hs Ht)
    as (_ & _ & Htags & _).
  rewrite Htags. reflexivity.
Defined.

End CollectorTallies.

Section CollectorExtremes.

Import LogMetricsCollector Tally.






Lemma Qfloor_half (z : Z) : Qfloor (inject_Z z + (1 # 2)) = z.
Proof.
  apply Z.le_antisymm.
  - apply Z.lt_succ_r. rewrite Zlt_Qlt.
    eapply Qle_lt_trans; [apply Qfloor_le|].
    unfold Z.succ. rewrite inject_Z_plus. change (inject_Z 1) with 1%Q. lra.
  - rewrite <- (Qfloor_Z z) at 1. apply Qfloor_resp_le. lra.
Qed.

Lemma hundredths (n z : Z) :
  ((inject_Z z <= n # 100)%Q ↔ 100 * z ≤ n) ∧
  ((n # 100 <= inject_Z z)%Q ↔ n ≤ 100 * z).
Proof.
  unfold Qle, inject_Z. simpl. split; split; lia.
Qed.

(** Rounding to two decimals does not cross an integer. *)
Lemma toFixed2_between (q : Q) (lo hi : Z) :
  (inject_Z lo <= q)%Q → (q <= inject_Z hi)%Q →
  (inject_Z lo <= JS.toFixed2 q)%Q ∧ (JS.toFixed2 q <= inject_Z hi)%Q.
Proof.
  intros Hlo Hhi. unfold JS.toFixed2. cbv zeta.
  destruct (Qle_bool 0 q) eqn:Hsign.
  - apply Qle_bool_iff in Hsign.
    rewrite Qred_correct, (Qabs_pos q Hsign).
    split.
    + apply hundredths. rewrite <- (Qfloor_Z (100 * lo)).
      apply Qfloor_resp_le. rewrite inject_Z_mult.
      change (inject_Z 100) with 100%Q. lra.
    + apply hundredths. rewrite <- (Qfloor_half (100 * hi)).
      apply Qfloor_resp_le. rewrite inject_Z_mult.
      change (inject_Z 100) with 100%Q. lra.
  - assert (q < 0)%Q as Hneg.
    { apply Qnot_le_lt. intros Hle. apply Qle_bool_iff in Hle. congruence. }
    rewrite !Qred_correct, (Qabs_neg q) by lra.
    set (n := Qfloor (- q * 100 + (1 # 2))).
    assert (- 100 * hi ≤ n ∧ n ≤ - 100 * lo) as [Hn1 Hn2].
    { split.
      - rewrite <- (Qfloor_Z (- 100 * hi)).
        apply Qfloor_resp_le. rewrite inject_Z_mult.
        change (inject_Z (-100)) with (-100)%Q. lra.
      - rewrite <- (Qfloor_half (- 100 * lo)).
        apply Qfloor_resp_le. rewrite inject_Z_mult.
        change (inject_Z (-100)) with (-100)%Q. lra. }
    change (- (n # 100))%Q with ((- n) # 100)%Q.
    split; apply hundredths; lia.
Qed.





Lemma filter_all {A} (p : A → bool) (l : list A) :
  Forall (λ x, p x = true) l → List.filter p l = l.
Proof.
  induction 1 as [|x l Hx _ IH]; simpl; [done|]. by rewrite Hx, IH.
Qed.

Lemma filter_length_Permutation {A} (p : A → bool) (l1 l2 : list A) :
  l1 ≡ₚ l2 → length (List.filter p l1) = length (List.filter p l2).
Proof.
  induction 1 as [|x l1 l2 _ IH|x y l|l1 l2 l3 _ IH1 _ IH2]; simpl.
  - done.
  - destruct (p x); simpl; by rewrite IH.
  - by destruct (p x), (p y).
  - by rewrite IH1.
Qed.

Lemma percentile_index (n : nat) :
  (0 < n)%nat →
  let k := Nat.min (p95Index n) (n - 1) in
  (k < n ∧ 95 * n ≤ 100 * (k + 1) ∧ 5 * n ≤ 100 * (n - k))%nat.
Proof.
  intros Hn k. subst k. unfold p95Index.
  replace (n =? 0)%nat with false by (symmetry; apply Nat.eqb_neq; lia).
  pose proof (Nat.div_mod_eq (n * 95) 100) as Hdiv.
  pose proof (Nat.mod_upper_bound (n * 95) 100) as Hmod.
  lia.
Qed.

(** X14: what the reported 95th percentile means.  Once a record has been
    observed, at least 95 in 100 of the observed response times are at
    most the reported [p95], and at least 5 in 100 are at least it
    (counting repetitions). *)
Theorem X14_percentile_covers (logs : list LogEntry.t) :
  logs ≠ [] →
  let p95 :=
    Snapshot.p95 (Snapshot.responseTime (getSnapshot (observe logs))) in
  let observed := map response_time_of logs in
  (95 * length logs ≤ 100 * at_most p95 observed)%nat ∧
  (5 * length logs ≤ 100 * at_least p95 observed)%nat.
Proof.
  intros Hne p95 observed. subst p95.
  destruct (observe_values logs) as [Hvalues _].
  simpl. rewrite Hvalues. fold observed.
  assert (length observed = length logs) as Hlen by apply length_map.
  assert (0 < length logs)%nat as Hpos by (destruct logs; [done|simpl; lia]).
  unfold percentile95. cbv zeta.
  set (sorted := sort_ascending observed).
  assert (sorted ≡ₚ observed) as Hperm by apply merge_sort_Permutation.
  assert (StronglySorted Z.le sorted) as Hsorted.
  { apply Sorted_StronglySorted; [apply _|].
    apply Sorted_merge_sort. apply _. }
  assert (length sorted = length logs) as Hn by (by rewrite Hperm).
  rewrite Hn.
  replace (length logs =? 0)%nat with false
    by (symmetry; apply Nat.eqb_neq; lia).
  destruct (percentile_index (length logs) Hpos) as (Hk & Hlow & Hhigh).
  set (k := Nat.min (p95Index (length logs)) (length logs - 1)) in *.
  destruct (nth_lookup_or_length sorted k 0) as [Hlookup | Hout]; [|lia].
  set (p := nth k sorted 0) in *.
  unfold at_most, at_least.
  rewrite <- !(filter_length_Permutation _ sorted observed Hperm).
  rewrite <- (take_drop k sorted) in Hsorted |- *.
  rewrite (drop_S sorted p k Hlookup) in Hsorted |- *.
  rewrite !List.filter_app, !length_app.
  assert (length (take k sorted) = k) as Htake
    by (rewrite length_take; lia).
  assert (length (drop (S k) sorted) = length logs - S k)%nat as Hdrop
    by (rewrite length_drop; lia).
  split.
  - rewrite (filter_all (λ v, v <=? p) (take k sorted)).
    + simpl. rewrite Z.leb_refl. simpl. lia.
    + apply Forall_forall. intros v Hv. apply Z.leb_le.
      apply (StronglySorted_app_1_elem_of Z.le _ _ v p Hsorted Hv).
      by apply elem_of_cons; left.
  - rewrite (filter_all (λ v, p <=? v) (p :: drop (S k) sorted)).
    + simpl. lia.
    + apply StronglySorted_app_1_r, StronglySorted_cons in Hsorted
        as [Hrest _].
      constructor; [apply Z.leb_refl|].
      eapply Forall_impl; [exact Hrest|]. intros v Hv. by apply Z.leb_le.
Qed.

Lemma X14_percentile_covers_witness :
  (95 * 3 ≤ 100 * at_most
               (Snapshot.p95
                  (Snapshot.responseTime
                     (getSnapshot (observe Fixtures.collectorLogs))))
               (map response_time_of Fixtures.collectorLogs))%nat.
Proof.
  assert (Fixtures.collectorLogs ≠ []) as Hne by discriminate.
  exact (proj1 (X14_percentile_covers Fixtures.collectorLogs Hne)).
Defined.

End CollectorExtremes.

(** ** Progress tracker: how often it prints *)

Section TrackerRate.

Import ProgressTracker.

Lemma last_default {A} (l : list A) (x d1 d2 : A) :
  List.last (x :: l) d1 = List.last (x :: l) d2.
Proof.
  revert x. induction l as [|y l IH]; intros x; [done|].
  change (List.last (y :: l) d1 = List.last (y :: l) d2). apply IH.
Qed.

Lemma run_rate (events : list (BulkInsert.ProgressData * Z)) :
  ∀ s,
    startTime (run s events).2 = startTime s ∧
    expectedTotal (run s events).2 = expectedTotal s ∧
    lastUpdate (run s events).2 = List.last (run s events).1 (lastUpdate s) ∧
    lastUpdate s + 2000 * Z.of_nat (length (run s events).1)
      ≤ lastUpdate (run s events).2 ∧
    ((run s events).1 ≠ [] →
     lastUpdate s + 2000 * Z.of_nat (length (run s events).1)
       < lastUpdate (run s events).2) ∧
    (length (run s events).1 ≤ length events)%nat ∧
    (∀ t, t ∈ (run s events).1 → t ∈ map snd events).
Proof.
  induction events as [|[chunk now] rest IH]; intros s; simpl.
  - repeat split; try done; try lia.
  - destruct (_transform_prints chunk now s) as [[Hgap ->] | [_ ->]].
    + specialize (IH (mkState (startTime s) now (expectedTotal s))).
      destruct (run _ rest) as [times s2]. simpl in *.
      destruct IH as (Hstart & Hexpected & Hlast & Hrate & _ & Hlen & Hin).
      split; [done|]. split; [done|].
      split; [destruct times; [done|]; rewrite Hlast; apply last_default|].
      split; [lia|]. split; [intros _; lia|]. split; [lia|].
      intros t [-> | Ht]%elem_of_cons;
        [by apply elem_of_cons; left|].
      apply elem_of_cons; right. by apply Hin.
    + specialize (IH s). destruct (run s rest) as [times s2]. simpl in *.
      destruct IH as (Hstart & Hexpected & Hlast & Hrate & Hstrict & Hlen
                      & Hin).
      repeat split; try done; try lia.
      intros t Ht. apply elem_of_cons; right. by apply Hin.
Qed.

(** X15: the progress tracker prints at most one line per two seconds,
    whatever the flow of progress events: when it has printed [k] lines,
    the last of them was printed more than [2000 * k] milliseconds after
    the tracker was built, at the arrival of one of the events; the
    tracker then remembers that time, and its start time and expected
    total are never changed. *)
Theorem X15_print_rate (now0 now1 expected : Z)
    (events : list (BulkInsert.ProgressData * Z)) :
  let times := (run (init now0 now1 expected) events).1 in
  let s := (run (init now0 now1 expected) events).2 in
  startTime s = now0 ∧ expectedTotal s = expected ∧
  lastUpdate s = List.last times now1 ∧
  now1 + 2000 * Z.of_nat (length times) ≤ lastUpdate s ∧
  (times ≠ [] → now1 + 2000 * Z.of_nat (length times) < List.last times now1) ∧
  (length times ≤ length events)%nat ∧
  (∀ t, t ∈ times → t ∈ map snd events).
Proof.
  intros times s. subst times s.
  destruct (run_rate events (init now0 now1 expected))
    as (Hstart & Hexpected & Hlast & Hrate & Hstrict & Hlen & Hin).
  simpl in *. rewrite <- Hlast. repeat split; done.
Qed.

End TrackerRate.

(** ** Record source: the chunks *)

Section SourceChunks.

Import LogGenerator.

Variable G : Type.
Variable generatorFn : Context → G → LogEntry.t * G.

Lemma chunk_sizes_zero : chunk_sizes 0 = [].
Proof. reflexivity. Qed.

Lemma chunk_sizes_step (r : nat) :
  (0 < r)%nat →
  chunk_sizes r =
    Nat.min DEFAULT_CHUNK_SIZE r :: chunk_sizes (r - Nat.min DEFAULT_CHUNK_SIZE r).
Proof.
  intros Hr. unfold chunk_sizes, DEFAULT_CHUNK_SIZE.
  destruct (decide (r < 100)%nat) as [Hsmall | Hlarge].
  - rewrite Nat.min_r by lia.
    rewrite Nat.div_small, Nat.mod_small by lia.
    replace (r =? 0)%nat with false by (symmetry; apply Nat.eqb_neq; lia).
    by rewrite Nat.sub_diag.
  - rewrite Nat.min_l by lia.
    assert (r = r - 100 + 1 * 100)%nat as Hsplit by lia.
    assert (r / 100 = S ((r - 100) / 100))%nat as ->.
    { rewrite Hsplit at 1. rewrite Nat.div_add by lia. lia. }
    assert (r mod 100 = (r - 100) mod 100)%nat as ->.
    { rewrite Hsplit at 1. by rewrite Nat.Div0.mod_add. }
    reflexivity.
Qed.

Lemma produce_chunk_sizes (s : State G) :
  ∃ chunks,
    produce G generatorFn s = (map Chunk chunks ++ [EndOfSequence])%list ∧
    map length chunks = chunk_sizes (total G s - generated G s).
Proof.
  apply (produce_elim G generatorFn
           (λ s out, ∃ chunks,
              out = (map Chunk chunks ++ [EndOfSequence])%list ∧
              map length chunks = chunk_sizes (total G s - generated G s)));
    clear s.
  - intros s Hread _. exists []. unfold _read in Hread.
    destruct (total G s <=? generated G s)%nat eqn:Hle; [|discriminate].
    apply Nat.leb_le in Hle.
    replace (total G s - generated G s)%nat with 0%nat by lia.
    done.
  - intros s chunkSize Hread (chunks & Hout & Hsizes) _.
    destruct (_read_chunk G s chunkSize Hread) as (Hpos & Hmax & Hleft).
    destruct (tick_generated G generatorFn chunkSize s) as (Hg & Ht & _).
    exists ((tick G generatorFn chunkSize s).1 :: chunks).
    split; [simpl; by rewrite Hout|].
    simpl. rewrite tick_length, Hsizes, Hg, Ht.
    unfold _read in Hread.
    destruct (total G s <=? generated G s)%nat; [discriminate|].
    assert (chunkSize
            = Nat.min DEFAULT_CHUNK_SIZE (total G s - generated G s))
      as Hsize by congruence.
    rewrite (chunk_sizes_step (total G s - generated G s)) by lia.
    rewrite <- Hsize. f_equal. f_equal. lia.
Qed.

(** X16: the record source works in chunks of 100: for [N] records it
    schedules [ceil (N / 100)] ticks; every tick but the last generates
    exactly 100 records and the last one the rest, and the end of the
    sequence is signalled after the last tick, at once when [N] is 0. *)
Theorem X16_chunks_of_hundred (N : nat) (baseDate : Z) (g : G) :
  ∃ chunks : list (list (Context * LogEntry.t)),
    produce G generatorFn (init G N baseDate g) =
      (map Chunk chunks ++ [EndOfSequence])%list ∧
    map length chunks =
      (replicate (N / 100) 100%nat ++
       if (N mod 100 =? 0)%nat then [] else [(N mod 100)%nat])%list ∧
    length chunks = ceil_div N 100.
Proof.
  destruct (produce_chunk_sizes (init G N baseDate g))
    as (chunks & Hout & Hsizes).
  simpl in Hsizes. rewrite Nat.sub_0_r in Hsizes.
  exists chunks. split; [done|]. split; [done|].
  rewrite <- (length_map length chunks), Hsizes.
  unfold chunk_sizes, DEFAULT_CHUNK_SIZE, ceil_div.
  rewrite length_app, length_replicate.
  pose proof (Nat.div_mod_eq N 100) as Hdiv.
  pose proof (Nat.mod_upper_bound N 100) as Hmod.
  destruct (N mod 100 =? 0)%nat eqn:Hzero.
  - apply Nat.eqb_eq in Hzero. cbn [length].
    rewrite Nat.add_0_r. apply (Nat.div_unique _ _ _ 99); lia.
  - apply Nat.eqb_neq in Hzero. cbn [length].
    apply (Nat.div_unique _ _ _ (N mod 100 - 1)); lia.
Qed.

End SourceChunks.

(** ** The pipeline *)

Section Pipeline.

Import BulkInsert.

Variable G : Type.
Variable generatorFn : LogGenerator.Context → G → LogEntry.t * G.
Variable stringify : LogEntry.t → JS.completion string.








End Pipeline.

Section PipelineSample.

Import BulkInsert.


End PipelineSample.

(** ** Log generator *)

Section WeightedChoice.

Import Generator Contract.

Lemma totalWeight_from {T} (items : list (Weighted T)) (base : Z) :
  foldl (λ sum it, sum + weight it) base items = base + totalWeight items.
Proof.
  unfold totalWeight. revert base.
  induction items as [|it items IH]; intros base; simpl; [lia|].
  rewrite (IH (base + weight it)), (IH (0 + weight it)). lia.
Qed.

Lemma totalWeight_cons {T} (it : Weighted T) (items : list (Weighted T)) :
  totalWeight (it :: items) = weight it + totalWeight items.
Proof.
  unfold totalWeight at 1. simpl. by rewrite totalWeight_from.
Qed.

Lemma prefixWeight_cons {T} (k : nat) (it : Weighted T)
    (items : list (Weighted T)) :
  prefixWeight (S k) (it :: items) = weight it + prefixWeight k items.
Proof. unfold prefixWeight. simpl. apply totalWeight_cons. Qed.

Lemma prefixWeight_all {T} (items : list (Weighted T)) :
  prefixWeight (length items) items = totalWeight items.
Proof. unfold prefixWeight. by rewrite firstn_all. Qed.

Lemma pick_spec {T} (items : list (Weighted T)) :
  ∀ random : Q,
    match pick items random with
    | Some chosen =>
        ∃ k it,
          items !! k = Some it ∧ chosen = item it ∧
          (random <= inject_Z (prefixWeight (S k) items))%Q ∧
          ∀ j, (j < k)%nat →
               (inject_Z (prefixWeight (S j) items) < random)%Q
    | None =>
        ∀ j, (j < length items)%nat →
             (inject_Z (prefixWeight (S j) items) < random)%Q
    end.
Proof.
  induction items as [|it items IH]; intros random; simpl.
  - intros j Hj. lia.
  - destruct (Qle_bool (random - inject_Z (weight it)) 0) eqn:Hcmp.
    + apply Qle_bool_iff in Hcmp. exists 0%nat, it.
      split; [done|]. split; [done|]. split; [|intros j Hj; lia].
      rewrite prefixWeight_cons. unfold prefixWeight. simpl.
      change (totalWeight []) with 0. rewrite Z.add_0_r. lra.
    + assert (0 < random - inject_Z (weight it))%Q as Hpos.
      { apply Qnot_le_lt. intros Hle. apply Qle_bool_iff in Hle. congruence. }
      specialize (IH (random - inject_Z (weight it))%Q).
      destruct (pick items (random - inject_Z (weight it))%Q) as [chosen|].
      * destruct IH as (k & it' & Hk & -> & Hle & Hbefore).
        exists (S k), it'. split; [done|]. split; [done|].
        split.
        -- rewrite prefixWeight_cons, inject_Z_plus. lra.
        -- intros [|j] Hj.
           ++ rewrite prefixWeight_cons. unfold prefixWeight. simpl.
              change (totalWeight []) with 0. rewrite Z.add_0_r. lra.
           ++ rewrite prefixWeight_cons, inject_Z_plus.
              specialize (Hbefore j ltac:(lia)). lra.
      * intros [|j] Hj.
        -- rewrite prefixWeight_cons. unfold prefixWeight. simpl.
           change (totalWeight []) with 0. rewrite Z.add_0_r. lra.
        -- rewrite prefixWeight_cons, inject_Z_plus.
           specialize (IH j ltac:(lia)). lra.
Qed.

Lemma prefixWeight_zero {T} (items : list (Weighted T)) :
  prefixWeight 0 items = 0.
Proof. reflexivity. Qed.

Lemma prefixWeight_mono {T} (items : list (Weighted T)) :
  Forall (λ it, 0 ≤ weight it) items →
  ∀ j k, (j ≤ k)%nat → prefixWeight j items ≤ prefixWeight k items.
Proof.
  induction 1 as [|it items Hit _ IH]; intros j k Hjk.
  - unfold prefixWeight. by rewrite !take_nil.
  - destruct j as [|j], k as [|k]; try lia.
    + rewrite prefixWeight_zero, prefixWeight_cons.
      specialize (IH 0%nat k ltac:(lia)).
      rewrite prefixWeight_zero in IH. lia.
    + rewrite !prefixWeight_cons.
      specialize (IH j k ltac:(lia)). lia.
Qed.

(** X18: [weightedRandom] selects by cumulative weight.  For a non-empty
    list and a draw not above the total weight, the item returned is the
    first one at which the running sum of the weights reaches the draw; so
    when no weight is negative, the item at position [k] is returned
    exactly for the draws above the sum of the weights before it and up to
    that sum plus its own weight (the first item also for the draw zero),
    a stretch as long as its weight; and the return after the loop is
    never reached. *)
Theorem X18_weighted_choice {T} (undefined : T) (items : list (Weighted T))
    (random : Q) :
  items ≠ [] →
  (random <= inject_Z (totalWeight items))%Q →
  (∃ k it,
     items !! k = Some it ∧
     pick items random = Some (item it) ∧
     weightedRandom undefined items random = item it ∧
     (random <= inject_Z (prefixWeight (S k) items))%Q ∧
     ∀ j, (j < k)%nat → (inject_Z (prefixWeight (S j) items) < random)%Q) ∧
  (Forall (λ it, 0 ≤ weight it) items →
   ∀ k it,
     items !! k = Some it →
     (k = 0%nat ∨ (inject_Z (prefixWeight k items) < random)%Q) →
     (random <= inject_Z (prefixWeight (S k) items))%Q →
     weightedRandom undefined items random = item it).
Proof.
  intros Hne Htotal.
  assert (∃ k it,
            items !! k = Some it ∧
            pick items random = Some (item it) ∧
            (random <= inject_Z (prefixWeight (S k) items))%Q ∧
            ∀ j, (j < k)%nat →
                 (inject_Z (prefixWeight (S j) items) < random)%Q)
    as (k & it & Hk & Hpick & Hle & Hbefore).
  { pose proof (pick_spec items random) as Hspec.
    destruct (pick items random) as [chosen|].
    - destruct Hspec as (k & it & Hk & -> & Hle & Hbefore).
      by exists k, it.
    - exfalso. destruct items as [|first rest]; [done|].
      specialize (Hspec (length rest) ltac:(simpl; lia)).
      change (S (length rest)) with (length (first :: rest)) in Hspec.
      rewrite prefixWeight_all in Hspec. lra. }
  split.
  - exists k, it. unfold weightedRandom. rewrite Hpick. done.
  - intros Hweights k' it' Hk' Hlow Hhigh.
    unfold weightedRandom. rewrite Hpick.
    assert (k' = k) as ->; [|congruence].
    destruct (Nat.lt_trichotomy k' k) as [Hlt | [Heq | Hgt]]; [|done|].
    + specialize (Hbefore k' Hlt). lra.
    + destruct Hlow as [-> | Hlow]; [lia|].
      pose proof (prefixWeight_mono items Hweights (S k) k' ltac:(lia))
        as Hmono.
      rewrite Zle_Qle in Hmono. lra.
Qed.

Lemma X18_weighted_choice_witness :
  weightedRandom Level.trace LOG_LEVELS 81 = Level.warn.
Proof.
  assert (LOG_LEVELS ≠ []) as Hne by discriminate.
  assert (81 <= inject_Z (totalWeight LOG_LEVELS))%Q as Htotal
    by (vm_compute; discriminate).
  destruct (X18_weighted_choice Level.trace LOG_LEVELS 81 Hne Htotal)
    as [_ Hstretch].
  apply (Hstretch ltac:(repeat constructor; vm_compute; discriminate)
           3%nat (mkWeighted Level.warn 15)).
  - reflexivity.
  - right. vm_compute. reflexivity.
  - vm_compute. discriminate.
Defined.

End WeightedChoice.

Section Timestamp.

Import Generator Contract JSDate.

Lemma time_parts (day hour min sec ms : Z) :
  0 ≤ hour < 24 → 0 ≤ min < 60 → 0 ≤ sec < 60 → 0 ≤ ms < 1000 →
  Day (MakeDate day (MakeTime hour min sec ms)) = day ∧
  HourFromTime (MakeDate day (MakeTime hour min sec ms)) = hour ∧
  MinFromTime (MakeDate day (MakeTime hour min sec ms)) = min ∧
  SecFromTime (MakeDate day (MakeTime hour min sec ms)) = sec ∧
  msFromTime (MakeDate day (MakeTime hour min sec ms)) = ms.
Proof.
  intros Hhour Hmin Hsec Hms.
  unfold Day, HourFromTime, MinFromTime, SecFromTime, msFromTime, MakeDate,
    MakeTime, msPerDay, msPerHour, msPerMinute, msPerSecond.
  repeat split; Z.div_mod_to_equations; lia.
Qed.

Lemma time_ranges (t : Z) :
  0 ≤ HourFromTime t < 24 ∧ 0 ≤ MinFromTime t < 60 ∧
  0 ≤ SecFromTime t < 60 ∧ 0 ≤ msFromTime t < 1000.
Proof.
  unfold HourFromTime, MinFromTime, SecFromTime, msFromTime, msPerHour,
    msPerMinute, msPerSecond.
  repeat split; Z.div_mod_to_equations; lia.
Qed.

Lemma clip_same_day (t0 hour min sec ms : Z) :
  whole_day t0 →
  0 ≤ hour < 24 → 0 ≤ min < 60 → 0 ≤ sec < 60 → 0 ≤ ms < 1000 →
  TimeClip (MakeDate (Day t0) (MakeTime hour min sec ms))
  = Some (MakeDate (Day t0) (MakeTime hour min sec ms)).
Proof.
  intros [Hlow Hhigh] Hhour Hmin Hsec Hms. unfold TimeClip.
  replace (Z.abs _ <=? _) with true; [done|].
  symmetry. apply Z.leb_le.
  unfold Day, MakeDate, MakeTime, msPerDay, msPerHour, msPerMinute,
    msPerSecond in *.
  apply Z.abs_le. Z.div_mod_to_equations. lia.
Qed.

(** X19: the timestamp of a generated record falls on the day of the base
    date.  For a base date at which the whole day is representable and
    draws in their ranges, [generateTimestamp] builds the instant of that
    same UTC day whose hour, minute, second and millisecond are the ones
    drawn; in the peak case (the draw below 0.6) the hour lies between 10
    and 17.  With an invalid base date it throws a [RangeError], and so
    does [generateLog]. *)
Theorem X19_timestamp_keeps_the_day (t0 : Z) (d : TimestampDraws) :
  whole_day t0 →
  timestamp_draws d →
  let hourToUse := if peak d then 10 + peakHour d else hour d in
  (∃ t,
     timestampDate (Some t0) d = Some t ∧
     t = MakeDate (Day t0)
           (MakeTime hourToUse (minute d) (second d) (millisecond d)) ∧
     Day t = Day t0 ∧
     HourFromTime t = hourToUse ∧ MinFromTime t = minute d ∧
     SecFromTime t = second d ∧ msFromTime t = millisecond d ∧
     (peak d = true → 10 ≤ HourFromTime t ≤ 17) ∧
     ∀ toISOString,
       generateTimestamp toISOString (Some t0) d = JS.Normal (toISOString t)) ∧
  (∀ toISOString draws,
     generateTimestamp toISOString None d = JS.Throw invalidTime ∧
     generateLog toISOString None draws = JS.Throw invalidTime).
Proof.
  intros Hday (Hhour & Hpeak & Hmin & Hsec & Hms) hourToUse.
  assert (0 ≤ hourToUse < 24) as Hused.
  { subst hourToUse. destruct (peak d); lia. }
  split; [|done].
  destruct (time_ranges t0) as (_ & Hm0 & Hs0 & Hms0).
  unfold generateTimestamp, timestampDate. cbv zeta.
  fold hourToUse. unfold setUTCHours.
  rewrite (clip_same_day t0 hourToUse _ _ _ Hday Hused Hm0 Hs0 Hms0).
  destruct (time_parts (Day t0) hourToUse _ _ _ Hused Hm0 Hs0 Hms0)
    as (Hd1 & Hh1 & Hm1 & Hs1 & Hms1).
  unfold setUTCMinutes. rewrite Hd1, Hh1, Hs1, Hms1.
  rewrite (clip_same_day t0 hourToUse _ _ _ Hday Hused Hmin Hs0 Hms0).
  destruct (time_parts (Day t0) hourToUse _ _ _ Hused Hmin Hs0 Hms0)
    as (Hd2 & Hh2 & Hm2 & Hs2 & Hms2).
  unfold setUTCSeconds. rewrite Hd2, Hh2, Hm2, Hms2.
  rewrite (clip_same_day t0 hourToUse _ _ _ Hday Hused Hmin Hsec Hms0).
  destruct (time_parts (Day t0) hourToUse _ _ _ Hused Hmin Hsec Hms0)
    as (Hd3 & Hh3 & Hm3 & Hs3 & Hms3).
  unfold setUTCMilliseconds. rewrite Hd3, Hh3, Hm3, Hs3.
  rewrite (clip_same_day t0 hourToUse _ _ _ Hday Hused Hmin Hsec Hms).
  destruct (time_parts (Day t0) hourToUse _ _ _ Hused Hmin Hsec Hms)
    as (Hd4 & Hh4 & Hm4 & Hs4 & Hms4).
  eexists. split; [reflexivity|]. split; [reflexivity|].
  rewrite Hd4, Hh4, Hm4, Hs4, Hms4.
  split; [done|]. split; [done|]. split; [done|]. split; [done|].
  split; [done|]. split; [|done].
  intros Hpeaked. subst hourToUse. rewrite Hpeaked. lia.
Qed.

Lemma X19_timestamp_keeps_the_day_witness :
  timestampDate (Some 1704067200000)
    (mkTimestampDraws 3 true 4 30 15 250)
  = Some (1704067200000 + 14 * 3600000 + 30 * 60000 + 15 * 1000 + 250).
Proof.
  destruct (X19_timestamp_keeps_the_day 1704067200000
              (mkTimestampDraws 3 true 4 30 15 250))
    as [(t & Hdate & Ht & _) _].
  - unfold whole_day. lia.
  - unfold timestamp_draws. simpl. lia.
  - rewrite Hdate, Ht. vm_compute. reflexivity.
Defined.

End Timestamp.

Section GeneratedLogs.

Import Generator Contract Tally LogMetricsCollector.

Variable toISOString : Z → string.

Lemma weightedRandom_item {T} (undefined : T) (items : list (Weighted T))
    (random : Q) :
  items ≠ [] → weightedRandom undefined items random ∈ map item items.
Proof.
  intros Hne. unfold weightedRandom.
  pose proof (pick_spec items random) as Hspec.
  destruct (pick items random) as [chosen|].
  - destruct Hspec as (k & it & Hk & -> & _).
    apply list_elem_of_In, in_map, list_elem_of_In.
    by eapply list_elem_of_lookup_2.
  - destruct items as [|first rest]; [done|]. by apply elem_of_cons; left.
Qed.

Lemma service_name_plain (name : string) :
  name ∈ map item SERVICES → ordinary name ∧ name ≠ "critical".
Proof.
  intros Hin. simpl in Hin.
  repeat (apply elem_of_cons in Hin as [-> | Hin];
          [split; [|discriminate]; unfold ordinary, inherited;
           intros Hbad;
           repeat (apply elem_of_cons in Hbad as [Heq | Hbad];
                   [discriminate|]);
           by apply elem_of_nil in Hbad|]).
  by apply elem_of_nil in Hin.
Qed.

Lemma occurrences_cons (key tag : string) (tags : list string) :
  occurrences key (tag :: tags) =
    ((if String.eqb key tag then 1 else 0) + occurrences key tags)%nat.
Proof. unfold occurrences. simpl. by destruct (String.eqb key tag). Qed.

Lemma fixed_tags_ordinary (tag : string) :
  tag ∈ ["critical"; "monitoring"; "alert"; "performance"] → ordinary tag.
Proof.
  intros Htag.
  repeat (apply elem_of_cons in Htag as [-> | Htag];
          [unfold ordinary, inherited; intros Hbad;
           repeat (apply elem_of_cons in Hbad as [Heq | Hbad];
                   [discriminate|]);
           by apply elem_of_nil in Hbad|]).
  by apply elem_of_nil in Htag.
Qed.

Lemma generateTags_facts (name : string) (level : Level.t) (extra : bool)
    (index : nat) :
  name ≠ "critical" → ordinary name → (index < 3)%nat →
  (∃ rest,
     generateTags name level extra index = name :: rest ∧
     (length rest ≤ 2)%nat) ∧
  occurrences "critical" (generateTags name level extra index)
    = (if hasError level then 1 else 0)%nat ∧
  Forall ordinary (generateTags name level extra index).
Proof.
  intros Hname Hordinary Hindex.
  assert (String.eqb "critical" name = false) as Hneq.
  { apply String.eqb_neq. congruence. }
  assert (index = 0 ∨ index = 1 ∨ index = 2)%nat as Hcases by lia.
  unfold generateTags. cbv zeta.
  destruct level, extra, Hcases as [-> | [-> | ->]];
    cbn [app arrayElement nth hasError];
    (split; [eexists; split; [reflexivity|simpl; lia]|]);
    (split; [rewrite !occurrences_cons, Hneq; reflexivity|]);
    repeat (apply List.Forall_cons;
            [first [exact Hordinary
                   |apply fixed_tags_ordinary;
                    repeat (first [by apply elem_of_cons; left
                                  |apply elem_of_cons; right])]|]);
    apply List.Forall_nil.
Qed.

(** What every record returned by [generateLog] satisfies. *)
Lemma generateLog_facts (baseDate : option Z) (d : Draws) (log : LogEntry.t) :
  draws d →
  generateLog toISOString baseDate d = JS.Normal log →
  LogEntry.id log = uuid d ∧
  Service.name (LogEntry.service log) ∈ map item SERVICES ∧
  (match LogEntry.error log with Some _ => true | None => false end
   = hasError (LogEntry.level log)) ∧
  (∃ rest,
     LogEntry.tags log = Service.name (LogEntry.service log) :: rest ∧
     (length rest ≤ 2)%nat) ∧
  occurrences "critical" (LogEntry.tags log)
    = (if hasError (LogEntry.level log) then 1 else 0)%nat ∧
  Forall ordinary (LogEntry.tags log) ∧
  ordinary (Service.name (LogEntry.service log)) ∧
  (is_Some (LogEntry.business log) →
   Service.name (LogEntry.service log) = "payment-service") ∧
  (0 <= EntryMetrics.cpu_usage (LogEntry.metrics log))%Q ∧
  (EntryMetrics.cpu_usage (LogEntry.metrics log) <= 100)%Q ∧
  10 ≤ EntryMetrics.response_time_ms (LogEntry.metrics log) ≤ 5000 ∧
  128 ≤ EntryMetrics.memory_mb (LogEntry.metrics log) ≤ 2048 ∧
  (∀ e, LogEntry.error log = Some e → ErrorInfo.type e ∈ ERROR_TYPES).
Proof.
  intros (_ & _ & _ & _ & _ & _ & Hcpu0 & Hcpu1 & Hmemory & Hresponse & _
          & Htag & Herror & _) Hlog.
  unfold generateLog in Hlog. cbv zeta in Hlog.
  destruct (generateTimestamp toISOString baseDate (timestamp d))
    as [stamp|]; [|discriminate].
  injection Hlog as <-. cbn [LogEntry.id LogEntry.service LogEntry.level
    LogEntry.error LogEntry.tags LogEntry.business LogEntry.metrics
    Service.name EntryMetrics.cpu_usage EntryMetrics.response_time_ms
    EntryMetrics.memory_mb].
  set (service := weightedRandom EmptyString SERVICES (serviceRandom d)).
  set (level := weightedRandom Level.trace LOG_LEVELS (levelRandom d)).
  assert (service ∈ map item SERVICES) as Hservice
    by (by apply weightedRandom_item).
  destruct (service_name_plain service Hservice) as [Hordinary Hplain].
  destruct (generateTags_facts service level (extraTag d) (extraTagIndex d)
              Hplain Hordinary Htag) as (Hhead & Hcritical & Htags).
  destruct (toFixed2_between (cpuScaled d) 0 100 Hcpu0 Hcpu1)
    as [Hlow Hhigh].
  split; [done|]. split; [done|].
  split; [by destruct level|]. split; [done|]. split; [done|].
  split; [done|]. split; [done|].
  split.
  { destruct (String.eqb_spec service "payment-service") as [-> | _];
      [done|]. simpl. by intros [? ?]. }
  split; [exact Hlow|]. split; [exact Hhigh|].
  split; [lia|]. split; [lia|].
  assert (arrayElement EmptyString ERROR_TYPES (errorTypeIndex d)
            ∈ ERROR_TYPES) as Htype.
  { unfold arrayElement. apply list_elem_of_In, nth_In. exact Herror. }
  intros e He. destruct level; try discriminate;
    injection He as <-; exact Htype.
Qed.

(** X20: what every generated record satisfies, whatever is drawn: the
    service is one of the nine known ones and comes first among at most
    three tags; the record carries an [error] exactly when its level is
    [error] or [fatal], and exactly then the tag [critical], once; the
    error type is one of the seven known ones; [business] data appear
    only on records of the payment service; the CPU usage lies between 0
    and 100, the response time between 10 and 5000, the memory between
    128 and 2048. *)
Theorem X20_generated_log_is_consistent (baseDate : option Z) (d : Draws)
    (log : LogEntry.t) :
  draws d →
  generateLog toISOString baseDate d = JS.Normal log →
  Service.name (LogEntry.service log) ∈ map item SERVICES ∧
  (is_Some (LogEntry.error log) ↔ failing (LogEntry.level log)) ∧
  (∃ rest,
     LogEntry.tags log = Service.name (LogEntry.service log) :: rest ∧
     (length rest ≤ 2)%nat) ∧
  ("critical" ∈ LogEntry.tags log ↔ failing (LogEntry.level log)) ∧
  (occurrences "critical" (LogEntry.tags log) ≤ 1)%nat ∧
  (∀ e, LogEntry.error log = Some e → ErrorInfo.type e ∈ ERROR_TYPES) ∧
  (is_Some (LogEntry.business log) →
   Service.name (LogEntry.service log) = "payment-service") ∧
  (0 <= EntryMetrics.cpu_usage (LogEntry.metrics log))%Q ∧
  (EntryMetrics.cpu_usage (LogEntry.metrics log) <= 100)%Q ∧
  10 ≤ EntryMetrics.response_time_ms (LogEntry.metrics log) ≤ 5000 ∧
  128 ≤ EntryMetrics.memory_mb (LogEntry.metrics log) ≤ 2048.
Proof.
  intros Hdraws Hlog.
  destruct (generateLog_facts baseDate d log Hdraws Hlog)
    as (_ & Hservice & Herror & Htags & Hcritical & _ & _ & Hbusiness
        & Hcpu0 & Hcpu1 & Hresponse & Hmemory & Htype).
  split; [done|]. split.
  { unfold failing. rewrite <- Herror.
    destruct (LogEntry.error log) as [e|]; split; intros Hside.
    - done.
    - by exists e.
    - by destruct Hside.
    - discriminate. }
  split; [done|]. split.
  { unfold failing. unfold occurrences in Hcritical.
    split.
    - intros Hin. destruct (hasError (LogEntry.level log)); [done|].
      exfalso. apply list_elem_of_In in Hin.
      assert (In "critical"
                (List.filter (String.eqb "critical") (LogEntry.tags log)))
        as Hfiltered.
      { apply filter_In. split; [done|]. apply String.eqb_refl. }
      destruct (List.filter _ _); [done|discriminate].
    - intros Hfailing. rewrite Hfailing in Hcritical.
      destruct (List.filter _ _) as [|tag rest] eqn:Hfilter;
        [discriminate|].
      assert (In tag (List.filter (String.eqb "critical")
                        (LogEntry.tags log))) as Htag
        by (rewrite Hfilter; by left).
      apply filter_In in Htag as [Htag Heq].
      apply String.eqb_eq in Heq. subst tag. by apply list_elem_of_In. }
  split; [rewrite Hcritical; destruct (hasError _); lia|].
  done.
Qed.

Lemma occurrences_app (key : string) (l1 l2 : list string) :
  occurrences key (l1 ++ l2) = (occurrences key l1 + occurrences key l2)%nat.
Proof. unfold occurrences. by rewrite List.filter_app, length_app. Qed.

Lemma generated_tallies (logs : list LogEntry.t) :
  Forall (generated toISOString) logs →
  with_error logs = (with_level Level.error logs + with_level Level.fatal logs)%nat ∧
  occurrences "critical" (all_tags logs) = with_error logs ∧
  Forall ordinary (service_names logs) ∧
  Forall ordinary (all_tags logs) ∧
  Forall (λ name, name ∈ map item SERVICES) (service_names logs).
Proof.
  unfold with_error, with_level, all_tags, service_names.
  induction 1 as [|log logs (baseDate & d & Hdraws & Hlog) _
                    (IH1 & IH2 & IH3 & IH4 & IH5)]; simpl.
  - repeat split; constructor.
  - destruct (generateLog_facts baseDate d log Hdraws Hlog)
      as (_ & Hservice & Herror & _ & Hcritical & Htags & Hordinary & _).
    rewrite occurrences_app, Hcritical, IH2.
    split; [|split; [|split; [|split]]].
    + destruct (LogEntry.error log), (LogEntry.level log); simpl in *;
        try discriminate; lia.
    + destruct (LogEntry.error log), (LogEntry.level log); simpl in *;
        try discriminate; lia.
    + by constructor.
    + by apply Forall_app.
    + by constructor.
Qed.

(** X21: the snapshot of the collector over generated records.  When
    every observed record comes from [generateLog], the snapshot's
    [errorCount] is the sum of its counters for the levels [error] and
    [fatal], and also the counter of the tag [critical] (absent when
    there was no error); only the nine known services are counted; and no
    service name or tag is an inherited property name, so that every
    keyed counter is the number of occurrences of its key. *)
Theorem X21_snapshot_of_generated_logs (logs : list LogEntry.t) :
  Forall (generated toISOString) logs →
  let snapshot := getSnapshot (observe logs) in
  Snapshot.errorCount snapshot =
    (Snapshot.levelCounts snapshot Level.error +
     Snapshot.levelCounts snapshot Level.fatal)%nat ∧
  Snapshot.tagCounts snapshot !! "critical" =
    (if (Snapshot.errorCount snapshot =? 0)%nat then None
     else Some (Snapshot.errorCount snapshot)) ∧
  (∀ key, is_Some (Snapshot.serviceCounts snapshot !! key) →
          key ∈ map item SERVICES) ∧
  (∀ key, Snapshot.serviceCounts snapshot !! key
            = tally key (service_names logs)) ∧
  (∀ key, Snapshot.tagCounts snapshot !! key = tally key (all_tags logs)) ∧
  Forall ordinary (service_names logs) ∧
  Forall ordinary (all_tags logs).
Proof.
  intros Hgenerated.
  destruct (generated_tallies logs Hgenerated)
    as (Herrors & Hcritical & Hnames & Htags & Hknown).
  destruct (observe_tallies logs) as (_ & Hlevels & _ & _ & Herror).
  destruct (observe_keyed logs) as (Hservices & _ & Htagged).
  simpl. rewrite Herror, !Hlevels, Hservices, Htagged.
  split; [done|]. split.
  { rewrite tally_bump_all. unfold tally. by rewrite Hcritical. }
  split.
  { intros key [n Hkey]. rewrite tally_bump_all in Hkey. unfold tally in Hkey.
    destruct (occurrences key (service_names logs) =? 0)%nat eqn:Hzero;
      [discriminate|].
    apply Nat.eqb_neq in Hzero. unfold occurrences in Hzero.
    destruct (List.filter (String.eqb key) (service_names logs))
      as [|name rest] eqn:Hfilter; [done|].
    assert (In name (List.filter (String.eqb key) (service_names logs)))
      as Hname by (rewrite Hfilter; by left).
    apply filter_In in Hname as [Hname Heq].
    apply String.eqb_eq in Heq. subst name.
    rewrite Forall_forall in Hknown. apply Hknown.
    by apply list_elem_of_In. }
  split; [intros key; apply tally_bump_all|].
  split; [intros key; apply tally_bump_all|]. done.
Qed.

End GeneratedLogs.

Section GeneratedSamples.

Import Generator Contract Tally LogMetricsCollector.

Lemma X20_generated_log_is_consistent_witness :
  Service.name (LogEntry.service Examples.sample_log) ∈ map item SERVICES ∧
  (is_Some (LogEntry.error Examples.sample_log)
   ↔ failing (LogEntry.level Examples.sample_log)).
Proof.
  assert (draws Examples.sample_draws) as Hdraws.
  { unfold draws. simpl.
    repeat split; try lia; unfold Qle; simpl; try lia;
      vm_compute; discriminate. }
  assert (generateLog Examples.iso (Some 1704067200000) Examples.sample_draws
          = JS.Normal Examples.sample_log) as Hlog
    by (vm_compute; reflexivity).
  destruct (X20_generated_log_is_consistent Examples.iso
              (Some 1704067200000) Examples.sample_draws Examples.sample_log
              Hdraws Hlog)
    as (Hservice & Herror & _).
  split; [exact Hservice | exact Herror].
Defined.

Lemma X21_snapshot_of_generated_logs_witness :
  Snapshot.errorCount (getSnapshot (observe [Examples.sample_log])) =
    (Snapshot.levelCounts (getSnapshot (observe [Examples.sample_log]))
       Level.error +
     Snapshot.levelCounts (getSnapshot (observe [Examples.sample_log]))
       Level.fatal)%nat.
Proof.
  assert (draws Examples.sample_draws) as Hdraws.
  { unfold draws. simpl.
    repeat split; try lia; unfold Qle; simpl; try lia;
      vm_compute; discriminate. }
  assert (generateLog Examples.iso (Some 1704067200000) Examples.sample_draws
          = JS.Normal Examples.sample_log) as Hlog
    by (vm_compute; reflexivity).
  assert (Forall (generated Examples.iso) [Examples.sample_log]) as Hall.
  { apply List.Forall_cons; [|apply List.Forall_nil].
    exists (Some 1704067200000), Examples.sample_draws.
    split; [exact Hdraws | exact Hlog]. }
  exact (proj1 (X21_snapshot_of_generated_logs Examples.iso
                  [Examples.sample_log] Hall)).
Defined.

End GeneratedSamples.
